(** * Calibu / fiducials: online calibration engine and camera interface

    A shallow embedding of [include/fiducials/calib/Calibrator.h]
    (namespace [fiducials]: [CameraAndPose], [ReprojectionCost],
    [Calibrator]) and of the camera interface that follows it in the same
    file (namespace [calibu]: [CameraInterface], the CRTP base [Camera],
    [Rig]), together with the properties the specification states about
    them.

    Conventions.
    - The scalar type is the template parameter [T] / [Scalar] of the source;
      it is kept abstract (a type with the arithmetic operations the code
      uses).  Laws of arithmetic are assumed only where a statement needs
      them, and then as explicit hypotheses.
    - Fixed-size Eigen matrices are records of their coefficients.
    - Sophus' [SE3Group] is an external library: it appears as an interface
      ([SE3Group] below) with one concrete instance used for evaluation.
    - Objects owned through [std::unique_ptr] live in an explicit free store;
      a pointer is a location of that store.
    - [int] is a 32-bit two's complement integer, [size_t] values are the
      lengths of the vectors they measure.
    - Executions are sequential: the calls of the clients and the passes of
      the background loop are taken one at a time.  [std::thread] is not
      modelled, so [Start], [Stop] and the printing destructor are left
      out; the mutex is a flag, and the loop runs for as many passes as its
      condition is found true. *)

From Stdlib Require Import ZArith String List Lia PrimFloat.
From stdpp Require Import base option list.
Import ListNotations.

Set Implicit Arguments.
Set Default Proof Using "Type".

Local Open Scope Z_scope.

(* ===================================================================== *)
(** ** Scalars *)
(* ===================================================================== *)

(** The arithmetic a scalar type must offer to instantiate the templates of
    the source ([double], or an automatic-differentiation jet). *)
Class ScalarOps (T : Type) : Type := {
  s_zero : T;
  s_one  : T;
  s_add  : T -> T -> T;
  s_sub  : T -> T -> T;
  s_mul  : T -> T -> T
}.

Declare Scope scalar_scope.
Delimit Scope scalar_scope with sc.
Infix "+" := s_add : scalar_scope.
Infix "-" := s_sub : scalar_scope.
Infix "*" := s_mul : scalar_scope.

#[export] Instance Z_ScalarOps : ScalarOps Z := {
  s_zero := 0; s_one := 1; s_add := Z.add; s_sub := Z.sub; s_mul := Z.mul
}.



(* ===================================================================== *)
(** ** Fixed-size Eigen vectors and matrices *)
(* ===================================================================== *)

Section Eigen.
Context {T : Type} {Scalar_T : ScalarOps T}.

(** [Eigen::Matrix<T,2,1>] *)
Record Vec2t : Type := mkVec2 { v2_0 : T; v2_1 : T }.
(** [Eigen::Matrix<T,3,1>] *)
Record Vec3t : Type := mkVec3 { v3_0 : T; v3_1 : T; v3_2 : T }.
(** [Eigen::Matrix<T,3,3>], by rows *)
Record Mat3t : Type := mkMat3 { m3_r0 : Vec3t; m3_r1 : Vec3t; m3_r2 : Vec3t }.
(** [Eigen::Matrix<T,2,3>], by rows *)
Record Mat23t : Type := mkMat23 { m23_r0 : Vec3t; m23_r1 : Vec3t }.
(** [Eigen::Matrix<T,2,4>], by columns *)
Record Mat24t : Type :=
  mkMat24 { m24_c0 : Vec2t; m24_c1 : Vec2t; m24_c2 : Vec2t; m24_c3 : Vec2t }.

Definition v2_sub (a b : Vec2t) : Vec2t :=
  mkVec2 (v2_0 a - v2_0 b)%sc (v2_1 a - v2_1 b)%sc.

Definition v2_zero : Vec2t := mkVec2 s_zero s_zero.

Definition v3_add (a b : Vec3t) : Vec3t :=
  mkVec3 (v3_0 a + v3_0 b)%sc (v3_1 a + v3_1 b)%sc (v3_2 a + v3_2 b)%sc.

(** [rho * v] *)
Definition v3_scale (rho : T) (v : Vec3t) : Vec3t :=
  mkVec3 (rho * v3_0 v)%sc (rho * v3_1 v)%sc (rho * v3_2 v)%sc.

(** Row times column, summed left to right as Eigen's coefficient-wise
    product evaluator does for fixed sizes. *)
Definition v3_dot (a b : Vec3t) : T :=
  (v3_0 a * v3_0 b + v3_1 a * v3_1 b + v3_2 a * v3_2 b)%sc.

Definition m3_col (j : nat) (m : Mat3t) : Vec3t :=
  match j with
  | O => mkVec3 (v3_0 (m3_r0 m)) (v3_0 (m3_r1 m)) (v3_0 (m3_r2 m))
  | S O => mkVec3 (v3_1 (m3_r0 m)) (v3_1 (m3_r1 m)) (v3_1 (m3_r2 m))
  | _ => mkVec3 (v3_2 (m3_r0 m)) (v3_2 (m3_r1 m)) (v3_2 (m3_r2 m))
  end.

(** 3x3 times 3x1 *)
Definition m3_mul_v3 (m : Mat3t) (v : Vec3t) : Vec3t :=
  mkVec3 (v3_dot (m3_r0 m) v) (v3_dot (m3_r1 m) v) (v3_dot (m3_r2 m) v).

(** 2x3 times 3x1 *)
Definition m23_mul_v3 (j : Mat23t) (v : Vec3t) : Vec2t :=
  mkVec2 (v3_dot (m23_r0 j) v) (v3_dot (m23_r1 j) v).

(** 2x3 times 3x3 *)
Definition m23_mul_m3 (j : Mat23t) (m : Mat3t) : Mat23t :=
  let row r := mkVec3 (v3_dot r (m3_col 0 m)) (v3_dot r (m3_col 1 m))
                      (v3_dot r (m3_col 2 m)) in
  mkMat23 (row (m23_r0 j)) (row (m23_r1 j)).

Definition m23_col (k : nat) (j : Mat23t) : Vec2t :=
  match k with
  | O => mkVec2 (v3_0 (m23_r0 j)) (v3_0 (m23_r1 j))
  | S O => mkVec2 (v3_1 (m23_r0 j)) (v3_1 (m23_r1 j))
  | _ => mkVec2 (v3_2 (m23_r0 j)) (v3_2 (m23_r1 j))
  end.

(** [m.topLeftCorner<2,3>()] read as a value. *)
Definition topLeftCorner_2_3 (m : Mat24t) : Mat23t :=
  mkMat23 (mkVec3 (v2_0 (m24_c0 m)) (v2_0 (m24_c1 m)) (v2_0 (m24_c2 m)))
          (mkVec3 (v2_1 (m24_c0 m)) (v2_1 (m24_c1 m)) (v2_1 (m24_c2 m))).

(** [m.topLeftCorner<2,3>() = b]: the block is overwritten, the rest of
    [m] keeps its contents. *)
Definition set_topLeftCorner_2_3 (m : Mat24t) (b : Mat23t) : Mat24t :=
  mkMat24 (m23_col 0 b) (m23_col 1 b) (m23_col 2 b) (m24_c3 m).

(** [m.col(3)] read as a value. *)
Definition col3 (m : Mat24t) : Vec2t := m24_c3 m.

(** [m.col(3) = v] *)
Definition set_col3 (m : Mat24t) (v : Vec2t) : Mat24t :=
  mkMat24 (m24_c0 m) (m24_c1 m) (m24_c2 m) v.

(** The coefficients behind [data()], in storage order. *)
Definition v2_data (v : Vec2t) : list T := [v2_0 v; v2_1 v].
Definition v3_data (v : Vec3t) : list T := [v3_0 v; v3_1 v; v3_2 v].

End Eigen.

Arguments Vec2t T : clear implicits.
Arguments Vec3t T : clear implicits.
Arguments Mat3t T : clear implicits.
Arguments Mat23t T : clear implicits.
Arguments Mat24t T : clear implicits.

(** [v.cast<T>()]: coefficient-wise conversion of the stored [double]s. *)
Definition v2_cast {D T : Type} (cast : D -> T) (v : Vec2t D) : Vec2t T :=
  mkVec2 (cast (v2_0 v)) (cast (v2_1 v)).
Definition v3_cast {D T : Type} (cast : D -> T) (v : Vec3t D) : Vec3t T :=
  mkVec3 (cast (v3_0 v)) (cast (v3_1 v)) (cast (v3_2 v)).

(* ===================================================================== *)
(** ** Sophus: rigid transforms (external library, taken as an interface) *)
(* ===================================================================== *)

(** What the source uses of [Sophus::SE3Group<T>]: the default constructor
    (identity), [rotationMatrix()], [translation()], the action on a point
    ([operator*]), the seven stored scalars behind [data()], and the view
    [Eigen::Map<const SE3Group<T>>] of seven scalars as a transform. *)
Class SE3Group (T : Type) : Type := {
  SE3 : Type;
  SE3_identity : SE3;
  rotationMatrix : SE3 -> Mat3t T;
  translation : SE3 -> Vec3t T;
  SE3_mul_point : SE3 -> Vec3t T -> Vec3t T;
  SE3_data : SE3 -> list T;
  SE3_Map : list T -> option SE3
}.

(** A concrete instance for evaluation: unit quaternion (x, y, z, w)
    followed by the translation, the rotation matrix computed from the
    quaternion coefficients, and [T * p = R p + t]. *)
Record QuatSE3 (T : Type) : Type := mkQuatSE3 {
  q_x : T; q_y : T; q_z : T; q_w : T;
  q_translation : Vec3t T
}.

Section QuatInstance.
Context {T : Type} {Scalar_T : ScalarOps T}.

Definition quat_rotationMatrix (X : QuatSE3 T) : Mat3t T :=
  let two := (s_one + s_one)%sc in
  let tx := (two * q_x X)%sc in
  let ty := (two * q_y X)%sc in
  let tz := (two * q_z X)%sc in
  let twx := (tx * q_w X)%sc in
  let twy := (ty * q_w X)%sc in
  let twz := (tz * q_w X)%sc in
  let txx := (tx * q_x X)%sc in
  let txy := (ty * q_x X)%sc in
  let txz := (tz * q_x X)%sc in
  let tyy := (ty * q_y X)%sc in
  let tyz := (tz * q_y X)%sc in
  let tzz := (tz * q_z X)%sc in
  mkMat3
    (mkVec3 (s_one - (tyy + tzz)) (txy - twz) (txz + twy))%sc
    (mkVec3 (txy + twz) (s_one - (txx + tzz)) (tyz - twx))%sc
    (mkVec3 (txz - twy) (tyz + twx) (s_one - (txx + tyy)))%sc.

Definition quat_mul_point (X : QuatSE3 T) (p : Vec3t T) : Vec3t T :=
  v3_add (m3_mul_v3 (quat_rotationMatrix X) p) (q_translation X).

Definition quat_data (X : QuatSE3 T) : list T :=
  [q_x X; q_y X; q_z X; q_w X] ++ v3_data (q_translation X).

Definition quat_Map (a : list T) : option (QuatSE3 T) :=
  match a with
  | x :: y :: z :: w :: t0 :: t1 :: t2 :: _ =>
      Some (mkQuatSE3 x y z w (mkVec3 t0 t1 t2))
  | _ => None
  end.

Definition quat_identity : QuatSE3 T :=
  mkQuatSE3 s_zero s_zero s_zero s_one (mkVec3 s_zero s_zero s_zero).

#[export] Instance Quat_SE3Group : SE3Group T := {
  SE3 := QuatSE3 T;
  SE3_identity := quat_identity;
  rotationMatrix := quat_rotationMatrix;
  translation := @q_translation T;
  SE3_mul_point := quat_mul_point;
  SE3_data := quat_data;
  SE3_Map := quat_Map
}.

End QuatInstance.


(* ===================================================================== *)
(** ** namespace calibu: camera interface, CRTP base and rig *)
(* ===================================================================== *)

Module calibu.

(** The three functions a [Derived] camera supplies to the CRTP base
    [Camera<Derived, Scalar>].  Each reads its input through [data()] and
    fills an output the base class has just declared; here it is the
    function from the input coefficients to the output coefficients. *)
Class CameraImpl (Scalar : Type) : Type := {
  UnprojectImpl : Vec2t Scalar -> Vec3t Scalar;
  ProjectImpl : Vec3t Scalar -> Vec2t Scalar;
  dProject_drayImpl : Vec3t Scalar -> Mat23t Scalar
}.

Section Camera.
Context {Scalar : Type} {Scalar_ops : ScalarOps Scalar}.
Context {Sophus_Scalar : SE3Group Scalar} {Derived : CameraImpl Scalar}.

(** [SE3t<Scalar>] *)
Definition SE3t : Type := SE3.

Definition Unproject (pix : Vec2t Scalar) : Vec3t Scalar :=
  UnprojectImpl pix.

Definition Project (ray : Vec3t Scalar) : Vec2t Scalar :=
  ProjectImpl ray.

Definition dProject_dray (ray : Vec3t Scalar) : Mat23t Scalar :=
  dProject_drayImpl ray.

Definition Transfer3d (t_ba : SE3t) (ray : Vec3t Scalar) (rho : Scalar)
  : Vec2t Scalar :=
  let ray_dehomogenized :=
    v3_add (m3_mul_v3 (rotationMatrix t_ba) ray)
           (v3_scale rho (translation t_ba)) in
  Project ray_dehomogenized.

(** [dtransfer3d_dray] is declared without an initialiser: its coefficients
    are indeterminate until assigned.  [uninit] stands for whatever the
    matrix holds at that point. *)
Definition dTransfer3d_dray (uninit : Mat24t Scalar)
    (t_ba : SE3t) (ray : Vec3t Scalar) (rho : Scalar) : Mat24t Scalar :=
  let rot_matrix := rotationMatrix t_ba in
  let ray_dehomogenized :=
    v3_add (m3_mul_v3 rot_matrix ray) (v3_scale rho (translation t_ba)) in
  let dproject_dray := dProject_dray ray_dehomogenized in
  let dtransfer3d_dray := uninit in
  let dtransfer3d_dray :=
    set_topLeftCorner_2_3 dtransfer3d_dray
      (m23_mul_m3 dproject_dray rot_matrix) in
  let dtransfer3d_dray :=
    set_col3 dtransfer3d_dray (m23_mul_v3 dproject_dray (translation t_ba)) in
  dtransfer3d_dray.

End Camera.

Section Rig.
Context {Scalar : Type} {Sophus_Scalar : SE3Group Scalar}.

(** Address of a camera object ([CameraInterface<Scalar>*]). *)
Context {CameraInterface_ptr : Type}.

(** [CameraInterface<Scalar>::Ptr], a [std::shared_ptr]: the only thing the
    rig does with it is to store it; [shared_from] is the constructor from a
    raw pointer. *)
Record Ptr : Type := shared_from { get : CameraInterface_ptr }.

Record Rig : Type := mkRig {
  cameras_ : list Ptr;
  t_wc_ : list SE3
}.

(** A default-constructed rig. *)
Definition Rig_new : Rig := mkRig [] [].

(** [void AddCamera(typename CameraInterface<Scalar>::Ptr cam, ...)] *)
Definition AddCamera (cam : Ptr) (t_wc : SE3) (r : Rig) : Rig :=
  let r := mkRig (cameras_ r ++ [cam]) (t_wc_ r) in
  let r := mkRig (cameras_ r) (t_wc_ r ++ [t_wc]) in
  r.

(** [void AddCamera(CameraInterface<Scalar>* cam, ...)] *)
Definition AddCamera_raw (cam : CameraInterface_ptr) (t_wc : SE3) (r : Rig)
  : Rig :=
  let r := mkRig (cameras_ r ++ [shared_from cam]) (t_wc_ r) in
  let r := mkRig (cameras_ r) (t_wc_ r ++ [t_wc]) in
  r.

(** A call of either overload. *)
Inductive AddCamera_call : Type :=
| call_Ptr (cam : Ptr) (t_wc : SE3)
| call_raw (cam : CameraInterface_ptr) (t_wc : SE3).

Definition do_call (c : AddCamera_call) (r : Rig) : Rig :=
  match c with
  | call_Ptr cam t_wc => AddCamera cam t_wc r
  | call_raw cam t_wc => AddCamera_raw cam t_wc r
  end.

(** Calls made one after the other, oldest first. *)
Definition do_calls (cs : list AddCamera_call) (r : Rig) : Rig :=
  foldl (fun r c => do_call c r) r cs.

(** The pair a call hands to the rig. *)
Definition call_camera (c : AddCamera_call) : Ptr :=
  match c with
  | call_Ptr cam _ => cam
  | call_raw cam _ => shared_from cam
  end.

Definition call_pose (c : AddCamera_call) : SE3 :=
  match c with
  | call_Ptr _ t_wc => t_wc
  | call_raw _ t_wc => t_wc
  end.

End Rig.

End calibu.

(* ===================================================================== *)
(** ** namespace fiducials: reprojection cost *)
(* ===================================================================== *)

Module fiducials.

(** [int]: 32 bits, two's complement.  [wrap_int z] is the value an [int]
    holds after a conversion from the mathematical value [z]. *)
Definition wrap_int (z : Z) : Z := (z + 2 ^ 31) mod 2 ^ 32 - 2 ^ 31.

(** [int id = v.size();] *)
Definition int_of_size_t (n : nat) : Z := wrap_int (Z.of_nat n).

(** The template parameter [ProjModel]: a number of intrinsic parameters
    and a map from the normalised image plane to pixels, itself a template
    over the scalar type. *)
Class ProjModel : Type := {
  NUM_PARAMS : nat;
  Map : forall (T : Type) `{ScalarOps T}, Vec2t T -> list T -> Vec2t T
}.

(** [ReprojectionCost<ProjModel>]: the landmark and the observed pixel, both
    stored as [double]s. *)
Record ReprojectionCost (double : Type) : Type := mkReprojectionCost {
  m_Pw : Vec3t double;
  m_pc : Vec2t double
}.

Section Evaluate.
Context {ProjModel0 : ProjModel}.
Context {double T : Type} {Scalar_T : ScalarOps T} {Sophus_T : SE3Group T}.

(** Conversion of a stored [double] to the evaluation scalar [T]
    (the identity when [T] is [double]). *)
Variable cast : double -> T.

(** [fiducials::Project<T>], the projection of a camera-frame point onto
    the normalised image plane.  It is declared in
    [fiducials/cam/CameraModel.h], outside the source at hand, and is a
    parameter here. *)
Variable Project : Vec3t T -> Vec2t T.

(** [bool Evaluate(T const* const* parameters, T* residuals) const].
    [parameters] is the array of parameter blocks; the result is the return
    value together with the two coefficients written to [residuals].  A read
    outside [parameters], or outside a pose block, has no defined result. *)
Definition Evaluate (self : ReprojectionCost double)
    (parameters : list (list T)) : option (bool * list T) :=
  p0 ← parameters !! 0%nat;
  T_kw ← SE3_Map p0;
  p1 ← parameters !! 1%nat;
  T_ck ← SE3_Map p1;
  camparam ← parameters !! 2%nat;
  let Pc := SE3_mul_point T_ck (SE3_mul_point T_kw (v3_cast cast (m_Pw self))) in
  let pc := Map (Project Pc) camparam in
  let r := v2_sub pc (v2_cast cast (m_pc self)) in
  Some (true, v2_data r).

End Evaluate.

(** *** Instances used for evaluation *)

(** A linear pinhole model: parameters [fu, fv, u0, v0]. *)
Definition pinhole_Map (T : Type) `{ScalarOps T} (p : Vec2t T) (params : list T)
  : Vec2t T :=
  match params with
  | fu :: fv :: u0 :: v0 :: _ =>
      mkVec2 (fu * v2_0 p + u0)%sc (fv * v2_1 p + v0)%sc
  | _ => p
  end.

Definition LinearPinhole : ProjModel := {|
  NUM_PARAMS := 4;
  Map := pinhole_Map
|}.

(** Perspective division on integers (truncating). *)
Definition Z_Project (P : Vec3t Z) : Vec2t Z :=
  mkVec2 (v3_0 P ÷ v3_2 P) (v3_1 P ÷ v3_2 P).


(* ===================================================================== *)
(** ** namespace fiducials: the calibration engine *)
(* ===================================================================== *)

(** *** Memory *)

(** A location of the free store. *)
Abbreviation loc := nat.

(** A [double*] handed to the solver: the start of the seven scalars of a
    frame pose, of the seven scalars of a camera's [T_ck], or of a camera's
    intrinsic parameters, inside the object at the given location. *)
Inductive dptr : Type :=
| PoseData (l : loc)
| T_ckData (l : loc)
| CameraData (l : loc).

Definition dptr_eqb (p q : dptr) : bool :=
  match p, q with
  | PoseData a, PoseData b => Nat.eqb a b
  | T_ckData a, T_ckData b => Nat.eqb a b
  | CameraData a, CameraData b => Nat.eqb a b
  | _, _ => false
  end.

(** What [catch] sees of a thrown object: whether its class is
    [std::exception] or derived from it (with the text of its [what()]), or
    any other type. *)
Inductive thrown : Type :=
| thrown_std_exception (what : string)
| thrown_other.

(** [what()] of the handler's parameter [e]: the handler takes
    [std::exception] by value, so [e] is a copy of the base-class part of
    the thrown object and reports the base class's text. *)
Definition sliced_what : string := "std::exception".

(** *** Solver boundary (Ceres) *)

Inductive Ownership : Type := DO_NOT_TAKE_OWNERSHIP | TAKE_OWNERSHIP.

Record Problem_Options : Type := mkProblemOptions {
  cost_function_ownership : Ownership;
  local_parameterization_ownership : Ownership;
  loss_function_ownership : Ownership
}.

Definition Problem_Options_default : Problem_Options :=
  mkProblemOptions TAKE_OWNERSHIP TAKE_OWNERSHIP TAKE_OWNERSHIP.

Record Solver_Options : Type := mkSolverOptions {
  num_threads : Z;
  update_state_every_iteration : bool;
  max_num_iterations : Z
}.

Definition Solver_Options_default : Solver_Options :=
  mkSolverOptions 1 false 50.

(** The one local parameterization the engine owns, [m_LocalParamSe3]. *)
Inductive LocalParameterization : Type := m_LocalParamSe3.

Record ParameterBlock : Type := mkParameterBlock {
  pb_values : dptr;
  pb_size : nat;
  pb_local_parameterization : option LocalParameterization
}.

(** A [ceres::LossFunction] object, known by its address; the engine only
    ever passes [nullptr]. *)
Record LossFunction : Type := mkLossFunction { loss_address : nat }.

Section Engine.
Context {ProjModel0 : ProjModel}.
Context {double : Type} {Sophus_double : SE3Group double}.


(** [Sophus::SE3d] *)
Definition SE3d : Type := SE3.

(** Modelled from the spec: [CameraModel<ProjModel>] is declared in
    [fiducials/cam/CameraModel.h]; of it the engine uses the intrinsic
    parameters, "a fixed-size vector whose length depends on the projection
    model", through [Params()] and [data()]. *)
Record CameraModel : Type := mkCameraModel { Params : list double }.

Record CameraAndPose : Type := mkCameraAndPose {
  camera : CameraModel;
  T_ck : SE3d
}.

(** Objects are kept by kind; a cell is [None] once its object has been
    destroyed.  Cells are never reused. *)
Record Memory : Type := mkMemory {
  frame_cells : list (option SE3d);
  camera_cells : list (option CameraAndPose)
}.

(** Modelled from the spec: [CostFunctionAndParams] is declared in
    [fiducials/calib/CostFunctionAndParams.h]; it pairs a cost function with
    the parameter-block addresses [Params()] and the loss [Loss()] that
    [AddResidualBlock] is given. *)
Record CostFunctionAndParams : Type := mkCost {
  cost_function : ReprojectionCost double;
  cost_Params : list dptr;
  cost_Loss : option LossFunction
}.

(** Template arguments [2, 7, 7, ProjModel::NUM_PARAMS] of the base class
    [AutoDiffArrayCostFunction]. *)
Definition num_residuals_of (c : CostFunctionAndParams) : Z := 2.
Definition parameter_block_sizes (c : CostFunctionAndParams) : list nat :=
  [7%nat; 7%nat; NUM_PARAMS].

Record ResidualBlock : Type := mkResidualBlock {
  rb_cost : CostFunctionAndParams;
  rb_loss : option LossFunction;
  rb_parameter_blocks : list dptr
}.

Record Problem : Type := mkProblem {
  problem_options : Problem_Options;
  parameter_blocks : list ParameterBlock;
  constant_blocks : list dptr;
  residual_blocks : list ResidualBlock
}.

(** [ceres::Problem problem(options)] *)
Definition Problem_new (o : Problem_Options) : Problem :=
  mkProblem o [] [] [].

Definition HasParameterBlock (p : Problem) (values : dptr) : bool :=
  existsb (fun b => dptr_eqb (pb_values b) values) (parameter_blocks p).

(** [problem.AddParameterBlock(values, size, local_parameterization)]; a
    block that is already present is kept as it is. *)
Definition AddParameterBlock (p : Problem) (values : dptr) (size : nat)
    (lp : option LocalParameterization) : Problem :=
  if HasParameterBlock p values then p
  else mkProblem (problem_options p)
         (parameter_blocks p ++ [mkParameterBlock values size lp])
         (constant_blocks p) (residual_blocks p).

Definition IsParameterBlockConstant (p : Problem) (values : dptr) : bool :=
  existsb (dptr_eqb values) (constant_blocks p).

(** [problem.SetParameterBlockConstant(values)] *)
Definition SetParameterBlockConstant (p : Problem) (values : dptr) : Problem :=
  if IsParameterBlockConstant p values then p
  else mkProblem (problem_options p) (parameter_blocks p)
         (constant_blocks p ++ [values]) (residual_blocks p).

(** [problem.AddResidualBlock(cost, loss, parameter_blocks)]: parameter
    blocks not yet in the problem are added with the sizes the cost function
    declares and without a local parameterization. *)
Definition AddResidualBlock (p : Problem) (cost : CostFunctionAndParams)
    (loss : option LossFunction) (params : list dptr) : Problem :=
  let p := foldl (fun p vs => AddParameterBlock p (fst vs) (snd vs) None) p
                 (zip params (parameter_block_sizes cost)) in
  mkProblem (problem_options p) (parameter_blocks p) (constant_blocks p)
            (residual_blocks p ++ [mkResidualBlock cost loss params]).

(** [int problem.NumResiduals()]: the residual counts of the residual
    blocks, added up; the result is an [int]. *)
Definition NumResiduals (p : Problem) : Z :=
  wrap_int
    (foldr (fun b n => num_residuals_of (rb_cost b) + n) 0 (residual_blocks p)).

(** The parameter blocks the solver is allowed to move. *)
Definition free_blocks (p : Problem) : list dptr :=
  filter (fun v => IsParameterBlockConstant p v = false)
         (pb_values <$> parameter_blocks p).

Record Solver_Summary : Type := mkSummary {
  BriefReport : string;
  final_cost : double;
  num_residuals : Z
}.

(** How a call of [ceres::Solve] ends: it returns with a summary, or it
    throws; either way it may have written to memory before. *)
Inductive Solve_result : Type :=
| Solve_returns (m : Memory) (summary : Solver_Summary)
| Solve_throws (m : Memory) (e : thrown).

Definition Solve_memory (r : Solve_result) : Memory :=
  match r with
  | Solve_returns m _ => m
  | Solve_throws m _ => m
  end.

(** *** The engine's state *)

Record Calibrator : Type := mkCalibrator {
  m_update_mutex : bool;
  m_should_run : bool;
  m_running : bool;
  m_T_kw : list loc;
  m_camera : list loc;
  m_costs : list CostFunctionAndParams;
  m_prob_options : Problem_Options;
  m_solver_options : Solver_Options
}.

(** What an execution leaves behind for an observer, in order: the
    operations on the mutex; what [AddObservation] does to add its residual
    (the two element accesses, the construction, the append); the solver
    calls and the reports. *)
Inductive Event : Type :=
| ev_lock
| ev_unlock
| ev_camera_at (camera : Z)
| ev_T_kw_at (frame : Z)
| ev_new_ReprojectionCost (P_c : Vec3t double) (p_c : Vec2t double)
| ev_costs_push_back (c : CostFunctionAndParams)
| ev_Solve (o : Solver_Options) (p : Problem)
| ev_cout_BriefReport (s : string)
| ev_cout_stats (frames : nat) (observations : Z) (mse : double)
| ev_cerr (s : string).

(** The memory, the engine object [*this] and the events so far. *)
Record World : Type := mkWorld {
  mem : Memory;
  this : Calibrator;
  trace : list Event
}.

(** An execution ends normally with a value, has no defined behaviour, or
    is left by an exception nobody caught. *)
Inductive Result (A : Type) : Type :=
| Ok (a : A) (w : World)
| Undefined
| Uncaught (e : thrown) (w : World).

Arguments Ok {A} a w.
Arguments Undefined {A}.
Arguments Uncaught {A} e w.

Definition M (A : Type) : Type := World -> Result A.

#[export] Instance M_ret : MRet M := fun A a w => Ok a w.

#[export] Instance M_bind : MBind M := fun A B k m w =>
  match m w with
  | Ok a w' => k a w'
  | Undefined => Undefined
  | Uncaught e w' => Uncaught e w'
  end.

Definition get_this : M Calibrator := fun w => Ok (this w) w.
Definition get_mem : M Memory := fun w => Ok (mem w) w.
Definition set_this (c : Calibrator) : M unit :=
  fun w => Ok tt (mkWorld (mem w) c (trace w)).
Definition set_mem (m : Memory) : M unit :=
  fun w => Ok tt (mkWorld m (this w) (trace w)).
Definition emit (e : Event) : M unit :=
  fun w => Ok tt (mkWorld (mem w) (this w) (trace w ++ [e])).
Definition undefined {A : Type} : M A := fun _ => Undefined.
Definition throw {A : Type} (e : thrown) : M A := fun w => Uncaught e w.

(** [try { body } catch(std::exception e) { handler }] *)
Definition try_catch_std_exception {A : Type} (body : M A)
    (handler : string -> M A) : M A := fun w =>
  match body w with
  | Uncaught (thrown_std_exception _) w' => handler sliced_what w'
  | r => r
  end.

(** [v[i]] for a [size_t] index: defined inside the vector only. *)
Definition at_index {A : Type} (v : list A) (i : nat) : M A :=
  match v !! i with
  | Some a => mret a
  | None => undefined
  end.

(** [v[i]] for an [int] index: a negative [i] converts to a [size_t] beyond
    any vector. *)
Definition at_int {A : Type} (v : list A) (i : Z) : M A :=
  if 0 <=? i then at_index v (Z.to_nat i) else undefined.

Definition with_mutex (b : bool) (c : Calibrator) : Calibrator :=
  mkCalibrator b (m_should_run c) (m_running c)
               (m_T_kw c) (m_camera c) (m_costs c)
               (m_prob_options c) (m_solver_options c).

Definition with_running (b : bool) (c : Calibrator) : Calibrator :=
  mkCalibrator (m_update_mutex c) (m_should_run c) b
               (m_T_kw c) (m_camera c) (m_costs c)
               (m_prob_options c) (m_solver_options c).

Definition with_T_kw (v : list loc) (c : Calibrator) : Calibrator :=
  mkCalibrator (m_update_mutex c) (m_should_run c) (m_running c)
               v (m_camera c) (m_costs c)
               (m_prob_options c) (m_solver_options c).

Definition with_camera (v : list loc) (c : Calibrator) : Calibrator :=
  mkCalibrator (m_update_mutex c) (m_should_run c) (m_running c)
               (m_T_kw c) v (m_costs c)
               (m_prob_options c) (m_solver_options c).

Definition with_costs (v : list CostFunctionAndParams) (c : Calibrator)
  : Calibrator :=
  mkCalibrator (m_update_mutex c) (m_should_run c) (m_running c)
               (m_T_kw c) (m_camera c) v
               (m_prob_options c) (m_solver_options c).

(** [m_update_mutex.lock()], by a thread that finds the mutex free. *)
Definition lock : M unit :=
  c ← get_this;
  if m_update_mutex c then undefined
  else set_this (with_mutex true c);; emit ev_lock.

(** [m_update_mutex.unlock()], by the thread that holds it. *)
Definition unlock : M unit :=
  c ← get_this;
  if m_update_mutex c then set_this (with_mutex false c);; emit ev_unlock
  else undefined.

(** [*p] for a pointer to a frame pose: the object must be alive. *)
Definition deref_frame (l : loc) : M SE3d :=
  m ← get_mem;
  match frame_cells m !! l with
  | Some (Some x) => mret x
  | _ => undefined
  end.

(** [*p] for a pointer to a camera. *)
Definition deref_camera (l : loc) : M CameraAndPose :=
  m ← get_mem;
  match camera_cells m !! l with
  | Some (Some x) => mret x
  | _ => undefined
  end.

(** [new Sophus::SE3d(x)] *)
Definition new_frame (x : SE3d) : M loc :=
  m ← get_mem;
  set_mem (mkMemory (frame_cells m ++ [Some x]) (camera_cells m));;
  mret (length (frame_cells m)).

(** [new CameraAndPose<ProjModel>(cam, T_ck)], and the object a function
    returning a [CameraAndPose] by value initialises in its caller. *)
Definition new_camera (x : CameraAndPose) : M loc :=
  m ← get_mem;
  set_mem (mkMemory (frame_cells m) (camera_cells m ++ [Some x]));;
  mret (length (camera_cells m)).

(** An assignment through a reference to a frame pose. *)
Definition assign_frame (l : loc) (x : SE3d) : M unit :=
  deref_frame l;;
  m ← get_mem;
  set_mem (mkMemory (<[l := Some x]> (frame_cells m)) (camera_cells m)).

(** An assignment to a [CameraAndPose] object. *)
Definition assign_camera (l : loc) (x : CameraAndPose) : M unit :=
  deref_camera l;;
  m ← get_mem;
  set_mem (mkMemory (frame_cells m) (<[l := Some x]> (camera_cells m))).

(** Destruction of the objects a vector of [unique_ptr]s owns. *)
Definition destroy_all {A : Type} (ls : list loc) (cells : list (option A))
  : list (option A) :=
  foldl (fun cells l => <[l := None]> cells) cells ls.

(** *** Calibrator *)

(** [Calibrator()].  The constructor does not initialise [m_should_run] and
    [m_running]; the arguments are the values they happen to hold. *)
Definition Calibrator_new (should_run running : bool) : Calibrator :=
  let m_prob_options := Problem_Options_default in
  let m_solver_options := Solver_Options_default in
  let m_prob_options :=
    mkProblemOptions DO_NOT_TAKE_OWNERSHIP
      (local_parameterization_ownership m_prob_options)
      (loss_function_ownership m_prob_options) in
  let m_prob_options :=
    mkProblemOptions (cost_function_ownership m_prob_options)
      DO_NOT_TAKE_OWNERSHIP (loss_function_ownership m_prob_options) in
  let m_prob_options :=
    mkProblemOptions (cost_function_ownership m_prob_options)
      (local_parameterization_ownership m_prob_options)
      DO_NOT_TAKE_OWNERSHIP in
  let m_solver_options :=
    mkSolverOptions 4 (update_state_every_iteration m_solver_options)
      (max_num_iterations m_solver_options) in
  let m_solver_options :=
    mkSolverOptions (num_threads m_solver_options) true
      (max_num_iterations m_solver_options) in
  let m_solver_options :=
    mkSolverOptions (num_threads m_solver_options)
      (update_state_every_iteration m_solver_options) 100 in
  mkCalibrator false should_run running [] [] [] m_prob_options
               m_solver_options.

(** A process that has just constructed its engine. *)
Definition World_new (should_run running : bool) : World :=
  mkWorld (mkMemory [] []) (Calibrator_new should_run running) [].

Definition Clear : M unit :=
  c ← get_this;
  m ← get_mem;
  set_mem (mkMemory (destroy_all (m_T_kw c) (frame_cells m)) (camera_cells m));;
  set_this (with_T_kw [] c);;
  c ← get_this;
  m ← get_mem;
  set_mem (mkMemory (frame_cells m) (destroy_all (m_camera c) (camera_cells m)));;
  set_this (with_camera [] c);;
  c ← get_this;
  set_this (with_costs [] c).

Definition AddCamera (cam : CameraModel) (T_ck : SE3d) : M Z :=
  c ← get_this;
  let id := int_of_size_t (length (m_camera c)) in
  l ← new_camera (mkCameraAndPose cam T_ck);
  c ← get_this;
  set_this (with_camera (m_camera c ++ [l]) c);;
  mret id.

Definition AddFrame (T_kw : SE3d) : M Z :=
  c ← get_this;
  let id := int_of_size_t (length (m_T_kw c)) in
  l ← new_frame T_kw;
  c ← get_this;
  set_this (with_T_kw (m_T_kw c ++ [l]) c);;
  mret id.

(** [m_camera[camera]], as [AddObservation] evaluates it. *)
Definition m_camera_at (camera : Z) : M loc :=
  emit (ev_camera_at camera);;
  c ← get_this;
  at_int (m_camera c) camera.

(** [m_T_kw[frame]], as [AddObservation] evaluates it. *)
Definition m_T_kw_at (frame : Z) : M loc :=
  emit (ev_T_kw_at frame);;
  c ← get_this;
  at_int (m_T_kw c) frame.

(** [new ReprojectionCost<ProjModel>(P_c, p_c)]: the new object has no
    parameter blocks and no loss function yet. *)
Definition new_ReprojectionCost (P_c : Vec3t double) (p_c : Vec2t double)
  : M CostFunctionAndParams :=
  emit (ev_new_ReprojectionCost P_c p_c);;
  mret (mkCost (mkReprojectionCost P_c p_c) [] None).

(** [m_costs.push_back(std::unique_ptr<CostFunctionAndParams>(cost))] *)
Definition m_costs_push_back (cost : CostFunctionAndParams) : M unit :=
  c ← get_this;
  set_this (with_costs (m_costs c ++ [cost]) c);;
  emit (ev_costs_push_back cost).

Definition AddObservation (frame camera : Z)
    (P_c : Vec3t double) (p_c : Vec2t double) : M unit :=
  lock;;
  cp ← m_camera_at camera;
  deref_camera cp;;
  T_kw ← m_T_kw_at frame;
  deref_frame T_kw;;
  cost ← new_ReprojectionCost P_c p_c;
  let cost := mkCost (cost_function cost)
                [PoseData T_kw; T_ckData cp; CameraData cp] (cost_Loss cost) in
  let cost := mkCost (cost_function cost) (cost_Params cost) None in
  m_costs_push_back cost;;
  unlock.

Definition NumFrames : M nat :=
  c ← get_this; mret (length (m_T_kw c)).

(** [Sophus::SE3d& GetFrame(size_t i)]: the result is the stored object
    itself. *)
Definition GetFrame (i : nat) : M loc :=
  c ← get_this;
  l ← at_index (m_T_kw c) i;
  deref_frame l;;
  mret l.

Definition NumCameras : M nat :=
  c ← get_this; mret (length (m_camera c)).

(** [CameraAndPose<ProjModel> GetCamera(size_t i)]: the result is a new
    object, initialised from the stored one. *)
Definition GetCamera (i : nat) : M loc :=
  c ← get_this;
  l ← at_index (m_camera c) i;
  x ← deref_camera l;
  new_camera x.

(** [for(size_t c = c0; c < v.size(); ++c) body(c, v[c])], over the
    elements from [c0] on. *)
Fixpoint for_loop {A St : Type} (c : nat) (v : list A)
    (body : nat -> A -> St -> St) (s : St) : St :=
  match v with
  | [] => s
  | a :: v' => for_loop (S c) v' body (body c a s)
  end.

(** What one pass of [SolveThread] adds to its problem while it holds the
    mutex. *)
Definition fill_problem (this : Calibrator) (problem : Problem) : Problem :=
  let problem :=
    for_loop 0 (m_camera this) (fun c l problem =>
      let problem :=
        AddParameterBlock problem (T_ckData l) 7 (Some m_LocalParamSe3) in
      if Nat.eqb c 0 then SetParameterBlockConstant problem (T_ckData l)
      else problem) problem in
  let problem :=
    for_loop 0 (m_T_kw this) (fun p l problem =>
      AddParameterBlock problem (PoseData l) 7 (Some m_LocalParamSe3))
      problem in
  let problem :=
    for_loop 0 (m_costs this) (fun c cost problem =>
      AddResidualBlock problem cost (cost_Loss cost) (cost_Params cost))
      problem in
  problem.

(** The problem a pass builds from the engine's state: a new problem with
    the engine's options, filled. *)
Definition build_problem (this : Calibrator) : Problem :=
  fill_problem this (Problem_new (m_prob_options this)).

(** [ceres::Solve], an external function: from the options, the problem and
    the memory the problem's blocks point into, to the way the call ends. *)
Variable ceres_Solve : Solver_Options -> Problem -> Memory -> Solve_result.

(** [summary.final_cost / summary.num_residuals] *)
Variable div_count : double -> Z -> double.

Definition Solve (o : Solver_Options) (p : Problem) : M Solver_Summary :=
  emit (ev_Solve o p);;
  m ← get_mem;
  match ceres_Solve o p m with
  | Solve_returns m' summary => set_mem m';; mret summary
  | Solve_throws m' e => set_mem m';; throw e
  end.

(** One pass through the body of the [while] loop of [SolveThread]. *)
Definition SolveThread_iteration : M unit :=
  c ← get_this;
  let problem := Problem_new (m_prob_options c) in
  lock;;
  c ← get_this;
  let problem := fill_problem c problem in
  unlock;;
  if 0 <? NumResiduals problem then
    try_catch_std_exception
      (c ← get_this;
       summary ← Solve (m_solver_options c) problem;
       emit (ev_cout_BriefReport (BriefReport summary));;
       let mse := div_count (final_cost summary) (num_residuals summary) in
       c ← get_this;
       emit (ev_cout_stats (length (m_T_kw c)) (num_residuals summary) mse))
      (fun what => emit (ev_cerr what))
  else mret tt.

Fixpoint iterate (n : nat) (body : M unit) : M unit :=
  match n with
  | O => mret tt
  | S n' => body;; iterate n' body
  end.

(** [SolveThread()], for an execution in which the loop condition
    [m_should_run] (written by other threads) is found true [n] times. *)
Definition SolveThread (n : nat) : M unit :=
  c ← get_this;
  set_this (with_running true c);;
  iterate n SolveThread_iteration;;
  c ← get_this;
  set_this (with_running false c).

(** *** Clients *)

(** What the threads of a process do with an engine, one step at a time:
    calls of the public interface, uses of what the accessors return, and
    passes of the background loop. *)
Inductive Step : Type :=
| step_AddCamera (cam : CameraModel) (T_ck : SE3d)
| step_AddFrame (T_kw : SE3d)
| step_AddObservation (frame camera : Z) (P_c : Vec3t double)
    (p_c : Vec2t double)
| step_NumFrames
| step_NumCameras
| step_GetFrame_assign (i : nat) (x : SE3d)
| step_GetCamera_assign (i : nat) (x : CameraAndPose)
| step_SolveThread_iteration
| step_Clear.

Definition do_step (s : Step) : M unit :=
  match s with
  | step_AddCamera cam T_ck => AddCamera cam T_ck;; mret tt
  | step_AddFrame T_kw => AddFrame T_kw;; mret tt
  | step_AddObservation frame camera P_c p_c =>
      AddObservation frame camera P_c p_c
  | step_NumFrames => NumFrames;; mret tt
  | step_NumCameras => NumCameras;; mret tt
  | step_GetFrame_assign i x => r ← GetFrame i; assign_frame r x
  | step_GetCamera_assign i x => cp ← GetCamera i; assign_camera cp x
  | step_SolveThread_iteration => SolveThread_iteration
  | step_Clear => Clear
  end.

Fixpoint run (ss : list Step) : M unit :=
  match ss with
  | [] => mret tt
  | s :: ss' => do_step s;; run ss'
  end.

(** *** Reading the engine's state *)

(** The pose of frame [i] and the entry of camera [i], as stored. *)
Definition frame_value (w : World) (i : nat) : option SE3d :=
  l ← m_T_kw (this w) !! i; mjoin (frame_cells (mem w) !! l).

Definition camera_value (w : World) (i : nat) : option CameraAndPose :=
  l ← m_camera (this w) !! i; mjoin (camera_cells (mem w) !! l).

(** The content of a parameter block. *)
Inductive block_value : Type :=
| value_pose (x : SE3d)
| value_params (x : CameraModel).

Definition read_block (m : Memory) (p : dptr) : option block_value :=
  match p with
  | PoseData l => x ← mjoin (frame_cells m !! l); Some (value_pose x)
  | T_ckData l => x ← mjoin (camera_cells m !! l); Some (value_pose (T_ck x))
  | CameraData l =>
      x ← mjoin (camera_cells m !! l); Some (value_params (camera x))
  end.

(** A store through a [double*] into the block it points to: [f] gives the
    new pose, [g] the new intrinsics. *)
Definition modify_block (f : SE3d -> SE3d) (g : CameraModel -> CameraModel)
    (m : Memory) (p : dptr) : Memory :=
  match p with
  | PoseData l =>
      mkMemory (alter (fmap f) l (frame_cells m)) (camera_cells m)
  | T_ckData l =>
      mkMemory (frame_cells m)
        (alter (fmap (fun x => mkCameraAndPose (camera x) (f (T_ck x)))) l
               (camera_cells m))
  | CameraData l =>
      mkMemory (frame_cells m)
        (alter (fmap (fun x => mkCameraAndPose (g (camera x)) (T_ck x))) l
               (camera_cells m))
  end.

(** The residual [AddObservation] constructs for the frame object at [lf]
    and the camera object at [lc]. *)
Definition observation_cost (lf lc : loc) (P_c : Vec3t double)
    (p_c : Vec2t double) : CostFunctionAndParams :=
  mkCost (mkReprojectionCost P_c p_c)
         [PoseData lf; T_ckData lc; CameraData lc] None.

(** What a call of [AddObservation] that ends normally leaves in the
    trace. *)
Definition observation_events (frame camera : Z) (P_c : Vec3t double)
    (p_c : Vec2t double) (cost : CostFunctionAndParams) : list Event :=
  [ev_lock; ev_camera_at camera; ev_T_kw_at frame;
   ev_new_ReprojectionCost P_c p_c; ev_costs_push_back cost; ev_unlock].

(** *** Well-formed states and the solver's contract *)

(** Between two steps the mutex is free, every pointer the engine holds is
    to a live object, and no object is held twice. *)
Definition wf (w : World) : Prop :=
  m_update_mutex (this w) = false /\
  NoDup (m_T_kw (this w)) /\
  NoDup (m_camera (this w)) /\
  Forall (fun l => is_Some (mjoin (frame_cells (mem w) !! l)))
         (m_T_kw (this w)) /\
  Forall (fun l => is_Some (mjoin (camera_cells (mem w) !! l)))
         (m_camera (this w)).

(** Same cells, alive or destroyed alike. *)
Definition same_cells {A : Type} (a b : list (option A)) : Prop :=
  Forall2 (fun x y => is_Some x <-> is_Some y) a b.

(** What the engine relies on of [ceres::Solve]: it creates and destroys
    nothing, and it writes only to parameter blocks of the problem that are
    not constant. *)
Definition Solve_contract : Prop :=
  forall o p m,
    let m' := Solve_memory (ceres_Solve o p m) in
    same_cells (frame_cells m) (frame_cells m') /\
    same_cells (camera_cells m) (camera_cells m') /\
    forall q, q ∉ free_blocks p -> read_block m' q = read_block m q.

(** The solver reports failure with exceptions of class [std::exception]
    or of classes derived from it. *)
Definition Solve_throws_std_exception : Prop :=
  forall o p m m' e,
    ceres_Solve o p m = Solve_throws m' e ->
    exists what, e = thrown_std_exception what.

(** The world an execution ends in, when it has one. *)
Definition final_world {A : Type} (r : Result A) : option World :=
  match r with
  | Ok _ w => Some w
  | Undefined => None
  | Uncaught _ w => Some w
  end.

(** *** What a step does to the world *)

(** [effect w s w']: step [s], taken in [w], can end in [w'], normally or
    by an exception that leaves the loop.  This is the relation the
    functions above compute (see [do_step_effect]); a step without defined
    behaviour is related to nothing. *)
Inductive effect (w : World) : Step -> World -> Prop :=
| effect_AddCamera (cam : CameraModel) (T_ck : SE3d) :
    effect w (step_AddCamera cam T_ck)
      (mkWorld
         (mkMemory (frame_cells (mem w))
            (camera_cells (mem w) ++ [Some (mkCameraAndPose cam T_ck)]))
         (with_camera (m_camera (this w) ++ [length (camera_cells (mem w))])
                      (this w))
         (trace w))
| effect_AddFrame (T_kw : SE3d) :
    effect w (step_AddFrame T_kw)
      (mkWorld
         (mkMemory (frame_cells (mem w) ++ [Some T_kw]) (camera_cells (mem w)))
         (with_T_kw (m_T_kw (this w) ++ [length (frame_cells (mem w))])
                    (this w))
         (trace w))
| effect_AddObservation (frame camera : Z) (P_c : Vec3t double)
    (p_c : Vec2t double) (lf lc : loc) :
    m_update_mutex (this w) = false ->
    0 <= frame -> m_T_kw (this w) !! Z.to_nat frame = Some lf ->
    0 <= camera -> m_camera (this w) !! Z.to_nat camera = Some lc ->
    is_Some (mjoin (frame_cells (mem w) !! lf)) ->
    is_Some (mjoin (camera_cells (mem w) !! lc)) ->
    effect w (step_AddObservation frame camera P_c p_c)
      (mkWorld (mem w)
         (with_costs (m_costs (this w) ++ [observation_cost lf lc P_c p_c])
                     (this w))
         (trace w
          ++ observation_events frame camera P_c p_c
               (observation_cost lf lc P_c p_c)))
| effect_NumFrames : effect w step_NumFrames w
| effect_NumCameras : effect w step_NumCameras w
| effect_GetFrame_assign (i : nat) (x : SE3d) (l : loc) :
    m_T_kw (this w) !! i = Some l ->
    is_Some (mjoin (frame_cells (mem w) !! l)) ->
    effect w (step_GetFrame_assign i x)
      (mkWorld
         (mkMemory (<[l := Some x]> (frame_cells (mem w)))
                   (camera_cells (mem w)))
         (this w) (trace w))
| effect_GetCamera_assign (i : nat) (x : CameraAndPose) (l : loc) :
    m_camera (this w) !! i = Some l ->
    is_Some (mjoin (camera_cells (mem w) !! l)) ->
    effect w (step_GetCamera_assign i x)
      (mkWorld
         (mkMemory (frame_cells (mem w)) (camera_cells (mem w) ++ [Some x]))
         (this w) (trace w))
| effect_iteration_skip :
    m_update_mutex (this w) = false ->
    NumResiduals (build_problem (this w)) <= 0 ->
    effect w step_SolveThread_iteration
      (mkWorld (mem w) (this w) (trace w ++ [ev_lock; ev_unlock]))
| effect_iteration_Solve (reported : list Event) :
    m_update_mutex (this w) = false ->
    0 < NumResiduals (build_problem (this w)) ->
    effect w step_SolveThread_iteration
      (mkWorld
         (Solve_memory
            (ceres_Solve (m_solver_options (this w))
                         (build_problem (this w)) (mem w)))
         (this w)
         (trace w
          ++ [ev_lock; ev_unlock;
              ev_Solve (m_solver_options (this w)) (build_problem (this w))]
          ++ reported))
| effect_Clear :
    effect w step_Clear
      (mkWorld
         (mkMemory (destroy_all (m_T_kw (this w)) (frame_cells (mem w)))
                   (destroy_all (m_camera (this w)) (camera_cells (mem w))))
         (with_costs [] (with_camera [] (with_T_kw [] (this w))))
         (trace w)).

(** *** Sequences of [AddFrame] and [AddCamera] calls *)

Inductive Add_call : Type :=
| add_Frame (T_kw : SE3d)
| add_Camera (cam : CameraModel) (T_ck : SE3d).

Definition do_add (c : Add_call) : M Z :=
  match c with
  | add_Frame T_kw => AddFrame T_kw
  | add_Camera cam T_ck => AddCamera cam T_ck
  end.

(** The calls in order, and the ids they return. *)
Fixpoint run_adds (cs : list Add_call) : M (list Z) :=
  match cs with
  | [] => mret []
  | c :: cs' => id ← do_add c; ids ← run_adds cs'; mret (id :: ids)
  end.

(** For each call, how many calls of the same kind came before it; [nf] and
    [nc] count the [AddFrame] and [AddCamera] calls made already. *)
Fixpoint ordinals (nf nc : nat) (cs : list Add_call) : list nat :=
  match cs with
  | [] => []
  | add_Frame _ :: cs' => nf :: ordinals (S nf) nc cs'
  | add_Camera _ _ :: cs' => nc :: ordinals nf (S nc) cs'
  end.

Definition is_add_Frame (c : Add_call) : bool :=
  match c with add_Frame _ => true | add_Camera _ _ => false end.

Definition count_Frames (cs : list Add_call) : nat :=
  length (filter (fun c => is_add_Frame c = true) cs).

Definition count_Cameras (cs : list Add_call) : nat :=
  length (filter (fun c => is_add_Frame c = false) cs).

End Engine.

Arguments Ok {double Sophus_double A} a w.
Arguments Undefined {double Sophus_double A}.
Arguments Uncaught {double Sophus_double A} e w.

(** *** Instances used for evaluation: [double] is [Z] *)

Definition Z_div_count (x : Z) (n : Z) : Z := x ÷ n.

Definition Z_shift_pose (x : QuatSE3 Z) : QuatSE3 Z :=
  mkQuatSE3 (q_x x) (q_y x) (q_z x) (q_w x)
    (mkVec3 (v3_0 (q_translation x) + 1) (v3_1 (q_translation x))
            (v3_2 (q_translation x))).

Definition Z_shift_params (c : CameraModel (double:=Z)) : CameraModel :=
  mkCameraModel (Z.succ <$> Params c).

(** A solver that moves every block it is free to move, and returns. *)
Definition shifting_Solve (o : Solver_Options) (p : Problem (double:=Z))
    (m : Memory (Sophus_double:=Quat_SE3Group)) : Solve_result :=
  Solve_returns
    (foldl (modify_block Z_shift_pose Z_shift_params) m (free_blocks p))
    (mkSummary "shifted" 0 (NumResiduals p)).

(** A solver that moves the same blocks and then throws [e]. *)
Definition throwing_Solve (e : thrown) (o : Solver_Options)
    (p : Problem (double:=Z)) (m : Memory (Sophus_double:=Quat_SE3Group))
  : Solve_result :=
  Solve_throws
    (foldl (modify_block Z_shift_pose Z_shift_params) m (free_blocks p)) e.

(** A solver that fails in two ways: with a [std::runtime_error] on a
    problem of at most two residual blocks, with an exception that is not a
    [std::exception] on a larger one. *)
Definition fussy_Solve (o : Solver_Options) (p : Problem (double:=Z))
    (m : Memory (Sophus_double:=Quat_SE3Group)) : Solve_result :=
  if (length (residual_blocks p) <=? 2)%nat
  then Solve_throws m (thrown_std_exception "std::runtime_error")
  else Solve_throws m thrown_other.

(** A small scene: two cameras, two frames, one observation for each
    camera, added to a new engine. *)
Definition Z_camera : CameraModel (double:=Z) := mkCameraModel [3; 1; 0; 5].

Definition Z_half_turn : QuatSE3 Z := mkQuatSE3 0 0 1 0 (mkVec3 1 0 2).

Definition Z_scene : list (Step (Sophus_double:=Quat_SE3Group)) :=
  [step_AddCamera Z_camera quat_identity;
   step_AddCamera Z_camera Z_half_turn;
   step_AddFrame quat_identity;
   step_AddFrame Z_half_turn;
   step_AddObservation 0 0 (mkVec3 4 6 2) (mkVec2 6 8);
   step_AddObservation 1 1 (mkVec3 4 6 2) (mkVec2 1 1)].

Definition Z_adds : list (Add_call (Sophus_double:=Quat_SE3Group (T:=Z))) :=
  [add_Frame quat_identity; add_Camera Z_camera quat_identity;
   add_Frame Z_half_turn; add_Frame quat_identity;
   add_Camera Z_camera Z_half_turn].

Definition Z_world : World :=
  Eval vm_compute in
  default (World_new false false)
    (final_world
       (run (ProjModel0:=LinearPinhole) shifting_Solve Z_div_count Z_scene
            (World_new false false))).

End fiducials.

(* ===================================================================== *)
(** ** Notions used to state further properties *)
(* ===================================================================== *)

Section Eigen_perturbations.
Context {T : Type} {Scalar_T : ScalarOps T}.

(** [Eigen::Matrix<T,4,1>]: a perturbation of a ray (three coefficients)
    and of an inverse depth (the fourth). *)
Record Vec4t : Type := mkVec4 { v4_0 : T; v4_1 : T; v4_2 : T; v4_3 : T }.

(** 2x4 times 4x1 *)
Definition m24_mul_v4 (m : Mat24t T) (v : Vec4t) : Vec2t T :=
  mkVec2
    (v2_0 (m24_c0 m) * v4_0 v + v2_0 (m24_c1 m) * v4_1 v
     + v2_0 (m24_c2 m) * v4_2 v + v2_0 (m24_c3 m) * v4_3 v)%sc
    (v2_1 (m24_c0 m) * v4_0 v + v2_1 (m24_c1 m) * v4_1 v
     + v2_1 (m24_c2 m) * v4_2 v + v2_1 (m24_c3 m) * v4_3 v)%sc.

End Eigen_perturbations.

Arguments Vec4t T : clear implicits.

Module fiducials_notions.
Import fiducials.

Section Notions.
Context {double : Type} {Sophus_double : SE3Group double}.

(** A residual is bound to the engine's objects: its parameter blocks are
    the pose data of a frame object the engine holds and the [T_ck] and
    intrinsics data of one camera object the engine holds, and it has no
    loss function. *)
Definition bound_to (w : World) (c : CostFunctionAndParams (double:=double))
  : Prop :=
  exists lf lc,
    cost_Params c = [PoseData lf; T_ckData lc; CameraData lc] /\
    lf ∈ m_T_kw (this w) /\ lc ∈ m_camera (this w) /\
    cost_Loss c = None.

Definition costs_bound (w : World) : Prop :=
  Forall (bound_to w) (m_costs (this w)).

(** The mutex discipline of a trace, replayed from a mutex that is held or
    not: [lock] needs it free, [unlock] needs it held, a residual is
    constructed from elements of the vectors and pushed only while it is
    held, the solver is called and reports are written only while it is
    free.  The result is whether the mutex is held at the end,
    or [None] when the trace breaks the discipline. *)
Fixpoint replay (held : bool) (t : list (Event (double:=double)))
  : option bool :=
  match t with
  | [] => Some held
  | ev_lock :: t' => if held then None else replay true t'
  | ev_unlock :: t' => if held then replay false t' else None
  | ev_camera_at _ :: t' => if held then replay held t' else None
  | ev_T_kw_at _ :: t' => if held then replay held t' else None
  | ev_new_ReprojectionCost _ _ :: t' => if held then replay held t' else None
  | ev_costs_push_back _ :: t' => if held then replay held t' else None
  | ev_Solve _ _ :: t' => if held then None else replay held t'
  | ev_cout_BriefReport _ :: t' => if held then None else replay held t'
  | ev_cout_stats _ _ _ :: t' => if held then None else replay held t'
  | ev_cerr _ :: t' => if held then None else replay held t'
  end.

(** The [Solve] calls of a trace, in order. *)
Fixpoint Solve_calls (t : list (Event (double:=double)))
  : list (Solver_Options * Problem (double:=double)) :=
  match t with
  | [] => []
  | ev_Solve o p :: t' => (o, p) :: Solve_calls t'
  | _ :: t' => Solve_calls t'
  end.

End Notions.

(** *** Instances used for evaluation, continued *)

(** What happens to the scene next: a third frame, a client that assigns
    to a copy of camera 0, a pass of the loop, an observation of the new
    frame by camera 1, a client that assigns to frame 0. *)
Definition Z_later : list (Step (Sophus_double:=Quat_SE3Group (T:=Z))) :=
  [step_AddFrame Z_half_turn;
   step_GetCamera_assign 0 (mkCameraAndPose Z_camera Z_half_turn);
   step_SolveThread_iteration;
   step_AddObservation 2 1 (mkVec3 1 1 1) (mkVec2 2 3);
   step_GetFrame_assign 0 Z_half_turn].

Definition Z_world_later : World :=
  Eval vm_compute in
  default Z_world
    (final_world
       (run (ProjModel0:=LinearPinhole) shifting_Solve Z_div_count Z_later
            Z_world)).

End fiducials_notions.

(** A camera over the integers whose projection is not linear:
    [(x, y, z) -> (x z, y z)], with its Jacobian. *)
Definition Z_camera_impl : calibu.CameraImpl Z := {|
  calibu.UnprojectImpl := fun p => mkVec3 (v2_0 p) (v2_1 p) 1;
  calibu.ProjectImpl := fun r => mkVec2 (v3_0 r * v3_2 r) (v3_1 r * v3_2 r);
  calibu.dProject_drayImpl := fun r =>
    mkMat23 (mkVec3 (v3_2 r) 0 (v3_0 r)) (mkVec3 0 (v3_2 r) (v3_1 r))
|}.

(* ===================================================================== *)
(** * Properties *)
(* ===================================================================== *)

(** ** Camera: transfer and its Jacobian *)

Section Camera_properties.
Context {Scalar : Type} {Scalar_ops : ScalarOps Scalar}.
Context {Sophus_Scalar : SE3Group Scalar} {Derived : calibu.CameraImpl Scalar}.

(** The transformed ray both functions project: [R r + rho t]. *)
Local Abbreviation transformed_ray t_ba ray rho :=
  (v3_add (m3_mul_v3 (rotationMatrix t_ba) ray)
          (v3_scale rho (translation t_ba))).

(** Reading back a block that has just been assigned gives the assigned
    value, whatever the matrix held before. *)
Lemma topLeftCorner_set (m : Mat24t Scalar) (b : Mat23t Scalar) :
  topLeftCorner_2_3 (set_topLeftCorner_2_3 m b) = b.
Proof. destruct b as [[a0 a1 a2] [b0 b1 b2]]. reflexivity. Qed.

Lemma topLeftCorner_set_col3 (m : Mat24t Scalar) (v : Vec2t Scalar) :
  topLeftCorner_2_3 (set_col3 m v) = topLeftCorner_2_3 m.
Proof. reflexivity. Qed.

Lemma col3_set_col3 (m : Mat24t Scalar) (v : Vec2t Scalar) :
  col3 (set_col3 m v) = v.
Proof. reflexivity. Qed.

(** C7. For every rigid transform [t_ba], ray [ray] and inverse depth [rho],
    [Transfer3d t_ba ray rho] is the projection, by the same camera, of
    [R ray + rho t], with [R] and [t] the rotation matrix and the
    translation of [t_ba]. *)
Theorem Transfer3d_projects_transformed_ray
    (t_ba : calibu.SE3t) (ray : Vec3t Scalar) (rho : Scalar) :
  calibu.Transfer3d t_ba ray rho
  = calibu.Project (transformed_ray t_ba ray rho).
Proof. unfold calibu.Transfer3d. reflexivity. Qed.

(** C8. For every rigid transform, ray and inverse depth, and whatever the
    result matrix held before it was filled, the left 2x3 block of
    [dTransfer3d_dray] is [dProject_dray (R r + rho t) * R] and its fourth
    column is [dProject_dray (R r + rho t) * t]. *)
Theorem dTransfer3d_dray_blocks (uninit : Mat24t Scalar)
    (t_ba : calibu.SE3t) (ray : Vec3t Scalar) (rho : Scalar) :
  let J := calibu.dProject_dray (transformed_ray t_ba ray rho) in
  let D := calibu.dTransfer3d_dray uninit t_ba ray rho in
  topLeftCorner_2_3 D = m23_mul_m3 J (rotationMatrix t_ba) /\
  col3 D = m23_mul_v3 J (translation t_ba).
Proof.
  intros J D. subst D. unfold calibu.dTransfer3d_dray. split.
  - rewrite topLeftCorner_set_col3. apply topLeftCorner_set.
  - apply col3_set_col3.
Qed.

End Camera_properties.

(** The Jacobian on a concrete camera: the identity-like projection
    [(x, y, z) -> (x, y)] with its constant Jacobian, a transform that turns
    by a half turn about the z axis and translates by [(1, 0, 2)].  The
    indeterminate initial coefficients (here 9) do not show in the result. *)
Example dTransfer3d_dray_example :
  let cam : calibu.CameraImpl Z := {|
    calibu.UnprojectImpl := fun p => mkVec3 (v2_0 p) (v2_1 p) 1;
    calibu.ProjectImpl := fun r => mkVec2 (v3_0 r) (v3_1 r);
    calibu.dProject_drayImpl := fun _ =>
      mkMat23 (mkVec3 1 0 0) (mkVec3 0 1 0) |} in
  let t_ba := mkQuatSE3 0 0 1 0 (mkVec3 1 0 2) in
  let junk := mkMat24 (mkVec2 9 9) (mkVec2 9 9) (mkVec2 9 9) (mkVec2 9 9) in
  calibu.Transfer3d (Sophus_Scalar:=Quat_SE3Group) t_ba (mkVec3 3 4 1) 5
    = mkVec2 2 (-4) /\
  calibu.dTransfer3d_dray (Sophus_Scalar:=Quat_SE3Group) junk t_ba
      (mkVec3 3 4 1) 5
    = mkMat24 (mkVec2 (-1) 0) (mkVec2 0 (-1)) (mkVec2 0 0) (mkVec2 1 0).
Proof. split; reflexivity. Qed.

(** ** Rig *)

Section Rig_properties.
Context {Scalar : Type} {Sophus_Scalar : SE3Group Scalar}.
Context {CameraInterface_ptr : Type}.

Local Abbreviation Rig :=
  (calibu.Rig (Scalar:=Scalar) (CameraInterface_ptr:=CameraInterface_ptr)).
Local Abbreviation AddCamera_call :=
  (calibu.AddCamera_call (Scalar:=Scalar)
     (CameraInterface_ptr:=CameraInterface_ptr)).

(** Either overload appends the camera to [cameras_] and the pose to
    [t_wc_]. *)
Lemma do_call_appends (c : AddCamera_call) (r : Rig) :
  calibu.cameras_ (calibu.do_call c r)
    = calibu.cameras_ r ++ [calibu.call_camera c] /\
  calibu.t_wc_ (calibu.do_call c r)
    = calibu.t_wc_ r ++ [calibu.call_pose c].
Proof. destruct c; split; reflexivity. Qed.

Lemma do_calls_appends (cs : list AddCamera_call) (r : Rig) :
  calibu.cameras_ (calibu.do_calls cs r)
    = calibu.cameras_ r ++ (calibu.call_camera <$> cs) /\
  calibu.t_wc_ (calibu.do_calls cs r)
    = calibu.t_wc_ r ++ (calibu.call_pose <$> cs).
Proof.
  revert r. induction cs as [|c cs IH]; intros r.
  - cbn. rewrite !app_nil_r. split; reflexivity.
  - change (calibu.do_calls (c :: cs) r)
      with (calibu.do_calls cs (calibu.do_call c r)).
    destruct (IH (calibu.do_call c r)) as [IHc IHt].
    destruct (do_call_appends c r) as [Hc Ht].
    rewrite IHc, IHt, Hc, Ht, !fmap_cons, <- !app_assoc.
    split; reflexivity.
Qed.

(** C10. For every sequence of [AddCamera] calls (either overload) on a
    new rig, [cameras_] and [t_wc_] have the same length, namely the number
    of calls; the camera and the pose of the [i]-th call are at index [i] of
    the two collections; and every single call, on any rig, appends exactly
    one entry to each collection. *)
Theorem Rig_AddCamera_paired (cs : list AddCamera_call) :
  let r := calibu.do_calls cs calibu.Rig_new in
  length (calibu.cameras_ r) = length (calibu.t_wc_ r) /\
  length (calibu.cameras_ r) = length cs /\
  (forall i c, cs !! i = Some c ->
     calibu.cameras_ r !! i = Some (calibu.call_camera c) /\
     calibu.t_wc_ r !! i = Some (calibu.call_pose c)) /\
  (forall (r0 : Rig) c,
     calibu.cameras_ (calibu.do_call c r0)
       = calibu.cameras_ r0 ++ [calibu.call_camera c] /\
     calibu.t_wc_ (calibu.do_call c r0)
       = calibu.t_wc_ r0 ++ [calibu.call_pose c]).
Proof.
  intros r.
  destruct (do_calls_appends cs calibu.Rig_new)
    as [Hc Ht].
  fold r in Hc, Ht. cbn in Hc, Ht. rewrite Hc, Ht.
  repeat split.
  - rewrite !length_fmap. reflexivity.
  - apply length_fmap.
  - rewrite list_lookup_fmap, H. reflexivity.
  - rewrite list_lookup_fmap, H. reflexivity.
  - apply do_call_appends.
  - apply do_call_appends.
Qed.

End Rig_properties.

(** Three calls, mixing the overloads; cameras are known by address. *)
Example Rig_AddCamera_example :
  let t := mkQuatSE3 0 0 1 0 (mkVec3 1 0 2) in
  let r := calibu.do_calls (Sophus_Scalar:=Quat_SE3Group (T:=Z))
             [calibu.call_raw 10%nat quat_identity;
              calibu.call_Ptr (calibu.shared_from 20%nat) t;
              calibu.call_raw 30%nat t] calibu.Rig_new in
  calibu.get <$> calibu.cameras_ r = [10%nat; 20%nat; 30%nat] /\
  calibu.t_wc_ r = [quat_identity; t; t].
Proof. split; reflexivity. Qed.

(** ** Reprojection cost *)

Section Evaluate_properties.
Context {ProjModel0 : fiducials.ProjModel}.
Context {double T : Type} {Scalar_T : ScalarOps T} {Sophus_T : SE3Group T}.
Variable cast : double -> T.
Variable Project : Vec3t T -> Vec2t T.

(** The pixel the current parameter values predict for the landmark. *)
Local Abbreviation predicted self T_kw T_ck camparam :=
  (fiducials.Map
     (Project (SE3_mul_point T_ck
                 (SE3_mul_point T_kw (v3_cast cast (fiducials.m_Pw self)))))
     camparam).


End Evaluate_properties.



(** The same formula on integers. *)
Example Evaluate_example :
  fiducials.Evaluate (ProjModel0:=fiducials.LinearPinhole)
      (Sophus_T:=Quat_SE3Group) (fun x : Z => x) fiducials.Z_Project
      (fiducials.mkReprojectionCost (mkVec3 4 6 2) (mkVec2 1 1))
      [[0; 0; 0; 1; 0; 0; 0]; [0; 0; 0; 1; 0; 0; 0]; [3; 1; 0; 5]]
    = Some (true, [5; 7]).
Proof. reflexivity. Qed.

(** ** The calibration engine *)

Import fiducials.

Section Engine_properties.
Context {ProjModel0 : ProjModel}.
Context {double : Type} {Sophus_double : SE3Group double}.
Variable ceres_Solve :
  Solver_Options -> Problem (double:=double) -> Memory -> Solve_result.
Variable div_count : double -> Z -> double.

Local Abbreviation World := (World (double:=double)).
Local Abbreviation Calibrator := (Calibrator (double:=double)).
Local Abbreviation SolveThread_iteration :=
  (SolveThread_iteration ceres_Solve div_count).
Local Abbreviation SolveThread := (SolveThread ceres_Solve div_count).
Local Abbreviation do_step := (do_step ceres_Solve div_count).
Local Abbreviation run := (run ceres_Solve div_count).
Local Abbreviation effect := (effect ceres_Solve).

(** *** Records and the mutex *)

Lemma World_eta (w : World) : mkWorld (mem w) (this w) (trace w) = w.
Proof. destruct w; reflexivity. Qed.

Lemma unlock_lock (c : Calibrator) :
  m_update_mutex c = false -> with_mutex false (with_mutex true c) = c.
Proof. destruct c; cbn; intros ->; reflexivity. Qed.

Lemma unlock_push_lock (c : Calibrator) (v : list CostFunctionAndParams) :
  m_update_mutex c = false ->
  with_mutex false (with_costs v (with_mutex true c)) = with_costs v c.
Proof. destruct c; cbn; intros ->; reflexivity. Qed.

(** *** What each operation does *)

Lemma AddFrame_spec (T_kw : SE3d) (w : World) :
  AddFrame T_kw w
  = Ok (int_of_size_t (length (m_T_kw (this w))))
       (mkWorld
          (mkMemory (frame_cells (mem w) ++ [Some T_kw])
                    (camera_cells (mem w)))
          (with_T_kw (m_T_kw (this w) ++ [length (frame_cells (mem w))])
                     (this w))
          (trace w)).
Proof. reflexivity. Qed.

Lemma AddCamera_spec (cam : CameraModel) (T_ck : SE3d) (w : World) :
  AddCamera cam T_ck w
  = Ok (int_of_size_t (length (m_camera (this w))))
       (mkWorld
          (mkMemory (frame_cells (mem w))
                    (camera_cells (mem w) ++ [Some (mkCameraAndPose cam T_ck)]))
          (with_camera (m_camera (this w) ++ [length (camera_cells (mem w))])
                       (this w))
          (trace w)).
Proof. reflexivity. Qed.

Lemma at_int_spec {A : Type} {v : list A} {i : Z} {a : A} (w : World) :
  0 <= i -> v !! Z.to_nat i = Some a -> at_int v i w = Ok a w.
Proof.
  intros Hi Hv. unfold at_int, at_index.
  destruct (Z.leb_spec 0 i) as [_|]; [|lia]. rewrite Hv. reflexivity.
Qed.

Lemma AddObservation_spec (frame camera : Z) (P_c : Vec3t double)
    (p_c : Vec2t double) (w : World) (lf lc : loc) :
  m_update_mutex (this w) = false ->
  0 <= frame -> m_T_kw (this w) !! Z.to_nat frame = Some lf ->
  0 <= camera -> m_camera (this w) !! Z.to_nat camera = Some lc ->
  is_Some (mjoin (frame_cells (mem w) !! lf)) ->
  is_Some (mjoin (camera_cells (mem w) !! lc)) ->
  AddObservation frame camera P_c p_c w
  = Ok tt
      (mkWorld (mem w)
         (with_costs (m_costs (this w) ++ [observation_cost lf lc P_c p_c])
                     (this w))
         (trace w
          ++ observation_events frame camera P_c p_c
               (observation_cost lf lc P_c p_c))).
Proof.
  intros Hm Hf Hlf Hc Hlc [x Hx] [y Hy].
  unfold observation_events, AddObservation, m_camera_at, m_T_kw_at,
    new_ReprojectionCost, m_costs_push_back, lock, unlock, get_this,
    set_this, emit, deref_camera, deref_frame, get_mem, mbind, M_bind,
    mret, M_ret.
  cbn. rewrite Hm. cbn.
  rewrite (at_int_spec _ Hc Hlc). cbn.
  destruct (camera_cells (mem w) !! lc) as [[y'|]|] eqn:Ey; try discriminate.
  rewrite (at_int_spec _ Hf Hlf). cbn.
  destruct (frame_cells (mem w) !! lf) as [[x'|]|] eqn:Ex; try discriminate.
  cbn. rewrite <- !app_assoc. cbn.
  destruct w as [m c t]; destruct c; cbn in *. subst. reflexivity.
Qed.

(** *** The solver boundary *)

Lemma dptr_eqb_eq (p q : dptr) : dptr_eqb p q = true <-> p = q.
Proof.
  destruct p, q; cbn; rewrite ?Nat.eqb_eq; split; intros E;
    try discriminate; try (injection E as ->); subst; reflexivity.
Qed.

Lemma IsParameterBlockConstant_elem (p : Problem (double:=double)) (v : dptr) :
  IsParameterBlockConstant p v = true <-> v ∈ constant_blocks p.
Proof.
  unfold IsParameterBlockConstant. rewrite existsb_exists. split.
  - intros (q & Hq & E). apply dptr_eqb_eq in E. subst q.
    apply list_elem_of_In. exact Hq.
  - intros Hv. exists v. split; [apply list_elem_of_In; exact Hv|].
    apply dptr_eqb_eq. reflexivity.
Qed.

Lemma HasParameterBlock_elem (p : Problem (double:=double)) (v : dptr) :
  HasParameterBlock p v = true <-> v ∈ pb_values <$> parameter_blocks p.
Proof.
  unfold HasParameterBlock. rewrite existsb_exists, list_elem_of_fmap. split.
  - intros (b & Hb & E). apply dptr_eqb_eq in E. exists b.
    split; [symmetry; exact E | apply list_elem_of_In; exact Hb].
  - intros (b & E & Hb). exists b. split; [apply list_elem_of_In; exact Hb|].
    apply dptr_eqb_eq. symmetry. exact E.
Qed.

Lemma free_blocks_elem (p : Problem (double:=double)) (v : dptr) :
  v ∈ free_blocks p
  <-> v ∈ pb_values <$> parameter_blocks p /\ v ∉ constant_blocks p.
Proof.
  unfold free_blocks. rewrite list_elem_of_filter.
  rewrite <- IsParameterBlockConstant_elem.
  destruct (IsParameterBlockConstant p v); intuition congruence.
Qed.

(** Adding a parameter block leaves the blocks already there alone, and
    touches nothing else. *)
Lemma AddParameterBlock_blocks (p : Problem (double:=double)) v size lp :
  parameter_blocks (AddParameterBlock p v size lp)
  = if HasParameterBlock p v then parameter_blocks p
    else parameter_blocks p ++ [mkParameterBlock v size lp].
Proof. unfold AddParameterBlock. destruct (HasParameterBlock p v); reflexivity. Qed.

Lemma AddParameterBlock_constant (p : Problem (double:=double)) v size lp :
  constant_blocks (AddParameterBlock p v size lp) = constant_blocks p.
Proof. unfold AddParameterBlock. destruct (HasParameterBlock p v); reflexivity. Qed.

Lemma AddParameterBlock_residuals (p : Problem (double:=double)) v size lp :
  residual_blocks (AddParameterBlock p v size lp) = residual_blocks p.
Proof. unfold AddParameterBlock. destruct (HasParameterBlock p v); reflexivity. Qed.

Lemma AddParameterBlock_options (p : Problem (double:=double)) v size lp :
  problem_options (AddParameterBlock p v size lp) = problem_options p.
Proof. unfold AddParameterBlock. destruct (HasParameterBlock p v); reflexivity. Qed.

Lemma AddParameterBlock_keeps (p : Problem (double:=double)) v size lp b :
  b ∈ parameter_blocks p ->
  b ∈ parameter_blocks (AddParameterBlock p v size lp).
Proof.
  intros Hb. rewrite AddParameterBlock_blocks.
  destruct (HasParameterBlock p v); [exact Hb|].
  apply elem_of_app. left. exact Hb.
Qed.

(** After [AddParameterBlock] the problem has a block at that address: the
    one just given, unless one was there before. *)
Lemma AddParameterBlock_has (p : Problem (double:=double)) v size lp :
  (forall b, b ∈ parameter_blocks p -> pb_values b = v ->
             b = mkParameterBlock v size lp) ->
  mkParameterBlock v size lp
    ∈ parameter_blocks (AddParameterBlock p v size lp).
Proof.
  intros Hsame. rewrite AddParameterBlock_blocks.
  destruct (HasParameterBlock p v) eqn:E.
  - apply HasParameterBlock_elem, list_elem_of_fmap in E.
    destruct E as (b & Ev & Hb). rewrite <- (Hsame b Hb (eq_sym Ev)).
    exact Hb.
  - apply elem_of_app. right. apply list_elem_of_singleton. reflexivity.
Qed.

Lemma SetParameterBlockConstant_blocks (p : Problem (double:=double)) v :
  parameter_blocks (SetParameterBlockConstant p v) = parameter_blocks p.
Proof.
  unfold SetParameterBlockConstant.
  destruct (IsParameterBlockConstant p v); reflexivity.
Qed.

Lemma SetParameterBlockConstant_residuals (p : Problem (double:=double)) v :
  residual_blocks (SetParameterBlockConstant p v) = residual_blocks p.
Proof.
  unfold SetParameterBlockConstant.
  destruct (IsParameterBlockConstant p v); reflexivity.
Qed.

Lemma SetParameterBlockConstant_constant (p : Problem (double:=double)) v :
  constant_blocks p = [] ->
  constant_blocks (SetParameterBlockConstant p v) = [v].
Proof.
  intros E. unfold SetParameterBlockConstant, IsParameterBlockConstant.
  rewrite E. reflexivity.
Qed.

Lemma AddResidualBlock_fold_keeps (p : Problem (double:=double))
    (vs : list (dptr * nat)) :
  let p' := foldl (fun p vs => AddParameterBlock p (fst vs) (snd vs) None)
                  p vs in
  constant_blocks p' = constant_blocks p /\
  residual_blocks p' = residual_blocks p /\
  (forall b, b ∈ parameter_blocks p -> b ∈ parameter_blocks p').
Proof.
  revert p. induction vs as [|[v n] vs IH]; intros p; cbn.
  - auto.
  - destruct (IH (AddParameterBlock p v n None)) as (Hc & Hr & Hb).
    cbn in Hc, Hr, Hb.
    rewrite Hc, Hr, AddParameterBlock_constant, AddParameterBlock_residuals.
    repeat split. intros b Hin. apply Hb, AddParameterBlock_keeps, Hin.
Qed.

Lemma AddResidualBlock_constant (p : Problem (double:=double)) cost loss params :
  constant_blocks (AddResidualBlock p cost loss params) = constant_blocks p.
Proof.
  unfold AddResidualBlock. cbn.
  apply (AddResidualBlock_fold_keeps p (zip params (parameter_block_sizes cost))).
Qed.

Lemma AddResidualBlock_residuals (p : Problem (double:=double)) cost loss params :
  residual_blocks (AddResidualBlock p cost loss params)
  = residual_blocks p ++ [mkResidualBlock cost loss params].
Proof.
  unfold AddResidualBlock. cbn. f_equal.
  apply (AddResidualBlock_fold_keeps p (zip params (parameter_block_sizes cost))).
Qed.

Lemma AddResidualBlock_keeps (p : Problem (double:=double)) cost loss params b :
  b ∈ parameter_blocks p ->
  b ∈ parameter_blocks (AddResidualBlock p cost loss params).
Proof.
  unfold AddResidualBlock. cbn.
  apply (AddResidualBlock_fold_keeps p (zip params (parameter_block_sizes cost))).
Qed.

Lemma wrap_int_small (z : Z) : - 2 ^ 31 <= z < 2 ^ 31 -> wrap_int z = z.
Proof. intros Hz. unfold wrap_int. rewrite Z.mod_small; lia. Qed.

Lemma NumResiduals_length (p : Problem (double:=double)) :
  NumResiduals p = wrap_int (2 * Z.of_nat (length (residual_blocks p))).
Proof.
  unfold NumResiduals, num_residuals_of. f_equal.
  induction (residual_blocks p) as [|b bs IH]; cbn [foldr length]; lia.
Qed.

(** Below 2^30 residual blocks the count is exact. *)
Lemma NumResiduals_small (p : Problem (double:=double)) :
  Z.of_nat (length (residual_blocks p)) < 2 ^ 30 ->
  NumResiduals p = 2 * Z.of_nat (length (residual_blocks p)).
Proof.
  intros Hlt. rewrite NumResiduals_length. apply wrap_int_small. lia.
Qed.

(** *** The problem a pass of the loop builds *)

Local Abbreviation pose_block v :=
  (mkParameterBlock v 7 (Some m_LocalParamSe3)).

(** Every block registered so far has seven scalars and the pose
    parameterization. *)
Local Abbreviation all_pose_blocks p :=
  (forall b, b ∈ parameter_blocks p ->
             pb_size b = 7%nat /\
             pb_local_parameterization b = Some m_LocalParamSe3).

Local Abbreviation camera_body :=
  (fun (c : nat) (l : loc) (problem : Problem (double:=double)) =>
     let problem :=
       AddParameterBlock problem (T_ckData l) 7 (Some m_LocalParamSe3) in
     if Nat.eqb c 0 then SetParameterBlockConstant problem (T_ckData l)
     else problem).

Local Abbreviation frame_body :=
  (fun (p : nat) (l : loc) (problem : Problem (double:=double)) =>
     AddParameterBlock problem (PoseData l) 7 (Some m_LocalParamSe3)).

Local Abbreviation cost_body :=
  (fun (c : nat) (cost : CostFunctionAndParams)
       (problem : Problem (double:=double)) =>
     AddResidualBlock problem cost (cost_Loss cost) (cost_Params cost)).

Lemma pose_block_eq (p : Problem (double:=double)) b v :
  all_pose_blocks p -> b ∈ parameter_blocks p -> pb_values b = v ->
  b = pose_block v.
Proof.
  intros Hall Hb Hv. destruct (Hall b Hb) as [Hs Hl].
  destruct b; cbn in *. subst. reflexivity.
Qed.

Lemma AddParameterBlock_pose (p : Problem (double:=double)) v :
  all_pose_blocks p ->
  all_pose_blocks (AddParameterBlock p v 7 (Some m_LocalParamSe3)) /\
  pose_block v ∈ parameter_blocks
                   (AddParameterBlock p v 7 (Some m_LocalParamSe3)).
Proof.
  intros Hall. split.
  - intros b. rewrite AddParameterBlock_blocks.
    destruct (HasParameterBlock p v); [apply Hall|].
    rewrite elem_of_app, list_elem_of_singleton.
    intros [Hb| ->]; [apply Hall, Hb | split; reflexivity].
  - apply AddParameterBlock_has. intros b Hb Hv.
    apply (pose_block_eq p); assumption.
Qed.

(** The camera loop from index [c] on: every camera's [T_ck] block is
    registered as a pose block; nothing is marked constant unless the loop
    starts at index 0, and then the first camera's block is. *)
Lemma camera_loop (v : list loc) (c : nat) (p : Problem (double:=double)) :
  all_pose_blocks p ->
  let p' := for_loop c v camera_body p in
  all_pose_blocks p' /\
  (forall b, b ∈ parameter_blocks p -> b ∈ parameter_blocks p') /\
  (forall l, l ∈ v -> pose_block (T_ckData l) ∈ parameter_blocks p') /\
  residual_blocks p' = residual_blocks p /\
  problem_options p' = problem_options p /\
  (c <> 0%nat -> constant_blocks p' = constant_blocks p) /\
  (c = 0%nat -> constant_blocks p = [] ->
   constant_blocks p' = T_ckData <$> take 1 v).
Proof.
  revert c p. induction v as [|l v IH]; intros c p Hall; cbn zeta.
  - cbn. split_and!; auto. intros l Hl. inversion Hl.
  - cbn [for_loop].
    destruct (AddParameterBlock_pose p (T_ckData l) Hall) as [Hall1 Hin1].
    set (p1 := AddParameterBlock p (T_ckData l) 7 (Some m_LocalParamSe3)) in *.
    set (p2 := if Nat.eqb c 0 then SetParameterBlockConstant p1 (T_ckData l)
               else p1).
    assert (Hb2 : parameter_blocks p2 = parameter_blocks p1).
    { subst p2. destruct (Nat.eqb c 0);
        [apply SetParameterBlockConstant_blocks | reflexivity]. }
    assert (Hr2 : residual_blocks p2 = residual_blocks p).
    { subst p2 p1. destruct (Nat.eqb c 0);
        rewrite ?SetParameterBlockConstant_residuals;
        apply AddParameterBlock_residuals. }
    assert (Ho2 : problem_options p2 = problem_options p).
    { subst p2 p1. unfold SetParameterBlockConstant.
      destruct (Nat.eqb c 0); [destruct (IsParameterBlockConstant _ _)|];
        cbn; apply AddParameterBlock_options. }
    assert (Hall2 : all_pose_blocks p2).
    { intros b. rewrite Hb2. apply Hall1. }
    destruct (IH (S c) p2 Hall2) as (HA & HK & HI & HR & HO & HC & _).
    cbn zeta in HA, HK, HI, HR, HO, HC.
    split_and!.
    + apply HA.
    + intros b Hb. apply HK. rewrite Hb2.
      apply AddParameterBlock_keeps, Hb.
    + intros l' Hl'. apply elem_of_cons in Hl' as [->|Hl'].
      * apply HK. rewrite Hb2. exact Hin1.
      * apply HI, Hl'.
    + rewrite HR. exact Hr2.
    + rewrite HO. exact Ho2.
    + intros Hc. rewrite HC by lia. subst p2.
      destruct (Nat.eqb_spec c 0); [contradiction|].
      apply AddParameterBlock_constant.
    + intros -> Hnil. rewrite HC by lia. subst p2. cbn [Nat.eqb].
      apply SetParameterBlockConstant_constant.
      subst p1. rewrite AddParameterBlock_constant. exact Hnil.
Qed.

Lemma frame_loop (v : list loc) (c : nat) (p : Problem (double:=double)) :
  all_pose_blocks p ->
  let p' := for_loop c v frame_body p in
  all_pose_blocks p' /\
  (forall b, b ∈ parameter_blocks p -> b ∈ parameter_blocks p') /\
  (forall l, l ∈ v -> pose_block (PoseData l) ∈ parameter_blocks p') /\
  residual_blocks p' = residual_blocks p /\
  problem_options p' = problem_options p /\
  constant_blocks p' = constant_blocks p.
Proof.
  revert c p. induction v as [|l v IH]; intros c p Hall; cbn zeta.
  - cbn. split_and!; auto. intros l Hl. inversion Hl.
  - cbn [for_loop].
    destruct (AddParameterBlock_pose p (PoseData l) Hall) as [Hall1 Hin1].
    destruct (IH (S c) _ Hall1) as (HA & HK & HI & HR & HO & HC).
    cbn zeta in HA, HK, HI, HR, HO, HC.
    split_and!.
    + apply HA.
    + intros b Hb. apply HK, AddParameterBlock_keeps, Hb.
    + intros l' Hl'. apply elem_of_cons in Hl' as [->|Hl'].
      * apply HK, Hin1.
      * apply HI, Hl'.
    + rewrite HR. apply AddParameterBlock_residuals.
    + rewrite HO. apply AddParameterBlock_options.
    + rewrite HC. apply AddParameterBlock_constant.
Qed.

Lemma cost_loop (v : list CostFunctionAndParams) (c : nat)
    (p : Problem (double:=double)) :
  let p' := for_loop c v cost_body p in
  (forall b, b ∈ parameter_blocks p -> b ∈ parameter_blocks p') /\
  residual_blocks p'
    = residual_blocks p
      ++ ((fun cost => mkResidualBlock cost (cost_Loss cost) (cost_Params cost))
            <$> v) /\
  constant_blocks p' = constant_blocks p.
Proof.
  revert c p. induction v as [|cost v IH]; intros c p; cbn zeta.
  - cbn. rewrite app_nil_r. auto.
  - cbn [for_loop].
    destruct (IH (S c) (AddResidualBlock p cost (cost_Loss cost)
                          (cost_Params cost))) as (HK & HR & HC).
    cbn zeta in HK, HR, HC. repeat split.
    + intros b Hb. apply HK, AddResidualBlock_keeps, Hb.
    + rewrite HR, AddResidualBlock_residuals, fmap_cons, <- app_assoc.
      reflexivity.
    + rewrite HC. apply AddResidualBlock_constant.
Qed.

(** The built problem, in one statement. *)
Lemma build_problem_spec (c : Calibrator) :
  let p := build_problem c in
  constant_blocks p = T_ckData <$> take 1 (m_camera c) /\
  (forall l, l ∈ m_camera c -> pose_block (T_ckData l) ∈ parameter_blocks p) /\
  (forall l, l ∈ m_T_kw c -> pose_block (PoseData l) ∈ parameter_blocks p) /\
  residual_blocks p
    = (fun cost => mkResidualBlock cost (cost_Loss cost) (cost_Params cost))
        <$> m_costs c.
Proof.
  unfold build_problem, fill_problem. cbn zeta.
  assert (H0 : all_pose_blocks (Problem_new (double:=double) (m_prob_options c))).
  { intros b Hb. inversion Hb. }
  destruct (camera_loop (m_camera c) 0 _ H0)
    as (HA1 & _ & HI1 & HR1 & _ & _ & HC1).
  cbn zeta in HA1, HI1, HR1, HC1.
  destruct (frame_loop (m_T_kw c) 0 _ HA1) as (_ & HK2 & HI2 & HR2 & _ & HC2).
  cbn zeta in HK2, HI2, HR2, HC2.
  match goal with |- context [for_loop 0 (m_costs c) ?body ?p] =>
    destruct (cost_loop (m_costs c) 0 p) as (HK3 & HR3 & HC3) end.
  cbn zeta in HK3, HR3, HC3.
  split_and!.
  - rewrite HC3, HC2. apply HC1; reflexivity.
  - intros l Hl. apply HK3, HK2, HI1, Hl.
  - intros l Hl. apply HK3, HI2, Hl.
  - rewrite HR3, HR2, HR1. reflexivity.
Qed.

Lemma build_problem_NumResiduals (c : Calibrator) :
  NumResiduals (build_problem c)
  = wrap_int (2 * Z.of_nat (length (m_costs c))).
Proof.
  rewrite NumResiduals_length.
  destruct (build_problem_spec c) as (_ & _ & _ & HR). cbn zeta in HR.
  rewrite HR, length_fmap. reflexivity.
Qed.

(** *** One pass of the background loop *)

Local Arguments build_problem : simpl never.
Local Arguments fill_problem : simpl never.
Local Arguments NumResiduals : simpl never.

Lemma SolveThread_iteration_spec (w : World) :
  m_update_mutex (this w) = false ->
  let problem := build_problem (this w) in
  let o := m_solver_options (this w) in
  let t1 := trace w ++ [ev_lock; ev_unlock] in
  SolveThread_iteration w
  = if 0 <? NumResiduals problem then
      match ceres_Solve o problem (mem w) with
      | Solve_returns m' summary =>
          Ok tt (mkWorld m' (this w)
                   (t1 ++ [ev_Solve o problem;
                           ev_cout_BriefReport (BriefReport summary);
                           ev_cout_stats (length (m_T_kw (this w)))
                             (num_residuals summary)
                             (div_count (final_cost summary)
                                        (num_residuals summary))]))
      | Solve_throws m' (thrown_std_exception _) =>
          Ok tt (mkWorld m' (this w)
                   (t1 ++ [ev_Solve o problem; ev_cerr sliced_what]))
      | Solve_throws m' thrown_other =>
          Uncaught thrown_other
            (mkWorld m' (this w) (t1 ++ [ev_Solve o problem]))
      end
    else Ok tt (mkWorld (mem w) (this w) t1).
Proof.
  intros Hm problem o t1.
  unfold fiducials.SolveThread_iteration, lock, unlock, get_this, set_this,
    emit, mbind, M_bind, mret, M_ret.
  cbn. rewrite Hm. cbn.
  change (fill_problem (with_mutex true (this w))
            (Problem_new (m_prob_options (this w)))) with problem.
  rewrite (unlock_lock _ Hm).
  destruct (0 <? NumResiduals problem); cbn.
  - unfold try_catch_std_exception, Solve, emit, get_mem, set_mem, throw,
      mbind, M_bind, mret, M_ret. cbn. fold o.
    subst t1. rewrite <- !app_assoc. cbn.
    destruct (ceres_Solve o problem (mem w)) as [m' summary|m' [what|]]; cbn;
      rewrite <- ?app_assoc; reflexivity.
  - subst t1. rewrite <- !app_assoc. reflexivity.
Qed.

(** *** Steps compute the effect relation *)

Lemma AddObservation_effect (frame camera : Z) (P_c : Vec3t double)
    (p_c : Vec2t double) (w w' : World) :
  final_world (AddObservation frame camera P_c p_c w) = Some w' ->
  effect w (step_AddObservation frame camera P_c p_c) w'.
Proof.
  unfold AddObservation, m_camera_at, m_T_kw_at, new_ReprojectionCost,
    m_costs_push_back, lock, unlock, get_this, set_this, emit, at_int,
    at_index, deref_camera, deref_frame, get_mem, undefined,
    mbind, M_bind, mret, M_ret.
  cbn.
  destruct (m_update_mutex (this w)) eqn:Hm; [discriminate|]. cbn.
  destruct (0 <=? camera) eqn:Ec; [|discriminate].
  destruct (m_camera (this w) !! Z.to_nat camera) as [lc|] eqn:Hlc;
    [|discriminate]. cbn.
  destruct (camera_cells (mem w) !! lc) as [[cp|]|] eqn:Hcp;
    try discriminate. cbn.
  destruct (0 <=? frame) eqn:Ef; [|discriminate].
  destruct (m_T_kw (this w) !! Z.to_nat frame) as [lf|] eqn:Hlf;
    [|discriminate]. cbn.
  destruct (frame_cells (mem w) !! lf) as [[x|]|] eqn:Hx;
    try discriminate. cbn.
  rewrite <- !app_assoc. cbn. intros [= <-].
  rewrite (unlock_push_lock _ _ Hm).
  apply (effect_AddObservation ceres_Solve w P_c p_c (lf:=lf) (lc:=lc)); auto.
  - apply Z.leb_le, Ef.
  - apply Z.leb_le, Ec.
  - rewrite Hx. cbn. eauto.
  - rewrite Hcp. cbn. eauto.
Qed.

Lemma snoc_lookup {A : Type} (l : list A) (a : A) :
  (l ++ [a]) !! length l = Some a.
Proof. apply list_lookup_middle. reflexivity. Qed.

Lemma snoc_insert {A : Type} (l : list A) (a b : A) :
  <[length l := b]> (l ++ [a]) = l ++ [b].
Proof.
  rewrite insert_app_r_alt by lia. rewrite Nat.sub_diag. reflexivity.
Qed.

Lemma GetFrame_assign_effect (i : nat) (x : SE3d) (w w' : World) :
  final_world ((r ← GetFrame i; assign_frame r x) w) = Some w' ->
  effect w (step_GetFrame_assign i x) w'.
Proof.
  unfold GetFrame, assign_frame, get_this, at_index, deref_frame, get_mem,
    set_mem, undefined, mbind, M_bind, mret, M_ret.
  cbn.
  destruct (m_T_kw (this w) !! i) as [l|] eqn:Hl; [|discriminate]. cbn.
  destruct (frame_cells (mem w) !! l) as [[y|]|] eqn:Hy;
    try discriminate. cbn.
  rewrite Hy. cbn. intros [= <-].
  apply (effect_GetFrame_assign ceres_Solve w i x (l:=l)); auto.
  rewrite Hy. cbn. eauto.
Qed.

Lemma GetCamera_assign_effect (i : nat) (x : CameraAndPose) (w w' : World) :
  final_world ((cp ← GetCamera i; assign_camera cp x) w) = Some w' ->
  effect w (step_GetCamera_assign i x) w'.
Proof.
  unfold GetCamera, assign_camera, new_camera, get_this, at_index,
    deref_camera, get_mem, set_mem, undefined, mbind, M_bind, mret, M_ret.
  cbn.
  destruct (m_camera (this w) !! i) as [l|] eqn:Hl; [|discriminate]. cbn.
  destruct (camera_cells (mem w) !! l) as [[y|]|] eqn:Hy;
    try discriminate. cbn.
  rewrite snoc_lookup. cbn. rewrite snoc_insert. intros [= <-].
  apply (effect_GetCamera_assign ceres_Solve w i x (l:=l)); auto.
  rewrite Hy. cbn. eauto.
Qed.

Lemma SolveThread_iteration_effect (w w' : World) :
  final_world (SolveThread_iteration w) = Some w' ->
  effect w step_SolveThread_iteration w'.
Proof.
  destruct (m_update_mutex (this w)) eqn:Hm.
  { unfold fiducials.SolveThread_iteration, lock, get_this, undefined,
      mbind, M_bind. cbn. rewrite Hm. discriminate. }
  rewrite (SolveThread_iteration_spec w Hm). cbn zeta.
  destruct (0 <? NumResiduals (build_problem (this w))) eqn:En.
  - apply Z.ltb_lt in En.
    destruct (ceres_Solve (m_solver_options (this w))
                (build_problem (this w)) (mem w))
      as [m' summary|m' [what|]] eqn:Es;
      cbn [final_world]; intros [= <-];
      rewrite <- app_assoc;
      replace m' with (Solve_memory
                         (ceres_Solve (m_solver_options (this w))
                            (build_problem (this w)) (mem w)))
        by (rewrite Es; reflexivity).
    + apply (effect_iteration_Solve ceres_Solve w
               [ev_cout_BriefReport (BriefReport summary);
                ev_cout_stats (length (m_T_kw (this w)))
                  (num_residuals summary)
                  (div_count (final_cost summary) (num_residuals summary))]);
        assumption.
    + apply (effect_iteration_Solve ceres_Solve w [ev_cerr sliced_what]);
        assumption.
    + apply (effect_iteration_Solve ceres_Solve w []); assumption.
  - apply Z.ltb_ge in En. cbn. intros [= <-].
    apply effect_iteration_skip; assumption.
Qed.

Lemma Clear_spec (w : World) :
  Clear w
  = Ok tt
      (mkWorld
         (mkMemory (destroy_all (m_T_kw (this w)) (frame_cells (mem w)))
                   (destroy_all (m_camera (this w)) (camera_cells (mem w))))
         (with_costs [] (with_camera [] (with_T_kw [] (this w))))
         (trace w)).
Proof. reflexivity. Qed.

Lemma do_step_effect (s : Step) (w w' : World) :
  final_world (do_step s w) = Some w' -> effect w s w'.
Proof.
  destruct s as [cam T|T|frame camera P p| | |i x|i x| |];
    cbn [fiducials.do_step].
  - unfold mbind, M_bind. rewrite AddCamera_spec. cbn.
    intros [= <-]. constructor.
  - unfold mbind, M_bind. rewrite AddFrame_spec. cbn.
    intros [= <-]. constructor.
  - apply AddObservation_effect.
  - cbn. intros [= <-]. rewrite ?World_eta. constructor.
  - cbn. intros [= <-]. rewrite ?World_eta. constructor.
  - apply GetFrame_assign_effect.
  - apply GetCamera_assign_effect.
  - apply SolveThread_iteration_effect.
  - rewrite Clear_spec. cbn. intros [= <-]. constructor.
Qed.

(** *** Sequences of steps *)

Lemma run_cons (s : Step) (ss : list Step) (w : World) :
  run (s :: ss) w
  = match do_step s w with
    | Ok _ w1 => run ss w1
    | Undefined => Undefined
    | Uncaught e w1 => Uncaught e w1
    end.
Proof. reflexivity. Qed.

Lemma run_app (ss1 ss2 : list Step) (w : World) :
  run (ss1 ++ ss2) w
  = match run ss1 w with
    | Ok _ w1 => run ss2 w1
    | Undefined => Undefined
    | Uncaught e w1 => Uncaught e w1
    end.
Proof.
  revert w. induction ss1 as [|s ss1 IH]; intros w; [reflexivity|].
  rewrite <- app_comm_cons, !run_cons.
  destruct (do_step s w) as [[] w1| |e w1]; [apply IH | reflexivity..].
Qed.

(** The same observation, made [n] times. *)
Lemma run_AddObservations (n : nat) (frame camera : Z) (P_c : Vec3t double)
    (p_c : Vec2t double) (lf lc : loc) (w : World) :
  m_update_mutex (this w) = false ->
  0 <= frame -> m_T_kw (this w) !! Z.to_nat frame = Some lf ->
  0 <= camera -> m_camera (this w) !! Z.to_nat camera = Some lc ->
  is_Some (mjoin (frame_cells (mem w) !! lf)) ->
  is_Some (mjoin (camera_cells (mem w) !! lc)) ->
  let cost := observation_cost lf lc P_c p_c in
  run (replicate n (step_AddObservation frame camera P_c p_c)) w
  = Ok tt
      (mkWorld (mem w)
         (with_costs (m_costs (this w) ++ replicate n cost) (this w))
         (trace w
          ++ mjoin (replicate n
                      (observation_events frame camera P_c p_c cost)))).
Proof.
  intros Hm Hf Hlf Hc Hlc Hx Hy cost. revert w Hm Hlf Hlc Hx Hy.
  induction n as [|n IH]; intros w Hm Hlf Hlc Hx Hy.
  - cbn. rewrite !app_nil_r. destruct w as [m c t]; destruct c; reflexivity.
  - cbn [replicate]. rewrite run_cons. cbn [fiducials.do_step].
    rewrite (AddObservation_spec P_c p_c w Hm Hf Hlf Hc Hlc Hx Hy).
    fold cost. rewrite IH by assumption.
    cbn. rewrite <- !app_assoc. reflexivity.
Qed.

(** A property every step of [ss] preserves holds where a run of [ss]
    ends. *)
Lemma run_invariant (P : World -> Prop) (ss : list Step) :
  (forall s w w', s ∈ ss -> P w -> effect w s w' -> P w') ->
  forall w w', P w -> final_world (run ss w) = Some w' -> P w'.
Proof.
  induction ss as [|s ss IH]; intros Hstep w w' HP.
  - cbn. intros [= <-]. exact HP.
  - rewrite run_cons.
    destruct (do_step s w) as [[] w1| |e w1] eqn:Es.
    + apply IH.
      * intros s' v v' Hs'. apply Hstep. right. exact Hs'.
      * apply (Hstep s w w1); [left | exact HP |].
        apply do_step_effect. rewrite Es. reflexivity.
    + discriminate.
    + cbn. intros [= <-].
      apply (Hstep s w w1); [left | exact HP |].
      apply do_step_effect. rewrite Es. reflexivity.
Qed.

(** *** Residuals stay *)

Lemma effect_costs (s : Step) (w w' : World) :
  s <> step_Clear -> effect w s w' ->
  m_costs (this w) `prefix_of` m_costs (this w').
Proof.
  intros Hs He. destruct He; cbn; try reflexivity.
  - apply prefix_app_r. reflexivity.
  - contradiction.
Qed.

Lemma run_costs (ss : list Step) (w w' : World) :
  step_Clear ∉ ss -> final_world (run ss w) = Some w' ->
  m_costs (this w) `prefix_of` m_costs (this w').
Proof.
  intros Hss.
  apply (run_invariant
           (fun w1 => m_costs (this w) `prefix_of` m_costs (this w1))).
  - intros s v v' Hs Hp He. etransitivity; [exact Hp|].
    apply (effect_costs (s:=s)); [|exact He].
    intros ->. contradiction.
  - reflexivity.
Qed.

(** *** Memory cells *)

Lemma live_lt {A : Type} (cells : list (option A)) (l : loc) :
  is_Some (mjoin (cells !! l)) -> (l < length cells)%nat.
Proof.
  intros [x Hx]. destruct (cells !! l) as [y|] eqn:E; [|discriminate].
  apply lookup_lt_Some in E. exact E.
Qed.

Lemma live_snoc {A : Type} (cells : list (option A)) (a : option A) (l : loc) :
  is_Some (mjoin (cells !! l)) ->
  mjoin ((cells ++ [a]) !! l) = mjoin (cells !! l).
Proof. intros Hl. rewrite lookup_app_l by (apply live_lt, Hl). reflexivity. Qed.

Lemma same_cells_live {A : Type} (a b : list (option A)) (l : loc) :
  same_cells a b ->
  is_Some (mjoin (a !! l)) -> is_Some (mjoin (b !! l)).
Proof.
  intros Hab [x Hx].
  destruct (a !! l) as [[y|]|] eqn:Ea; try discriminate.
  destruct (Forall2_lookup_l _ _ _ _ _ Hab Ea) as (z & Eb & Hz).
  rewrite Eb. destruct z as [z|]; [cbn; eauto|].
  destruct (proj1 Hz (ex_intro _ y eq_refl)) as [? [=]].
Qed.

Lemma read_T_ck (m : Memory) (l : loc) (t : SE3d) :
  read_block m (T_ckData l) = Some (value_pose t)
  <-> T_ck <$> mjoin (camera_cells m !! l) = Some t.
Proof.
  cbn. destruct (mjoin (camera_cells m !! l)) as [x|]; cbn;
    split; intros [= E]; rewrite ?E; reflexivity.
Qed.

(** *** The first camera's extrinsic pose is fixed *)

Lemma build_problem_first_camera_constant (c : Calibrator) (l0 : loc) :
  m_camera c !! 0%nat = Some l0 ->
  T_ckData l0 ∉ free_blocks (build_problem c).
Proof.
  intros H0. rewrite free_blocks_elem. intros [_ Hn]. apply Hn.
  destruct (build_problem_spec c) as (HC & _). cbn zeta in HC. rewrite HC.
  destruct (m_camera c) as [|l v]; [discriminate|].
  injection H0 as ->. cbn. left.
Qed.

Lemma effect_gauge (s : Step) (w w' : World) (l0 : loc) (t0 : SE3d) :
  Solve_contract ceres_Solve ->
  s <> step_Clear -> effect w s w' ->
  m_camera (this w) !! 0%nat = Some l0 /\
  T_ck <$> mjoin (camera_cells (mem w) !! l0) = Some t0 ->
  m_camera (this w') !! 0%nat = Some l0 /\
  T_ck <$> mjoin (camera_cells (mem w') !! l0) = Some t0.
Proof.
  intros Hsolve Hs He [H0 Ht].
  assert (Hlive : is_Some (mjoin (camera_cells (mem w) !! l0))).
  { destruct (mjoin (camera_cells (mem w) !! l0)); [eauto | discriminate]. }
  destruct He; cbn; try (split; assumption).
  - split.
    + rewrite lookup_app_l; [exact H0|]. apply lookup_lt_Some in H0. exact H0.
    + rewrite live_snoc by exact Hlive. exact Ht.
  - split; [exact H0|]. rewrite live_snoc by exact Hlive. exact Ht.
  - split; [exact H0|]. apply read_T_ck.
    destruct (Hsolve (m_solver_options (this w)) (build_problem (this w))
                (mem w)) as (_ & _ & Hread).
    cbn zeta in Hread. rewrite Hread.
    + apply read_T_ck. exact Ht.
    + apply build_problem_first_camera_constant. exact H0.
  - contradiction.
Qed.

Lemma run_gauge (ss : list Step) (w w' : World) (cp0 : CameraAndPose) :
  Solve_contract ceres_Solve ->
  step_Clear ∉ ss ->
  camera_value w 0 = Some cp0 ->
  final_world (run ss w) = Some w' ->
  T_ck <$> camera_value w' 0 = Some (T_ck cp0).
Proof.
  intros Hsolve Hss H0 Hrun. unfold camera_value in *.
  destruct (m_camera (this w) !! 0%nat) as [l0|] eqn:El0; [|discriminate].
  cbn in H0.
  assert (HP : m_camera (this w') !! 0%nat = Some l0 /\
               T_ck <$> mjoin (camera_cells (mem w') !! l0) = Some (T_ck cp0)).
  { revert Hrun.
    apply (run_invariant
             (fun w1 => m_camera (this w1) !! 0%nat = Some l0 /\
                        T_ck <$> mjoin (camera_cells (mem w1) !! l0)
                        = Some (T_ck cp0))).
    - intros s v v' Hs HP He.
      apply (effect_gauge (s:=s) (w:=v)); try assumption.
      intros ->. contradiction.
    - split; [exact El0|]. rewrite H0. reflexivity. }
  destruct HP as [E1 E2]. rewrite E1. cbn. exact E2.
Qed.

(** *** Well-formedness is kept *)

Lemma live_insert {A : Type} (cells : list (option A)) (l l' : loc) (x : A) :
  is_Some (mjoin (cells !! l')) ->
  is_Some (mjoin (<[l := Some x]> cells !! l')).
Proof.
  intros Hl'. destruct (decide (l = l')) as [->|Hne].
  - rewrite list_lookup_insert_eq by (apply live_lt, Hl'). cbn. eauto.
  - rewrite list_lookup_insert_ne by exact Hne. exact Hl'.
Qed.

Lemma Forall_live_snoc {A : Type} (cells : list (option A)) (a : option A)
    (v : list loc) :
  Forall (fun l => is_Some (mjoin (cells !! l))) v ->
  Forall (fun l => is_Some (mjoin ((cells ++ [a]) !! l))) v.
Proof.
  intros H. eapply Forall_impl; [exact H|].
  intros l Hl. cbn beta. rewrite live_snoc by exact Hl. exact Hl.
Qed.

Lemma NoDup_push_fresh {A : Type} (cells : list (option A)) (v : list loc) :
  Forall (fun l => is_Some (mjoin (cells !! l))) v ->
  NoDup v -> NoDup (v ++ [length cells]).
Proof.
  intros Hlive Hnd. apply NoDup_app. split_and!.
  - exact Hnd.
  - intros l Hl Hin. apply list_elem_of_singleton in Hin. subst l.
    rewrite Forall_forall in Hlive. apply Hlive, live_lt in Hl. lia.
  - apply NoDup_singleton.
Qed.

Lemma wf_World_new (should_run running : bool) :
  wf (World_new (double:=double) should_run running).
Proof.
  unfold wf. cbn. split_and!; constructor.
Qed.

Lemma effect_wf (s : Step) (w w' : World) :
  Solve_contract ceres_Solve -> wf w -> effect w s w' -> wf w'.
Proof.
  intros Hsolve (Hm & Hnf & Hnc & Hlf & Hlc) He.
  destruct He; unfold wf; cbn; split_and!; try assumption.
  - apply (NoDup_push_fresh (camera_cells (mem w))); assumption.
  - apply Forall_app. split; [apply Forall_live_snoc, Hlc|].
    apply Forall_singleton. rewrite snoc_lookup. cbn. eauto.
  - apply (NoDup_push_fresh (frame_cells (mem w))); assumption.
  - apply Forall_app. split; [apply Forall_live_snoc, Hlf|].
    apply Forall_singleton. rewrite snoc_lookup. cbn. eauto.
  - eapply Forall_impl; [exact Hlf|]. intros l'. apply live_insert.
  - apply Forall_live_snoc, Hlc.
  - eapply Forall_impl; [exact Hlf|]. intros l.
    apply same_cells_live, Hsolve.
  - eapply Forall_impl; [exact Hlc|]. intros l.
    apply same_cells_live, Hsolve.
  - constructor.
  - constructor.
  - constructor.
  - constructor.
Qed.

Lemma run_wf (ss : list Step) (w w' : World) :
  Solve_contract ceres_Solve -> wf w ->
  final_world (run ss w) = Some w' -> wf w'.
Proof.
  intros Hsolve. apply (run_invariant wf).
  intros s v v' _ Hv He. apply (effect_wf (s:=s) Hsolve Hv He).
Qed.

(** *** Gauge *)

(** C2. In a well-formed state, the problem a pass of the background loop
    builds marks constant the [T_ck] block of the camera with index 0 and
    nothing else; every camera's [T_ck] block and every frame's pose block
    is registered with seven scalars and the pose parameterization; the
    blocks of the other cameras and of all frames are free.  With a solver
    that writes only to free blocks of the problem it is given, whatever the
    clients and the loop do short of [Clear], the [T_ck] of camera 0 stays
    what it is, and so what [AddCamera] stored when it created camera 0.
    Every state reached is well-formed again, so all this holds at every
    pass of the loop. *)
Theorem first_camera_extrinsic_stays_constant (w : World) :
  Solve_contract ceres_Solve ->
  wf w ->
  let p := build_problem (this w) in
  constant_blocks p = T_ckData <$> take 1 (m_camera (this w)) /\
  (forall c l, m_camera (this w) !! c = Some l ->
     mkParameterBlock (T_ckData l) 7 (Some m_LocalParamSe3)
       ∈ parameter_blocks p /\
     (T_ckData l ∈ constant_blocks p <-> c = 0%nat) /\
     (T_ckData l ∈ free_blocks p <-> c <> 0%nat)) /\
  (forall i l, m_T_kw (this w) !! i = Some l ->
     mkParameterBlock (PoseData l) 7 (Some m_LocalParamSe3)
       ∈ parameter_blocks p /\
     PoseData l ∈ free_blocks p) /\
  (forall ss w' cp0,
     step_Clear ∉ ss ->
     camera_value w 0 = Some cp0 ->
     final_world (run ss w) = Some w' ->
     T_ck <$> camera_value w' 0 = Some (T_ck cp0)) /\
  (forall cam T ss w',
     m_camera (this w) = [] ->
     step_Clear ∉ ss ->
     final_world (run (step_AddCamera cam T :: ss) w) = Some w' ->
     T_ck <$> camera_value w' 0 = Some T) /\
  (forall ss w', final_world (run ss w) = Some w' -> wf w').
Proof.
  intros Hsolve (Hm & Hnf & Hnc & Hlf & Hlc) p.
  destruct (build_problem_spec (this w)) as (HC & HIc & HIf & HR).
  fold p in HC, HIc, HIf, HR. cbn zeta in HC, HIc, HIf, HR.
  assert (Hconst : forall c l, m_camera (this w) !! c = Some l ->
            (T_ckData l ∈ constant_blocks p <-> c = 0%nat)).
  { intros c l Hl. rewrite HC. split.
    - intros Hin. apply list_elem_of_fmap in Hin as (l0 & [= ->] & Hin).
      apply list_elem_of_lookup in Hin as (j & Hj).
      apply lookup_take_Some in Hj as [Hj Hlt].
      assert (j = 0%nat) as -> by lia.
      apply (NoDup_lookup _ _ _ _ Hnc Hl Hj).
    - intros ->. destruct (m_camera (this w)) as [|l0 v]; [discriminate|].
      injection Hl as ->. cbn. left. }
  split_and!.
  - exact HC.
  - intros c l Hl.
    assert (Hin : l ∈ m_camera (this w)).
    { apply list_elem_of_lookup. exists c. exact Hl. }
    split_and!.
    + apply HIc, Hin.
    + apply Hconst, Hl.
    + rewrite free_blocks_elem, (Hconst c l Hl). split; [tauto|].
      intros Hc. split; [|exact Hc].
      apply list_elem_of_fmap. eexists. split; [|apply HIc, Hin]. reflexivity.
  - intros i l Hl.
    assert (Hin : l ∈ m_T_kw (this w)).
    { apply list_elem_of_lookup. exists i. exact Hl. }
    split; [apply HIf, Hin|].
    rewrite free_blocks_elem. split.
    + apply list_elem_of_fmap. eexists. split; [|apply HIf, Hin]. reflexivity.
    + rewrite HC. intros Hc.
      apply list_elem_of_fmap in Hc as (l0 & [=] & _).
  - intros ss w' cp0 Hss H0 Hrun. eapply run_gauge; eassumption.
  - intros cam T ss w' Hnil Hss. rewrite run_cons.
    cbn [fiducials.do_step]. unfold mbind at 1, M_bind at 1.
    rewrite AddCamera_spec. cbn [mret M_ret].
    intros Hrun.
    eapply run_gauge with (cp0 := mkCameraAndPose cam T);
      [exact Hsolve | exact Hss | | exact Hrun].
    unfold camera_value. cbn. rewrite Hnil. cbn.
    rewrite snoc_lookup. reflexivity.
  - intros ss w' Hrun. eapply run_wf; [exact Hsolve| |exact Hrun].
    unfold wf. split_and!; assumption.
Qed.

(** *** Observations *)

(** C3. A call [AddObservation(frame, camera, P_c, p_c)] whose indices
    refer to existing entries ends normally; it appends exactly one residual
    to [m_costs], whose parameter blocks are, in this order, the pose data
    of the frame object, the [T_ck] data of the camera object and the
    intrinsics data of the same camera object.  The call acquires the
    mutex first and releases it last; in between, in this order, it takes
    the camera from [m_camera] and the frame from [m_T_kw], constructs the
    cost function and appends the residual; nothing of this happens before
    the acquire or after the release, and the mutex is free again at the
    end.  Memory is untouched.  Whatever follows short of [Clear], the
    residual stays, unchanged, where it was put. *)
Theorem AddObservation_appends_one_residual (w : World) (frame camera : Z)
    (P_c : Vec3t double) (p_c : Vec2t double) (lf lc : loc) :
  wf w ->
  0 <= frame -> m_T_kw (this w) !! Z.to_nat frame = Some lf ->
  0 <= camera -> m_camera (this w) !! Z.to_nat camera = Some lc ->
  let cost := observation_cost lf lc P_c p_c in
  exists w1,
    AddObservation frame camera P_c p_c w = Ok tt w1 /\
    m_costs (this w1) = m_costs (this w) ++ [cost] /\
    cost_Params cost = [PoseData lf; T_ckData lc; CameraData lc] /\
    trace w1
    = trace w ++ [ev_lock; ev_camera_at camera; ev_T_kw_at frame;
                  ev_new_ReprojectionCost P_c p_c; ev_costs_push_back cost;
                  ev_unlock] /\
    m_update_mutex (this w1) = false /\
    mem w1 = mem w /\
    m_T_kw (this w1) = m_T_kw (this w) /\
    m_camera (this w1) = m_camera (this w) /\
    (forall ss w',
       step_Clear ∉ ss ->
       final_world (run ss w1) = Some w' ->
       (m_costs (this w) ++ [cost]) `prefix_of` m_costs (this w') /\
       m_costs (this w') !! length (m_costs (this w)) = Some cost).
Proof.
  intros (Hm & Hnf & Hnc & Hlf & Hlc) Hf Hflf Hc Hclc cost.
  assert (Hlivef : is_Some (mjoin (frame_cells (mem w) !! lf))).
  { rewrite Forall_forall in Hlf. apply Hlf.
    apply list_elem_of_lookup. eexists. exact Hflf. }
  assert (Hlivec : is_Some (mjoin (camera_cells (mem w) !! lc))).
  { rewrite Forall_forall in Hlc. apply Hlc.
    apply list_elem_of_lookup. eexists. exact Hclc. }
  eexists. split.
  { apply (AddObservation_spec P_c p_c w Hm Hf Hflf Hc Hclc Hlivef Hlivec). }
  cbn. split_and!; try reflexivity; [exact Hm|].
  intros ss w' Hss Hrun.
  assert (Hpre : (m_costs (this w) ++ [cost]) `prefix_of` m_costs (this w'))
    by (eapply run_costs in Hrun; [exact Hrun | exact Hss]).
  split; [exact Hpre|].
  destruct Hpre as [k ->]. rewrite <- app_assoc.
  apply list_lookup_middle. reflexivity.
Qed.

(** *** When the solver is called *)

(** C5, with the residual count as the [int] that [NumResiduals()]
    returns.  With the mutex free, a pass of the background loop builds its
    problem between [lock] and [unlock]; the problem has one residual block
    for each observation, and its residual count is twice their number,
    converted to [int].  The solver is called exactly when that count is
    positive: if it is not, the pass ends there, the solver is not called,
    nothing is reported, and memory and engine are as before; if it is, the
    solver is called, once, on that problem, and memory is what the call
    leaves.  With fewer than 2^30 observations the count is positive exactly
    when the problem has a residual. *)
Theorem solver_called_iff_residuals (w : World) :
  m_update_mutex (this w) = false ->
  let p := build_problem (this w) in
  let o := m_solver_options (this w) in
  length (residual_blocks p) = length (m_costs (this w)) /\
  NumResiduals p = wrap_int (2 * Z.of_nat (length (residual_blocks p))) /\
  (NumResiduals p <= 0 ->
   SolveThread_iteration w
   = Ok tt (mkWorld (mem w) (this w) (trace w ++ [ev_lock; ev_unlock]))) /\
  (0 < NumResiduals p ->
   exists w' reported,
     final_world (SolveThread_iteration w) = Some w' /\
     trace w' = trace w ++ [ev_lock; ev_unlock; ev_Solve o p] ++ reported /\
     (forall o' p', ev_Solve o' p' ∉ reported) /\
     mem w' = Solve_memory (ceres_Solve o p (mem w)) /\
     this w' = this w) /\
  (Z.of_nat (length (residual_blocks p)) < 2 ^ 30 ->
   (residual_blocks p <> [] <-> 0 < NumResiduals p)).
Proof.
  intros Hm p o.
  split_and!.
  - destruct (build_problem_spec (this w)) as (_ & _ & _ & HR).
    cbn zeta in HR. fold p in HR. rewrite HR, length_fmap. reflexivity.
  - apply NumResiduals_length.
  - intros Hle. rewrite (SolveThread_iteration_spec w Hm). cbn zeta.
    fold p. destruct (Z.ltb_spec 0 (NumResiduals p)) as [Hpos|_];
      [lia | reflexivity].
  - intros Hpos. rewrite (SolveThread_iteration_spec w Hm). cbn zeta.
    fold p o. destruct (Z.ltb_spec 0 (NumResiduals p)) as [_|Hle]; [|lia].
    destruct (ceres_Solve o p (mem w)) as [m' summary|m' [what|]];
      cbn [final_world Solve_memory]; eexists; eexists;
      (split; [reflexivity|]); cbn [trace mem this];
      rewrite <- ?app_assoc.
    + split_and!; [reflexivity| |reflexivity|reflexivity].
      intros o' p' Hin. repeat (apply elem_of_cons in Hin as [[=]|Hin]).
      inversion Hin.
    + split_and!; [reflexivity| |reflexivity|reflexivity].
      intros o' p' Hin. repeat (apply elem_of_cons in Hin as [[=]|Hin]).
      inversion Hin.
    + split_and!; [reflexivity| |reflexivity|reflexivity].
      intros o' p' Hin. inversion Hin.
  - intros Hlt. rewrite (NumResiduals_small p Hlt).
    destruct (residual_blocks p); cbn [length]; split; intros; try lia;
      congruence.
Qed.

(** *** Exceptions *)

Lemma iterate_S (n : nat) (body : M unit) (w : World) :
  iterate (S n) body w
  = match body w with
    | Ok _ w1 => iterate n body w1
    | Undefined => Undefined
    | Uncaught e w1 => Uncaught e w1
    end.
Proof. reflexivity. Qed.

(** A pass of the loop ends normally, leaving the engine object as it
    was, or is left by an exception that is not a [std::exception]. *)
Lemma SolveThread_iteration_cases (w : World) :
  m_update_mutex (this w) = false ->
  (exists w', SolveThread_iteration w = Ok tt w' /\ this w' = this w) \/
  (exists w', SolveThread_iteration w = Uncaught thrown_other w' /\
              exists m', ceres_Solve (m_solver_options (this w))
                           (build_problem (this w)) (mem w)
                         = Solve_throws m' thrown_other).
Proof.
  intros Hm. rewrite (SolveThread_iteration_spec w Hm). cbn zeta.
  destruct (0 <? NumResiduals (build_problem (this w))); [|eauto].
  destruct (ceres_Solve (m_solver_options (this w)) (build_problem (this w))
              (mem w)) as [m' summary|m' [what|]] eqn:Es; eauto.
Qed.

Lemma iterate_SolveThread_iteration_cases (n : nat) (w : World) :
  m_update_mutex (this w) = false ->
  (exists w', iterate n SolveThread_iteration w = Ok tt w' /\
              this w' = this w) \/
  (exists w', iterate n SolveThread_iteration w = Uncaught thrown_other w').
Proof.
  revert w. induction n as [|n IH]; intros w Hm.
  - left. exists w. split; reflexivity.
  - rewrite iterate_S.
    destruct (SolveThread_iteration_cases w Hm)
      as [(w1 & -> & E1)|(w1 & -> & _)]; [|right; eauto].
    destruct (IH w1) as [(w' & -> & E')|(w' & ->)];
      [rewrite E1; exact Hm | | right; eauto].
    left. exists w'. split; [reflexivity|]. rewrite E'. exact E1.
Qed.

(** With a solver whose exceptions are [std::exception]s, the passes of the
    loop end normally. *)
Lemma iterate_SolveThread_iteration_Ok (n : nat) (w : World) :
  Solve_throws_std_exception ceres_Solve ->
  m_update_mutex (this w) = false ->
  exists w', iterate n SolveThread_iteration w = Ok tt w' /\ this w' = this w.
Proof.
  intros Hstd. revert w. induction n as [|n IH]; intros w Hm.
  - exists w. split; reflexivity.
  - rewrite iterate_S.
    destruct (SolveThread_iteration_cases w Hm)
      as [(w1 & -> & E1)|(w1 & _ & m' & Es)].
    + destruct (IH w1) as (w' & -> & E'); [rewrite E1; exact Hm|].
      exists w'. split; [reflexivity|]. rewrite E'. exact E1.
    + destruct (Hstd _ _ _ _ _ Es) as [what [=]].
Qed.

Lemma SolveThread_unfold (n : nat) (w : World) :
  SolveThread n w
  = match iterate n SolveThread_iteration
            (mkWorld (mem w) (with_running true (this w)) (trace w)) with
    | Ok _ w1 =>
        Ok tt (mkWorld (mem w1) (with_running false (this w1)) (trace w1))
    | Undefined => Undefined
    | Uncaught e w1 => Uncaught e w1
    end.
Proof. reflexivity. Qed.

(** C6, for failures raised as [std::exception]s.  Whatever the solver is,
    a pass in which it throws an exception of class [std::exception], or of
    a class derived from it, ends normally, having reported the handler's
    text to [cerr] after the call; the loop goes on from the state that pass
    left, where the next pass builds its problem anew and calls the solver
    on it.  [SolveThread] has defined behaviour however many passes it
    makes, and an exception that leaves it is not a [std::exception]; if
    the solver throws nothing else, [SolveThread] ends normally. *)
Theorem std_exceptions_do_not_leave_the_loop (w : World) :
  m_update_mutex (this w) = false ->
  (forall m' what,
     let p := build_problem (this w) in
     let o := m_solver_options (this w) in
     0 < NumResiduals p ->
     ceres_Solve o p (mem w) = Solve_throws m' (thrown_std_exception what) ->
     let w1 := mkWorld m' (this w)
                 (trace w ++ [ev_lock; ev_unlock; ev_Solve o p;
                              ev_cerr sliced_what]) in
     SolveThread_iteration w = Ok tt w1 /\
     (forall n, iterate (S n) SolveThread_iteration w
                = iterate n SolveThread_iteration w1) /\
     exists w2 reported,
       final_world (SolveThread_iteration w1) = Some w2 /\
       trace w2 = trace w1
                  ++ [ev_lock; ev_unlock; ev_Solve o (build_problem (this w1))]
                  ++ reported) /\
  (forall n,
     (exists w', SolveThread n w = Ok tt w') \/
     (exists w', SolveThread n w = Uncaught thrown_other w')) /\
  (forall n e w',
     SolveThread n w = Uncaught e w' ->
     forall what, e <> thrown_std_exception what) /\
  (Solve_throws_std_exception ceres_Solve ->
   forall n, exists w', SolveThread n w = Ok tt w').
Proof.
  intros Hm.
  assert (Hcases : forall n,
            (exists w', SolveThread n w = Ok tt w') \/
            (exists w', SolveThread n w = Uncaught thrown_other w')).
  { intros n. rewrite SolveThread_unfold.
    destruct (iterate_SolveThread_iteration_cases n
                (mkWorld (mem w) (with_running true (this w)) (trace w)))
      as [(w' & E & _)|(w' & E)]; [exact Hm| |]; rewrite E; eauto. }
  split_and!.
  - intros m' what p o Hpos Es w1.
    assert (E1 : SolveThread_iteration w = Ok tt w1).
    { rewrite (SolveThread_iteration_spec w Hm). cbn zeta. fold p o.
      destruct (Z.ltb_spec 0 (NumResiduals p)); [|lia]. rewrite Es.
      subst w1. rewrite <- app_assoc. reflexivity. }
    split_and!.
    + exact E1.
    + intros n. rewrite iterate_S, E1. reflexivity.
    + assert (Hm1 : m_update_mutex (this w1) = false) by exact Hm.
      rewrite (SolveThread_iteration_spec w1 Hm1). cbn zeta.
      change (build_problem (this w1)) with p.
      change (m_solver_options (this w1)) with o.
      destruct (Z.ltb_spec 0 (NumResiduals p)); [|lia].
      destruct (ceres_Solve o p (mem w1)) as [m2 summary|m2 [what'|]];
        cbn [final_world]; eexists; eexists; (split; [reflexivity|]);
        cbn [trace]; rewrite <- (app_assoc (trace w1)); reflexivity.
  - exact Hcases.
  - intros n e w' E what ->.
    destruct (Hcases n) as [(w1 & E1)|(w1 & E1)]; rewrite E1 in E;
      discriminate E.
  - intros Hstd n. rewrite SolveThread_unfold.
    destruct (iterate_SolveThread_iteration_Ok n
                (mkWorld (mem w) (with_running true (this w)) (trace w)) Hstd)
      as (w' & E & _); [exact Hm|].
    rewrite E. eauto.
Qed.

(** *** Accessors *)

Lemma camera_value_Some (w : World) (i : nat) (cp : CameraAndPose) :
  camera_value w i = Some cp <->
  exists l, m_camera (this w) !! i = Some l /\
            camera_cells (mem w) !! l = Some (Some cp).
Proof.
  unfold camera_value. destruct (m_camera (this w) !! i) as [l|]; cbn.
  - split.
    + intros E. exists l. split; [reflexivity|].
      destruct (camera_cells (mem w) !! l) as [[y|]|]; cbn in E;
        congruence.
    + intros (l' & [= <-] & ->). reflexivity.
  - split; [discriminate|]. intros (l & [=] & _).
Qed.

Lemma frame_value_Some (w : World) (i : nat) (x : SE3d) :
  frame_value w i = Some x <->
  exists l, m_T_kw (this w) !! i = Some l /\
            frame_cells (mem w) !! l = Some (Some x).
Proof.
  unfold frame_value. destruct (m_T_kw (this w) !! i) as [l|]; cbn.
  - split.
    + intros E. exists l. split; [reflexivity|].
      destruct (frame_cells (mem w) !! l) as [[y|]|]; cbn in E;
        congruence.
    + intros (l' & [= <-] & ->). reflexivity.
  - split; [discriminate|]. intros (l & [=] & _).
Qed.

(** C9. In a well-formed state and for an index [i] of an existing camera,
    [GetCamera(i)] returns a new object equal to the stored entry: it is
    none of the objects the engine holds, and assigning any value to it
    leaves every stored camera, every stored frame and the engine object as
    they were.  For an index [i] of an existing frame, [GetFrame(i)]
    returns the stored object itself: the call changes nothing, and an
    assignment through the result is an assignment to the engine's frame
    [i] (and to no other frame, and to no camera). *)
Theorem GetCamera_copies_GetFrame_aliases (w : World) (i : nat) :
  wf w ->
  (forall cp, camera_value w i = Some cp ->
     exists l' w1,
       GetCamera i w = Ok l' w1 /\
       mjoin (camera_cells (mem w1) !! l') = Some cp /\
       (l' ∉ m_camera (this w1)) /\
       this w1 = this w /\
       (forall j, camera_value w1 j = camera_value w j) /\
       forall x, exists w2,
         assign_camera l' x w1 = Ok tt w2 /\
         mjoin (camera_cells (mem w2) !! l') = Some x /\
         this w2 = this w /\
         (forall j, camera_value w2 j = camera_value w j) /\
         (forall j, frame_value w2 j = frame_value w j)) /\
  (forall v, frame_value w i = Some v ->
     exists l,
       GetFrame i w = Ok l w /\
       m_T_kw (this w) !! i = Some l /\
       forall x, exists w2,
         assign_frame l x w = Ok tt w2 /\
         frame_value w2 i = Some x /\
         this w2 = this w /\
         (forall j, j <> i -> frame_value w2 j = frame_value w j) /\
         (forall j, camera_value w2 j = camera_value w j)).
Proof.
  intros (Hm & Hnf & Hnc & Hlf & Hlc). split.
  - intros cp Hcp. apply camera_value_Some in Hcp as (l & Hl & Hcell).
    assert (Hfresh : forall j lj, m_camera (this w) !! j = Some lj ->
                       (lj < length (camera_cells (mem w)))%nat).
    { intros j lj Hj. apply live_lt. rewrite Forall_forall in Hlc.
      apply Hlc. apply list_elem_of_lookup. eexists. exact Hj. }
    assert (Hsame : forall (y : CameraAndPose) j,
              (lj ← (m_camera (this w) !! j);
               mjoin ((camera_cells (mem w) ++ [Some y]) !! lj))
              = camera_value w j).
    { intros y j. unfold camera_value.
      destruct (m_camera (this w) !! j) as [lj|] eqn:Ej; [|reflexivity].
      cbn. rewrite lookup_app_l by (apply (Hfresh j), Ej). reflexivity. }
    exists (length (camera_cells (mem w))).
    exists (mkWorld (mkMemory (frame_cells (mem w))
                       (camera_cells (mem w) ++ [Some cp]))
              (this w) (trace w)).
    split_and!.
    + unfold GetCamera, new_camera, get_this, at_index, deref_camera,
        get_mem, set_mem, mbind, M_bind, mret, M_ret. cbn.
      rewrite Hl. cbn. rewrite Hcell. reflexivity.
    + cbn. rewrite snoc_lookup. reflexivity.
    + cbn. intros Hin. apply list_elem_of_lookup in Hin as (j & Hj).
      apply Hfresh in Hj. lia.
    + reflexivity.
    + intros j. apply Hsame.
    + intros x.
      exists (mkWorld (mkMemory (frame_cells (mem w))
                         (camera_cells (mem w) ++ [Some x]))
                (this w) (trace w)).
      split_and!.
      * unfold assign_camera, deref_camera, get_mem, set_mem,
          mbind, M_bind, mret, M_ret. cbn.
        rewrite snoc_lookup. cbn. rewrite snoc_insert. reflexivity.
      * cbn. rewrite snoc_lookup. reflexivity.
      * reflexivity.
      * intros j. apply Hsame.
      * intros j. reflexivity.
  - intros v Hv. apply frame_value_Some in Hv as (l & Hl & Hcell).
    exists l. split_and!.
    + unfold GetFrame, get_this, at_index, deref_frame, get_mem,
        mbind, M_bind, mret, M_ret. cbn.
      rewrite Hl. cbn. rewrite Hcell. reflexivity.
    + exact Hl.
    + intros x.
      exists (mkWorld (mkMemory (<[l := Some x]> (frame_cells (mem w)))
                         (camera_cells (mem w)))
                (this w) (trace w)).
      assert (Hlt : (l < length (frame_cells (mem w)))%nat).
      { apply lookup_lt_Some in Hcell. exact Hcell. }
      split_and!.
      * unfold assign_frame, deref_frame, get_mem, set_mem,
          mbind, M_bind, mret, M_ret. cbn.
        rewrite Hcell. reflexivity.
      * unfold frame_value. cbn. rewrite Hl. cbn.
        rewrite list_lookup_insert_eq by exact Hlt. reflexivity.
      * reflexivity.
      * intros j Hj. unfold frame_value. cbn.
        destruct (m_T_kw (this w) !! j) as [lj|] eqn:Ej; [|reflexivity].
        cbn. rewrite list_lookup_insert_ne; [reflexivity|].
        intros ->. apply Hj. apply (NoDup_lookup _ _ _ _ Hnf Ej Hl).
      * intros j. reflexivity.
Qed.

(** *** Identifiers *)

Lemma count_Frames_cons (c : Add_call) (cs : list Add_call) :
  count_Frames (c :: cs)
  = ((if is_add_Frame c then 1 else 0) + count_Frames cs)%nat.
Proof.
  unfold count_Frames. rewrite filter_cons.
  destruct c; cbn; destruct (decide _); cbn; congruence.
Qed.

Lemma count_Cameras_cons (c : Add_call) (cs : list Add_call) :
  count_Cameras (c :: cs)
  = ((if is_add_Frame c then 0 else 1) + count_Cameras cs)%nat.
Proof.
  unfold count_Cameras. rewrite filter_cons.
  destruct c; cbn; destruct (decide _); cbn; congruence.
Qed.

(** [ordinals] counts the earlier calls of the same kind. *)
Lemma ordinals_lookup (cs : list Add_call) (nf nc i : nat) (c : Add_call) :
  cs !! i = Some c ->
  ordinals nf nc cs !! i
  = Some (if is_add_Frame c then (nf + count_Frames (take i cs))%nat
          else (nc + count_Cameras (take i cs))%nat).
Proof.
  revert nf nc i c. induction cs as [|c0 cs IH]; intros nf nc i c Hi.
  - discriminate.
  - destruct i as [|i].
    + injection Hi as ->. destruct c; cbn; f_equal; lia.
    + cbn in Hi. cbn [take]. rewrite count_Frames_cons, count_Cameras_cons.
      destruct c0; cbn [ordinals is_add_Frame]; rewrite lookup_cons_ne_0 by lia;
        cbn [Nat.pred]; rewrite (IH _ _ _ _ Hi); destruct c; cbn; f_equal; lia.
Qed.

Lemma ordinals_length (cs : list Add_call) (nf nc : nat) :
  length (ordinals nf nc cs) = length cs.
Proof.
  revert nf nc. induction cs as [|[T|cam T] cs IH]; intros nf nc; cbn;
    rewrite ?IH; reflexivity.
Qed.

(** What a sequence of [AddFrame] and [AddCamera] calls returns and
    leaves, from any state. *)
Lemma run_adds_spec (cs : list Add_call) (w : World) :
  exists w',
    run_adds cs w
    = Ok (int_of_size_t
            <$> ordinals (length (m_T_kw (this w)))
                         (length (m_camera (this w))) cs) w' /\
    length (m_T_kw (this w'))
    = (length (m_T_kw (this w)) + count_Frames cs)%nat /\
    length (m_camera (this w'))
    = (length (m_camera (this w)) + count_Cameras cs)%nat.
Proof.
  revert w. induction cs as [|c cs IH]; intros w.
  - exists w. cbn. split_and!; [reflexivity|lia|lia].
  - rewrite count_Frames_cons, count_Cameras_cons.
    cbn [run_adds]. unfold mbind at 1, M_bind at 1.
    destruct c as [T|cam T]; cbn [do_add].
    + rewrite AddFrame_spec.
      match goal with |- context [mkWorld ?m ?c (trace w)] =>
        destruct (IH (mkWorld m c (trace w))) as (w' & E & Hf & Hc) end.
      cbn in E, Hf, Hc. rewrite length_app in E, Hf. cbn in E, Hf.
      exists w'. unfold mbind, M_bind. rewrite E. cbn.
      rewrite Nat.add_1_r. split_and!; [reflexivity|lia|lia].
    + rewrite AddCamera_spec.
      match goal with |- context [mkWorld ?m ?c (trace w)] =>
        destruct (IH (mkWorld m c (trace w))) as (w' & E & Hf & Hc) end.
      cbn in E, Hf, Hc. rewrite length_app in E, Hc. cbn in E, Hc.
      exists w'. unfold mbind, M_bind. rewrite E. cbn.
      rewrite Nat.add_1_r. split_and!; [reflexivity|lia|lia].
Qed.

(** C4, within the range of [int].  For every sequence of [AddFrame] and
    [AddCamera] calls on a new engine: every call returns; the id a call
    returns is the number of earlier calls of the same kind, converted to
    [int], so it is that number itself, 0, 1, 2, ... for each kind
    independently, as long as the number is below 2^31; and afterwards
    [NumFrames] and [NumCameras] are the numbers of [AddFrame] and of
    [AddCamera] calls made. *)
Theorem Add_ids_count_calls (cs : list Add_call) (should_run running : bool) :
  exists ids w',
    run_adds cs (World_new (double:=double) should_run running) = Ok ids w' /\
    length ids = length cs /\
    (forall i c, cs !! i = Some c ->
       let k := if is_add_Frame c then count_Frames (take i cs)
                else count_Cameras (take i cs) in
       ids !! i = Some (int_of_size_t k) /\
       (Z.of_nat k < 2 ^ 31 -> ids !! i = Some (Z.of_nat k))) /\
    NumFrames w' = Ok (count_Frames cs) w' /\
    NumCameras w' = Ok (count_Cameras cs) w'.
Proof.
  destruct (run_adds_spec cs (World_new should_run running))
    as (w' & E & Hf & Hc).
  cbn in E, Hf, Hc. eexists. exists w'. split; [exact E|]. split_and!.
  - rewrite length_fmap. apply ordinals_length.
  - intros i c Hi k.
    assert (Ei : (int_of_size_t <$> ordinals 0 0 cs) !! i
                 = Some (int_of_size_t k)).
    { rewrite list_lookup_fmap, (@ordinals_lookup cs 0%nat 0%nat i c Hi). subst k.
      destruct (is_add_Frame c); reflexivity. }
    split; [exact Ei|]. intros Hk. rewrite Ei.
    unfold int_of_size_t. rewrite wrap_int_small by lia. reflexivity.
  - unfold NumFrames, get_this, mbind, M_bind, mret, M_ret. rewrite Hf.
    reflexivity.
  - unfold NumCameras, get_this, mbind, M_bind, mret, M_ret. rewrite Hc.
    reflexivity.
Qed.

Lemma count_Frames_replicate (n : nat) (T : SE3d) :
  count_Frames (replicate n (add_Frame T)) = n.
Proof.
  induction n as [|n IH]; [reflexivity|].
  cbn [replicate]. rewrite count_Frames_cons, IH. reflexivity.
Qed.

(** The id of the [AddFrame] call that follows [n] others. *)
Lemma AddFrame_after (n : nat) (T : SE3d) (should_run running : bool) :
  exists ids w',
    run_adds (replicate n (add_Frame T) ++ [add_Frame T])
             (World_new (double:=double) should_run running) = Ok ids w' /\
    ids !! n = Some (int_of_size_t n).
Proof.
  destruct (run_adds_spec (replicate n (add_Frame T) ++ [add_Frame T])
              (World_new should_run running)) as (w' & E & _).
  cbn in E. eexists. exists w'. split; [exact E|].
  rewrite list_lookup_fmap.
  rewrite (@ordinals_lookup _ 0%nat 0%nat n (add_Frame T)).
  - cbn [is_add_Frame fmap option_fmap option_map].
    rewrite take_app_length' by (symmetry; apply length_replicate).
    rewrite count_Frames_replicate. reflexivity.
  - apply list_lookup_middle. rewrite length_replicate. reflexivity.
Qed.

(** *** A solver that stores through free blocks only *)

Section modify.
Variable f : SE3d -> SE3d.
Variable g : CameraModel (double:=double) -> CameraModel (double:=double).

Lemma same_cells_alter {A : Type} (h : A -> A) (l : loc)
    (cells : list (option A)) :
  same_cells cells (alter (fmap h) l cells).
Proof.
  unfold same_cells. apply Forall2_same_length_lookup. split.
  - rewrite length_alter. reflexivity.
  - intros i x y Hx Hy. destruct (decide (l = i)) as [->|Hne].
    + rewrite list_lookup_alter_eq, Hx in Hy. injection Hy as <-.
      destruct x; cbn; split; intros [? ?]; eauto.
    + rewrite list_lookup_alter_ne, Hx in Hy by exact Hne.
      injection Hy as <-. reflexivity.
Qed.

Lemma same_cells_refl {A : Type} (cells : list (option A)) :
  same_cells cells cells.
Proof. apply Forall_Forall2_diag, Forall_forall. intros; reflexivity. Qed.

Lemma same_cells_trans {A : Type} (a b c : list (option A)) :
  same_cells a b -> same_cells b c -> same_cells a c.
Proof.
  intros Hab Hbc. eapply Forall2_trans; [|exact Hab|exact Hbc].
  cbn. intros x y z Hxy Hyz. rewrite Hxy. exact Hyz.
Qed.

Lemma modify_block_contract (m : Memory) (p : dptr) :
  same_cells (frame_cells m) (frame_cells (modify_block f g m p)) /\
  same_cells (camera_cells m) (camera_cells (modify_block f g m p)) /\
  forall q, q <> p -> read_block (modify_block f g m p) q = read_block m q.
Proof.
  destruct p as [l|l|l]; cbn; split_and!;
    try apply same_cells_refl; try apply same_cells_alter;
    intros [k|k|k] Hq; cbn; try reflexivity;
    (destruct (decide (l = k)) as [->|Hne];
     [ try congruence; rewrite list_lookup_alter_eq;
       destruct (_ !! k) as [[y|]|]; reflexivity
     | rewrite list_lookup_alter_ne by exact Hne; reflexivity ]).
Qed.

Lemma modify_blocks_contract (ps : list dptr) (m : Memory) :
  let m' := foldl (modify_block f g) m ps in
  same_cells (frame_cells m) (frame_cells m') /\
  same_cells (camera_cells m) (camera_cells m') /\
  forall q, q ∉ ps -> read_block m' q = read_block m q.
Proof.
  revert m. induction ps as [|p ps IH]; intros m; cbn zeta.
  - cbn. split_and!; try apply same_cells_refl. reflexivity.
  - cbn [foldl].
    destruct (IH (modify_block f g m p)) as (Hf & Hc & Hr).
    destruct (modify_block_contract m p) as (Hf1 & Hc1 & Hr1).
    cbn zeta in Hf, Hc, Hr. split_and!.
    + eapply same_cells_trans; eassumption.
    + eapply same_cells_trans; eassumption.
    + intros q Hq. apply not_elem_of_cons in Hq as [Hqp Hq].
      rewrite (Hr q Hq). apply Hr1, Hqp.
Qed.

End modify.

End Engine_properties.

(** ** The engine on a small scene *)

Lemma shifting_Solve_contract : Solve_contract shifting_Solve.
Proof.
  intros o p m. cbn zeta. unfold shifting_Solve. cbn [Solve_memory].
  apply modify_blocks_contract.
Qed.

Lemma throwing_Solve_contract (e : thrown) : Solve_contract (throwing_Solve e).
Proof.
  intros o p m. cbn zeta. unfold throwing_Solve. cbn [Solve_memory].
  apply modify_blocks_contract.
Qed.

Lemma throwing_Solve_std (what : string) :
  Solve_throws_std_exception (throwing_Solve (thrown_std_exception what)).
Proof.
  intros o p m m' e. unfold throwing_Solve. intros [= _ <-]. eauto.
Qed.

Lemma wf_Z_world : wf Z_world.
Proof.
  unfold wf. cbn. split_and!.
  - reflexivity.
  - apply (bool_decide_unpack _). reflexivity.
  - apply (bool_decide_unpack _). reflexivity.
  - repeat constructor; cbn; eauto.
  - repeat constructor; cbn; eauto.
Qed.

(** Two passes of the loop on the scene: the solver moves every free
    block, camera 0 keeps its extrinsic pose, camera 1 does not. *)
Example gauge_example :
  let w' := default Z_world
              (final_world
                 (run (ProjModel0:=LinearPinhole) shifting_Solve Z_div_count
                    [step_SolveThread_iteration; step_SolveThread_iteration]
                    Z_world)) in
  T_ck <$> camera_value w' 0 = Some quat_identity /\
  T_ck <$> camera_value w' 1 = Some (Z_shift_pose (Z_shift_pose Z_half_turn)) /\
  camera <$> camera_value w' 0 = Some (mkCameraModel [5; 3; 2; 7]) /\
  frame_value w' 0 = Some (Z_shift_pose (Z_shift_pose quat_identity)).
Proof. cbn zeta. split_and!; reflexivity. Qed.

Lemma first_camera_extrinsic_stays_constant_witness :
  (Solve_contract shifting_Solve /\ wf Z_world) /\
  forall ss w' cp0,
    step_Clear ∉ ss ->
    camera_value Z_world 0 = Some cp0 ->
    final_world (run (ProjModel0:=LinearPinhole) shifting_Solve Z_div_count
                   ss Z_world) = Some w' ->
    T_ck <$> camera_value w' 0 = Some (T_ck cp0).
Proof.
  split; [split; [exact shifting_Solve_contract | exact wf_Z_world]|].
  destruct (@first_camera_extrinsic_stays_constant LinearPinhole Z
              Quat_SE3Group shifting_Solve Z_div_count Z_world
              shifting_Solve_contract wf_Z_world) as (_ & _ & _ & Hg & _ & _).
  exact Hg.
Defined.

Lemma AddObservation_appends_one_residual_witness :
  (wf Z_world /\ 0 <= 1 /\ m_T_kw (this Z_world) !! Z.to_nat 1 = Some 1%nat /\
   0 <= 0 /\ m_camera (this Z_world) !! Z.to_nat 0 = Some 0%nat) /\
  exists w1,
    AddObservation 1 0 (mkVec3 1 1 1) (mkVec2 2 3) Z_world = Ok tt w1 /\
    m_costs (this w1)
    = m_costs (this Z_world)
      ++ [observation_cost 1 0 (mkVec3 1 1 1) (mkVec2 2 3)] /\
    trace w1
    = trace Z_world
      ++ [ev_lock; ev_camera_at 0; ev_T_kw_at 1;
          ev_new_ReprojectionCost (mkVec3 1 1 1) (mkVec2 2 3);
          ev_costs_push_back
            (observation_cost 1 0 (mkVec3 1 1 1) (mkVec2 2 3));
          ev_unlock].
Proof.
  assert (H1 : m_T_kw (this Z_world) !! Z.to_nat 1 = Some 1%nat)
    by reflexivity.
  assert (H0 : m_camera (this Z_world) !! Z.to_nat 0 = Some 0%nat)
    by reflexivity.
  split; [split_and!; [exact wf_Z_world | lia | exact H1 | lia | exact H0]|].
  destruct (@AddObservation_appends_one_residual LinearPinhole Z
              Quat_SE3Group shifting_Solve Z_div_count Z_world 1 0
              (mkVec3 1 1 1) (mkVec2 2 3) 1%nat 0%nat wf_Z_world
              ltac:(lia) H1 ltac:(lia) H0)
    as (w1 & E & Hc & _ & Ht & _).
  exists w1. split_and!; [exact E | exact Hc | exact Ht].
Defined.

Lemma solver_called_iff_residuals_witness :
  m_update_mutex (this Z_world) = false /\
  let p := build_problem (ProjModel0:=LinearPinhole) (this Z_world) in
  NumResiduals p = 4 /\
  (residual_blocks p <> [] <-> 0 < NumResiduals p).
Proof.
  split; [reflexivity|].
  destruct (@solver_called_iff_residuals LinearPinhole Z Quat_SE3Group
              shifting_Solve Z_div_count Z_world eq_refl)
    as (Hlen & Hn & _ & _ & Hiff).
  cbn zeta in *. split.
  - rewrite Hn, Hlen. reflexivity.
  - apply Hiff. rewrite Hlen. reflexivity.
Defined.

(** C5 as stated fails beyond the range of [int].  After 2^30 observations
    the problem a pass builds has 2^30 residual blocks, and its residual
    count, 2^31, is returned as an [int], which is -2^31: the guard is not
    positive, and the pass ends without calling the solver. *)
Lemma Solve_skipped_with_residuals :
  let n := Z.to_nat (2 ^ 30) in
  let ss := [step_AddCamera Z_camera quat_identity;
             step_AddFrame quat_identity]
            ++ replicate n
                 (step_AddObservation 0 0 (mkVec3 4 6 2) (mkVec2 6 8)) in
  exists w,
    run (ProjModel0:=LinearPinhole) shifting_Solve Z_div_count ss
      (World_new false false) = Ok tt w /\
    Z.of_nat (length (m_costs (this w))) = 1073741824 /\
    residual_blocks (build_problem (ProjModel0:=LinearPinhole) (this w))
      <> [] /\
    NumResiduals (build_problem (ProjModel0:=LinearPinhole) (this w))
    = -2147483648 /\
    SolveThread_iteration (ProjModel0:=LinearPinhole) shifting_Solve
      Z_div_count w
    = Ok tt (mkWorld (mem w) (this w) (trace w ++ [ev_lock; ev_unlock])).
Proof.
  intros n ss.
  assert (Hn : Z.of_nat n = 2 ^ 30) by (subst n; apply Z2Nat.id; lia).
  clearbody n. subst ss.
  pose (w0 := mkWorld
                (mkMemory [Some quat_identity]
                          [Some (mkCameraAndPose Z_camera quat_identity)])
                (with_T_kw [0%nat]
                   (with_camera [0%nat] (Calibrator_new false false)))
                ([] : list (Event (double:=Z)))).
  assert (E0 : run (ProjModel0:=LinearPinhole) shifting_Solve Z_div_count
                 [step_AddCamera Z_camera quat_identity;
                  step_AddFrame quat_identity] (World_new false false)
               = Ok tt w0) by reflexivity.
  rewrite run_app, E0.
  rewrite (@run_AddObservations LinearPinhole Z Quat_SE3Group shifting_Solve
             Z_div_count n 0 0 (mkVec3 4 6 2) (mkVec2 6 8) 0%nat 0%nat w0
             eq_refl ltac:(lia) eq_refl ltac:(lia) eq_refl
             ltac:(eexists; reflexivity) ltac:(eexists; reflexivity)).
  eexists. split; [reflexivity|].
  assert (Hcount :
            NumResiduals
              (build_problem (ProjModel0:=LinearPinhole)
                 (with_costs
                    (m_costs (this w0)
                     ++ replicate n
                          (observation_cost 0 0 (mkVec3 4 6 2) (mkVec2 6 8)))
                    (this w0)))
            = -2147483648).
  { rewrite build_problem_NumResiduals.
    change (m_costs (with_costs ?v _)) with v.
    rewrite length_app, length_replicate. cbn [m_costs this w0 length].
    rewrite Nat2Z.inj_add, Hn. reflexivity. }
  cbn [this mem trace]. split_and!.
  - change (m_costs (with_costs ?v _)) with v.
    rewrite length_app, length_replicate, Nat2Z.inj_add, Hn. reflexivity.
  - destruct (build_problem_spec (ProjModel0:=LinearPinhole)
                (with_costs
                   (m_costs (this w0)
                    ++ replicate n
                         (observation_cost 0 0 (mkVec3 4 6 2) (mkVec2 6 8)))
                   (this w0))) as (_ & _ & _ & HR).
    cbn zeta in HR. rewrite HR.
    change (m_costs (with_costs ?v _)) with v.
    destruct n as [|n]; [discriminate Hn|]. discriminate.
  - exact Hcount.
  - rewrite SolveThread_iteration_spec by reflexivity.
    cbn zeta. cbn [this mem trace]. rewrite Hcount. reflexivity.
Qed.

(** A pass on a new engine, which has no residuals, and a pass on the
    scene, which has two. *)
Example solver_called_example :
  SolveThread_iteration (ProjModel0:=LinearPinhole) shifting_Solve Z_div_count
    (World_new false false)
  = Ok tt (mkWorld (mkMemory [] []) (Calibrator_new false false)
             [ev_lock; ev_unlock]) /\
  exists w',
    SolveThread_iteration (ProjModel0:=LinearPinhole) shifting_Solve
      Z_div_count Z_world = Ok tt w' /\
    drop (length (trace Z_world)) (trace w')
    = [ev_lock; ev_unlock;
       ev_Solve (m_solver_options (this Z_world))
                (build_problem (ProjModel0:=LinearPinhole) (this Z_world));
       ev_cout_BriefReport "shifted"; ev_cout_stats 2 4 0].
Proof.
  split; [reflexivity|].
  exists (default Z_world
            (final_world
               (SolveThread_iteration (ProjModel0:=LinearPinhole)
                  shifting_Solve Z_div_count Z_world))).
  split; reflexivity.
Qed.

Lemma fussy_Solve_throws :
  fussy_Solve (m_solver_options (this Z_world))
    (build_problem (ProjModel0:=LinearPinhole) (this Z_world)) (mem Z_world)
  = Solve_throws (mem Z_world) (thrown_std_exception "std::runtime_error").
Proof. reflexivity. Qed.

Lemma Z_world_NumResiduals :
  NumResiduals (build_problem (ProjModel0:=LinearPinhole) (this Z_world)) = 4.
Proof. rewrite build_problem_NumResiduals. reflexivity. Qed.

(** On the scene, with a solver that throws a [std::exception] now and
    could throw something else on another problem: the pass ends normally
    and reports to [cerr], and no [std::exception] leaves the loop. *)
Lemma std_exceptions_do_not_leave_the_loop_witness :
  let p := build_problem (ProjModel0:=LinearPinhole) (this Z_world) in
  let o := m_solver_options (this Z_world) in
  (m_update_mutex (this Z_world) = false /\
   0 < NumResiduals p /\
   fussy_Solve o p (mem Z_world)
   = Solve_throws (mem Z_world)
       (thrown_std_exception "std::runtime_error")) /\
  SolveThread_iteration (ProjModel0:=LinearPinhole) fussy_Solve Z_div_count
    Z_world
  = Ok tt (mkWorld (mem Z_world) (this Z_world)
             (trace Z_world
              ++ [ev_lock; ev_unlock; ev_Solve o p; ev_cerr sliced_what])) /\
  forall n e w',
    SolveThread (ProjModel0:=LinearPinhole) fussy_Solve Z_div_count n Z_world
    = Uncaught e w' ->
    forall what, e <> thrown_std_exception what.
Proof.
  intros p o.
  assert (Hpos : 0 < NumResiduals p)
    by (subst p; rewrite Z_world_NumResiduals; lia).
  split; [split_and!; [reflexivity | exact Hpos | exact fussy_Solve_throws]|].
  destruct (@std_exceptions_do_not_leave_the_loop LinearPinhole Z
              Quat_SE3Group fussy_Solve Z_div_count Z_world eq_refl)
    as (Hpass & _ & Hleft & _).
  split; [|exact Hleft].
  destruct (Hpass (mem Z_world) "std::runtime_error"%string Hpos
              fussy_Solve_throws) as (E & _).
  exact E.
Defined.

(** With a solver that throws nothing but [std::exception]s, every pass of
    [SolveThread] ends normally. *)
Example std_exceptions_example :
  forall n, exists w',
    SolveThread (ProjModel0:=LinearPinhole)
      (throwing_Solve (thrown_std_exception "std::bad_alloc"%string))
      Z_div_count n Z_world = Ok tt w'.
Proof.
  intros n.
  destruct (iterate_SolveThread_iteration_Ok (ProjModel0:=LinearPinhole)
              Z_div_count n
              (mkWorld (mem Z_world) (with_running true (this Z_world))
                       (trace Z_world))
              (@throwing_Solve_std "std::bad_alloc"%string) eq_refl)
    as (w' & E & _).
  rewrite SolveThread_unfold, E. eauto.
Qed.

(** C6 as stated fails: the handler names [std::exception], so an exception
    of any other type passes it.  On the scene, with a solver that throws
    such an exception, the first pass of [SolveThread] is left by that
    exception, after the call and with nothing reported. *)
Lemma other_exception_leaves_the_loop :
  exists w',
    SolveThread (ProjModel0:=LinearPinhole) (throwing_Solve thrown_other)
      Z_div_count 1 Z_world = Uncaught thrown_other w' /\
    drop (length (trace Z_world)) (trace w')
    = [ev_lock; ev_unlock;
       ev_Solve (m_solver_options (this Z_world))
                (build_problem (ProjModel0:=LinearPinhole) (this Z_world))].
Proof.
  exists (default Z_world
            (final_world
               (SolveThread (ProjModel0:=LinearPinhole)
                  (throwing_Solve thrown_other) Z_div_count 1 Z_world))).
  split; reflexivity.
Qed.

Lemma GetCamera_copies_GetFrame_aliases_witness :
  wf Z_world /\
  (forall v, frame_value Z_world 1 = Some v ->
     exists l,
       GetFrame 1 Z_world = Ok l Z_world /\
       m_T_kw (this Z_world) !! 1%nat = Some l) /\
  (forall cp, camera_value Z_world 1 = Some cp ->
     exists l' w1,
       GetCamera 1 Z_world = Ok l' w1 /\
       mjoin (camera_cells (mem w1) !! l') = Some cp /\
       (l' ∉ m_camera (this w1))).
Proof.
  split; [exact wf_Z_world|].
  destruct (@GetCamera_copies_GetFrame_aliases Z Quat_SE3Group Z_world 1
              wf_Z_world) as [Hc Hf].
  split.
  - intros v Hv. destruct (Hf v Hv) as (l & E & Hl & _).
    exists l. split; assumption.
  - intros cp Hcp. destruct (Hc cp Hcp) as (l' & w1 & E & Hv & Hn & _).
    exists l', w1. split_and!; assumption.
Defined.

(** The copy and the reference on the scene: assigning to what
    [GetCamera(1)] returned leaves camera 1 as it is, assigning through
    what [GetFrame(1)] returned changes frame 1. *)
Example accessors_example :
  let after s := default Z_world
                   (final_world
                      (run (ProjModel0:=LinearPinhole) shifting_Solve
                         Z_div_count [s] Z_world)) in
  camera_value
    (after (step_GetCamera_assign 1 (mkCameraAndPose Z_camera quat_identity))) 1
  = Some (mkCameraAndPose Z_camera Z_half_turn) /\
  frame_value Z_world 1 = Some Z_half_turn /\
  frame_value (after (step_GetFrame_assign 1 quat_identity)) 1
  = Some quat_identity.
Proof. split_and!; reflexivity. Qed.

(** Ids on a short sequence of calls. *)
Example Add_ids_example :
  exists w',
    run_adds Z_adds (World_new false false) = Ok [0; 0; 1; 2; 1] w' /\
    NumFrames w' = Ok 3%nat w' /\ NumCameras w' = Ok 2%nat w'.
Proof.
  exists (default (World_new false false)
            (final_world (run_adds Z_adds (World_new false false)))).
  split_and!; reflexivity.
Qed.

(** C4 as stated fails beyond the range of [int]: the [AddFrame] call that
    follows 2^31 others finds [m_T_kw.size()] equal to 2^31 and returns it
    as an [int], which is -2^31. *)
Lemma AddFrame_id_wraps :
  let n := Z.to_nat (2 ^ 31) in
  let cs := replicate n (add_Frame (Sophus_double:=Quat_SE3Group (T:=Z))
                           quat_identity)
            ++ [add_Frame quat_identity] in
  exists ids w',
    run_adds cs (World_new false false) = Ok ids w' /\
    cs !! n = Some (add_Frame quat_identity) /\
    Z.of_nat (count_Frames (take n cs)) = 2147483648 /\
    ids !! n = Some (-2147483648).
Proof.
  intros n cs.
  assert (Hn : Z.of_nat n = 2 ^ 31) by (subst n; apply Z2Nat.id; lia).
  clearbody n.
  destruct (@AddFrame_after Z Quat_SE3Group n quat_identity false false)
    as (ids & w' & E & Hid).
  exists ids, w'. split_and!.
  - exact E.
  - subst cs. apply list_lookup_middle. rewrite length_replicate. reflexivity.
  - subst cs. rewrite take_app_length' by (symmetry; apply length_replicate).
    rewrite count_Frames_replicate, Hn. reflexivity.
  - rewrite Hid. unfold int_of_size_t. rewrite Hn. reflexivity.
Qed.


(* ===================================================================== *)
(** * Further properties *)
(* ===================================================================== *)

(** ** Camera: transfer over a ring of scalars *)

Section Camera_ring_properties.
Context {Scalar : Type} {Scalar_ops : ScalarOps Scalar}.
Context {Sophus_Scalar : SE3Group Scalar} {Derived : calibu.CameraImpl Scalar}.

(** The scalars form a commutative ring under the operations of
    [ScalarOps]; [s_opp] is the negation that goes with them. *)
Variable s_opp : Scalar -> Scalar.
Hypothesis Scalar_ring :
  ring_theory s_zero s_one s_add s_mul s_sub s_opp (@eq Scalar).

Add Ring Scalar_is_ring : Scalar_ring.

(** X1. A ray with inverse depth zero is a point at infinity: its transfer
    is the projection of the rotated ray and does not depend on the
    translation of the transform. *)
Theorem Transfer3d_at_infinity (t_ba : calibu.SE3t) (ray : Vec3t Scalar) :
  calibu.Transfer3d t_ba ray s_zero
  = calibu.Project (m3_mul_v3 (rotationMatrix t_ba) ray).
Proof using Scalar_ring.
  unfold calibu.Transfer3d. f_equal.
  unfold v3_add, v3_scale, m3_mul_v3. cbn. f_equal; ring.
Qed.

(** X2. Transfer is homogeneous in the pair (ray, inverse depth): scaling
    both by [s] projects the point of the unscaled pair scaled by [s]. *)
Theorem Transfer3d_homogeneous (t_ba : calibu.SE3t) (ray : Vec3t Scalar)
    (rho s : Scalar) :
  calibu.Transfer3d t_ba (v3_scale s ray) (s * rho)%sc
  = calibu.Project
      (v3_scale s (v3_add (m3_mul_v3 (rotationMatrix t_ba) ray)
                          (v3_scale rho (translation t_ba)))).
Proof using Scalar_ring.
  unfold calibu.Transfer3d. f_equal.
  unfold v3_add, v3_scale, m3_mul_v3, v3_dot. cbn. f_equal; ring.
Qed.

(** X3. The 2x4 matrix of [dTransfer3d_dray], applied to a perturbation
    [(dray, drho)] of the ray and the inverse depth, is the projection
    Jacobian at the transformed ray applied to the perturbation
    [R dray + drho t] of that ray: the chain rule through
    [ray, rho -> R ray + rho t]. *)
Theorem dTransfer3d_dray_chain_rule (uninit : Mat24t Scalar)
    (t_ba : calibu.SE3t) (ray dray : Vec3t Scalar) (rho drho : Scalar) :
  m24_mul_v4 (calibu.dTransfer3d_dray uninit t_ba ray rho)
             (mkVec4 (v3_0 dray) (v3_1 dray) (v3_2 dray) drho)
  = m23_mul_v3
      (calibu.dProject_dray
         (v3_add (m3_mul_v3 (rotationMatrix t_ba) ray)
                 (v3_scale rho (translation t_ba))))
      (v3_add (m3_mul_v3 (rotationMatrix t_ba) dray)
              (v3_scale drho (translation t_ba))).
Proof using Scalar_ring.
  unfold calibu.dTransfer3d_dray, m24_mul_v4, m23_mul_v3, m23_mul_m3,
    set_col3, set_topLeftCorner_2_3, v3_add, v3_scale, m3_mul_v3, v3_dot.
  cbn. f_equal; ring.
Qed.

End Camera_ring_properties.

(** ** The calibration engine, continued *)

Import fiducials_notions.

Section Engine_further_properties.
Context {ProjModel0 : ProjModel}.
Context {double : Type} {Sophus_double : SE3Group double}.
Variable ceres_Solve :
  Solver_Options -> Problem (double:=double) -> Memory -> Solve_result.
Variable div_count : double -> Z -> double.

Local Abbreviation World := (World (double:=double)).
Local Abbreviation Calibrator := (Calibrator (double:=double)).
Local Abbreviation SolveThread_iteration :=
  (SolveThread_iteration ceres_Solve div_count).
Local Abbreviation SolveThread := (SolveThread ceres_Solve div_count).
Local Abbreviation do_step := (do_step ceres_Solve div_count).
Local Abbreviation run := (run ceres_Solve div_count).
Local Abbreviation effect := (effect ceres_Solve).

Local Arguments build_problem : simpl never.
Local Arguments fill_problem : simpl never.
Local Arguments NumResiduals : simpl never.

(** *** Runs, step by step *)

(** A property every step preserves, whatever the step does, holds where a
    run ends. *)
Lemma run_preserves (P : World -> Prop) (ss : list Step) :
  (forall s w w', s ∈ ss -> P w ->
                  final_world (do_step s w) = Some w' -> P w') ->
  forall w w', P w -> final_world (run ss w) = Some w' -> P w'.
Proof.
  induction ss as [|s ss IH]; intros Hstep w w' HP.
  - cbn. intros [= <-]. exact HP.
  - rewrite run_cons.
    destruct (do_step s w) as [[] w1| |e w1] eqn:Es.
    + apply IH.
      * intros s' v v' Hs'. apply Hstep. right. exact Hs'.
      * apply (Hstep s w w1); [left | exact HP |]. rewrite Es. reflexivity.
    + discriminate.
    + cbn. intros [= <-].
      apply (Hstep s w w1); [left | exact HP |]. rewrite Es. reflexivity.
Qed.

(** What a pass of the loop may report after its [Solve] call. *)
Local Abbreviation report rest :=
  (rest = [] \/ rest = [ev_cerr sliced_what] \/
   exists b n r x, rest = [ev_cout_BriefReport b; ev_cout_stats n r x]).

(** What a step appends to the trace. *)
Lemma do_step_trace (s : Step) (w w' : World) :
  final_world (do_step s w) = Some w' ->
  exists t,
    trace w' = trace w ++ t /\
    (t = [] \/
     (exists frame camera P_c p_c c,
        t = observation_events frame camera P_c p_c c) \/
     t = [ev_lock; ev_unlock] \/
     exists rest,
       t = [ev_lock; ev_unlock;
            ev_Solve (m_solver_options (this w)) (build_problem (this w))]
           ++ rest /\
       report rest).
Proof.
  intros Hs.
  assert (Hother : s <> step_SolveThread_iteration ->
            exists t,
              trace w' = trace w ++ t /\
              (t = [] \/
               (exists frame camera P_c p_c c,
                  t = observation_events frame camera P_c p_c c) \/
               t = [ev_lock; ev_unlock] \/
               exists rest,
                 t = [ev_lock; ev_unlock;
                      ev_Solve (m_solver_options (this w))
                               (build_problem (this w))] ++ rest /\
                 report rest)).
  { intros Hne. apply do_step_effect in Hs.
    inversion Hs; subst; cbn [trace]; try congruence;
      try (exists []; rewrite app_nil_r; split; [reflexivity|]; left;
           reflexivity).
    eexists. split; [reflexivity|]. right. left. eauto 6. }
  destruct s; try (apply Hother; discriminate). clear Hother.
  cbn [fiducials.do_step] in Hs.
  destruct (m_update_mutex (this w)) eqn:Hm.
  { apply SolveThread_iteration_effect in Hs. inversion Hs; congruence. }
  rewrite (SolveThread_iteration_spec ceres_Solve div_count w Hm) in Hs.
  cbn zeta in Hs.
  destruct (0 <? NumResiduals (build_problem (this w))).
  - destruct (ceres_Solve (m_solver_options (this w))
                (build_problem (this w)) (mem w)) as [m' summary|m' [what|]];
      cbn in Hs; injection Hs as <-; cbn [trace];
      rewrite <- app_assoc; eexists; (split; [reflexivity|]);
      right; right; right; eexists; (split; [reflexivity|]).
    + right. right. eauto.
    + right. left. reflexivity.
    + left. reflexivity.
  - cbn in Hs. injection Hs as <-. cbn [trace]. eauto 6.
Qed.

(** *** The mutex discipline *)

Lemma replay_app (held : bool) (t1 t2 : list (Event (double:=double))) :
  replay held (t1 ++ t2) = held' ← replay held t1; replay held' t2.
Proof.
  revert held. induction t1 as [|e t1 IH]; intros held; [reflexivity|].
  destruct e, held; cbn; try reflexivity; apply IH.
Qed.

(** X4. The trace of a run obeys the mutex discipline: if it did so far
    and the mutex was free, then after any sequence of client calls and
    loop passes it still does and the mutex is free again.  So [lock] and
    [unlock] alternate; residuals are constructed and appended to [m_costs]
    only by a holder of the mutex; and every [Solve] call and every report
    happens with the mutex released. *)
Theorem mutex_discipline_kept (ss : list Step) (w w' : World) :
  replay false (trace w) = Some false ->
  final_world (run ss w) = Some w' ->
  replay false (trace w') = Some false.
Proof.
  apply (run_preserves (fun v => replay false (trace v) = Some false)).
  intros s v v' _ Hv Hs.
  destruct (do_step_trace s v Hs) as (t & -> & Ht).
  rewrite replay_app, Hv. cbn [mbind option_bind].
  destruct Ht as [->|[(frame & camera & P_c & p_c & c & ->)
                      |[->|(rest & -> & Hrest)]]]; try reflexivity.
  destruct Hrest as [->|[->|(b & n & r & x & ->)]]; reflexivity.
Qed.

(** *** The options the solver is called with *)

Lemma Solve_calls_app (t1 t2 : list (Event (double:=double))) :
  Solve_calls (t1 ++ t2) = Solve_calls t1 ++ Solve_calls t2.
Proof.
  induction t1 as [|e t1 IH]; [reflexivity|].
  destruct e; cbn; rewrite ?IH; reflexivity.
Qed.

Lemma AddResidualBlock_options (p : Problem (double:=double)) cost loss params :
  problem_options (AddResidualBlock p cost loss params) = problem_options p.
Proof.
  unfold AddResidualBlock. cbn.
  generalize (zip params (parameter_block_sizes cost)). intros vs.
  revert p. induction vs as [|[v n] vs IH]; intros p; [reflexivity|].
  cbn. rewrite IH. apply AddParameterBlock_options.
Qed.

Lemma build_problem_options (c : Calibrator) :
  problem_options (build_problem c) = m_prob_options c.
Proof.
  unfold build_problem, fill_problem.
  assert (Hcost : forall v n (p : Problem (double:=double)),
            problem_options
              (for_loop n v
                 (fun _ cost problem =>
                    AddResidualBlock problem cost (cost_Loss cost)
                      (cost_Params cost)) p)
            = problem_options p).
  { induction v as [|cost v IH]; intros n p; [reflexivity|].
    cbn [for_loop]. rewrite IH. apply AddResidualBlock_options. }
  rewrite Hcost.
  assert (H0 : forall b, b ∈ parameter_blocks
                         (Problem_new (double:=double) (m_prob_options c)) ->
            pb_size b = 7%nat /\
            pb_local_parameterization b = Some m_LocalParamSe3).
  { intros b Hb. inversion Hb. }
  destruct (camera_loop (m_camera c) 0 _ H0)
    as (HA1 & _ & _ & _ & HO1 & _).
  cbn zeta in HA1, HO1.
  destruct (frame_loop (m_T_kw c) 0 _ HA1) as (_ & _ & _ & _ & HO2 & _).
  cbn zeta in HO2. rewrite HO2, HO1. reflexivity.
Qed.

Lemma do_step_options (s : Step) (w w' : World) :
  final_world (do_step s w) = Some w' ->
  m_solver_options (this w') = m_solver_options (this w) /\
  m_prob_options (this w') = m_prob_options (this w).
Proof.
  intros Hs. apply do_step_effect in Hs.
  inversion Hs; subst; split; reflexivity.
Qed.

(** X5. No operation changes the options the constructor sets.  Every
    [Solve] call of a run on a new engine is made with four threads, state
    updates at every iteration and at most 100 iterations, on a problem
    that takes ownership of no cost function, no local parameterization and
    no loss function. *)
Theorem Solve_calls_use_constructor_options (ss : list Step)
    (should_run running : bool) (w' : World) :
  final_world (run ss (World_new should_run running)) = Some w' ->
  m_solver_options (this w') = mkSolverOptions 4 true 100 /\
  m_prob_options (this w')
  = mkProblemOptions DO_NOT_TAKE_OWNERSHIP DO_NOT_TAKE_OWNERSHIP
                     DO_NOT_TAKE_OWNERSHIP /\
  Forall (fun op =>
            fst op = mkSolverOptions 4 true 100 /\
            problem_options (snd op)
            = mkProblemOptions DO_NOT_TAKE_OWNERSHIP DO_NOT_TAKE_OWNERSHIP
                               DO_NOT_TAKE_OWNERSHIP)
         (Solve_calls (trace w')).
Proof.
  apply (run_preserves
           (fun v =>
              m_solver_options (this v) = mkSolverOptions 4 true 100 /\
              m_prob_options (this v)
              = mkProblemOptions DO_NOT_TAKE_OWNERSHIP DO_NOT_TAKE_OWNERSHIP
                                 DO_NOT_TAKE_OWNERSHIP /\
              Forall (fun op =>
                        fst op = mkSolverOptions 4 true 100 /\
                        problem_options (snd op)
                        = mkProblemOptions DO_NOT_TAKE_OWNERSHIP
                            DO_NOT_TAKE_OWNERSHIP DO_NOT_TAKE_OWNERSHIP)
                     (Solve_calls (trace v)))).
  - intros s v v' _ (Ho & Hp & Hall) Hs.
    destruct (do_step_options s v Hs) as [Eo Ep].
    destruct (do_step_trace s v Hs) as (t & -> & Ht).
    rewrite Eo, Ep. split_and!; [exact Ho | exact Hp |].
    rewrite Solve_calls_app. apply Forall_app. split; [exact Hall|].
    destruct Ht as [->|[(frame & camera & P_c & p_c & c & ->)
                        |[->|(rest & -> & Hrest)]]];
      [cbn; constructor ..|].
    rewrite Solve_calls_app. cbn [Solve_calls app].
    constructor.
    + cbn. rewrite build_problem_options. split; assumption.
    + destruct Hrest as [->|[->|(b & n & r & x & ->)]]; cbn; constructor.
  - cbn. split_and!; [reflexivity | reflexivity | constructor].
Qed.

(** *** Indices and objects *)

Lemma effect_indices (s : Step) (w w' : World) :
  s <> step_Clear -> effect w s w' ->
  m_T_kw (this w) `prefix_of` m_T_kw (this w') /\
  m_camera (this w) `prefix_of` m_camera (this w').
Proof.
  intros Hs He.
  destruct He; cbn; try (split; reflexivity); try contradiction.
  - split; [reflexivity | apply prefix_app_r; reflexivity].
  - split; [apply prefix_app_r; reflexivity | reflexivity].
Qed.

(** X6. Indices are stable.  In a run without [Clear], from a well-formed
    state and with a solver that keeps to its contract, [m_T_kw] and
    [m_camera] only grow at the end: the frame or camera with index [i] is
    the same object ever after, and that object stays alive. *)
Theorem indices_stable (ss : list Step) (w w' : World) :
  Solve_contract ceres_Solve ->
  wf w ->
  step_Clear ∉ ss ->
  final_world (run ss w) = Some w' ->
  m_T_kw (this w) `prefix_of` m_T_kw (this w') /\
  m_camera (this w) `prefix_of` m_camera (this w') /\
  (forall i l, m_T_kw (this w) !! i = Some l ->
     m_T_kw (this w') !! i = Some l /\ is_Some (frame_value w' i)) /\
  (forall i l, m_camera (this w) !! i = Some l ->
     m_camera (this w') !! i = Some l /\ is_Some (camera_value w' i)).
Proof.
  intros Hsolve Hwf Hss Hrun.
  assert (Hwf' : wf w') by (eapply run_wf; eassumption).
  assert (Hpre : m_T_kw (this w) `prefix_of` m_T_kw (this w') /\
                 m_camera (this w) `prefix_of` m_camera (this w')).
  { revert Hrun.
    apply (run_invariant div_count
             (fun v => m_T_kw (this w) `prefix_of` m_T_kw (this v) /\
                       m_camera (this w) `prefix_of` m_camera (this v))).
    - intros s v v' Hs [Hf Hc] He.
      destruct (effect_indices (s:=s) (w:=v) (w':=v')) as [Hf' Hc'];
        [intros ->; contradiction | exact He |].
      split; etransitivity; eassumption.
    - split; reflexivity. }
  destruct Hpre as [Hf Hc].
  destruct Hwf' as (_ & _ & _ & Hlf & Hlc).
  rewrite Forall_forall in Hlf, Hlc.
  split_and!; [exact Hf | exact Hc | |].
  - intros i l Hl.
    assert (Hl' : m_T_kw (this w') !! i = Some l)
      by (eapply prefix_lookup_Some; eassumption).
    split; [exact Hl'|]. unfold frame_value. rewrite Hl'. cbn.
    apply Hlf. apply list_elem_of_lookup. eexists. exact Hl'.
  - intros i l Hl.
    assert (Hl' : m_camera (this w') !! i = Some l)
      by (eapply prefix_lookup_Some; eassumption).
    split; [exact Hl'|]. unfold camera_value. rewrite Hl'. cbn.
    apply Hlc. apply list_elem_of_lookup. eexists. exact Hl'.
Qed.

(** X7. Only the solver writes to a stored camera.  In a run without
    [Clear] and without a pass of the loop, whatever the clients call and
    whatever they do with what [GetCamera] and [GetFrame] return, an
    existing camera entry keeps its intrinsics and its extrinsic pose. *)
Theorem cameras_written_only_by_solver (ss : list Step) (w w' : World)
    (i : nat) (cp : CameraAndPose) :
  step_Clear ∉ ss ->
  step_SolveThread_iteration ∉ ss ->
  camera_value w i = Some cp ->
  final_world (run ss w) = Some w' ->
  camera_value w' i = Some cp.
Proof.
  intros Hclear Hiter Hcp Hrun.
  apply camera_value_Some in Hcp. apply camera_value_Some. revert Hrun.
  apply (run_invariant div_count
           (fun v => exists l, m_camera (this v) !! i = Some l /\
                               camera_cells (mem v) !! l = Some (Some cp)));
    [|exact Hcp].
  intros s v v' Hs (l & Hl & Hcell) He.
  assert (Hlt : (l < length (camera_cells (mem v)))%nat)
    by (apply lookup_lt_Some in Hcell; exact Hcell).
  destruct He; cbn; try (exists l; split; assumption);
    try contradiction.
  - exists l. split.
    + rewrite lookup_app_l; [exact Hl|]. apply lookup_lt_Some in Hl. exact Hl.
    + rewrite lookup_app_l by exact Hlt. exact Hcell.
  - exists l. split; [exact Hl|].
    rewrite lookup_app_l by exact Hlt. exact Hcell.
Qed.

(** *** Residuals and the objects they point to *)

Lemma effect_costs_bound (s : Step) (w w' : World) :
  effect w s w' -> costs_bound w -> costs_bound w'.
Proof.
  intros He Hb. unfold costs_bound in *.
  assert (Hmono : forall v : World,
            (forall l, l ∈ m_T_kw (this w) -> l ∈ m_T_kw (this v)) ->
            (forall l, l ∈ m_camera (this w) -> l ∈ m_camera (this v)) ->
            Forall (bound_to v) (m_costs (this w))).
  { intros v Hf Hc. eapply Forall_impl; [exact Hb|].
    intros c (lf & lc & Hp & Hlf & Hlc & Hloss).
    exists lf, lc. split_and!; [exact Hp | apply Hf, Hlf | apply Hc, Hlc |
                                exact Hloss]. }
  destruct He; cbn [this m_costs with_costs with_camera with_T_kw];
    try (apply Hmono; cbn; intros l' Hl';
         try (apply elem_of_app; left); exact Hl').
  - apply Forall_app. split; [apply Hmono; cbn; intros l' Hl'; exact Hl'|].
    apply Forall_singleton. exists lf, lc. cbn.
    split_and!; [reflexivity | | | reflexivity];
      apply list_elem_of_lookup; eexists; eassumption.
  - constructor.
Qed.

(** X8. No residual dangles.  A residual has exactly the three parameter
    blocks [AddObservation] gave it, and they point into a frame object and
    a camera object the engine holds.  This is kept by every run, [Clear]
    included; and in a well-formed state, with a solver that keeps to its
    contract, every parameter block of every residual can be read. *)
Theorem residuals_stay_bound (ss : list Step) (w w' : World) :
  Solve_contract ceres_Solve ->
  wf w ->
  costs_bound w ->
  final_world (run ss w) = Some w' ->
  costs_bound w' /\
  forall c q, c ∈ m_costs (this w') -> q ∈ cost_Params c ->
              is_Some (read_block (mem w') q).
Proof.
  intros Hsolve Hwf Hb Hrun.
  assert (Hwf' : wf w') by (eapply run_wf; eassumption).
  assert (Hb' : costs_bound w').
  { revert Hrun. apply (run_invariant div_count costs_bound); [|exact Hb].
    intros s v v' _ Hv He. eapply effect_costs_bound; eassumption. }
  split; [exact Hb'|].
  intros c q Hc Hq. unfold costs_bound in Hb'.
  rewrite Forall_forall in Hb'.
  destruct (Hb' c Hc) as (lf & lc & Hp & Hlf & Hlc & _).
  destruct Hwf' as (_ & _ & _ & Hlivef & Hlivec).
  rewrite Forall_forall in Hlivef, Hlivec.
  apply Hlivef in Hlf. apply Hlivec in Hlc.
  destruct Hlf as [x Hx]. destruct Hlc as [y Hy].
  rewrite Hp in Hq.
  repeat (apply elem_of_cons in Hq as [->|Hq]); [| | |inversion Hq];
    cbn; rewrite ?Hx, ?Hy; cbn; eauto.
Qed.

(** *** Intrinsics in the problem *)

(** A block at an intrinsics address has [NUM_PARAMS] scalars and no local
    parameterization. *)
Local Abbreviation intrinsics_blocks p :=
  (forall b l, b ∈ parameter_blocks p -> pb_values b = CameraData l ->
               b = mkParameterBlock (CameraData l) NUM_PARAMS None).

Lemma AddParameterBlock_intrinsics (p : Problem (double:=double)) v size lp :
  intrinsics_blocks p ->
  (forall l, v = CameraData l -> size = NUM_PARAMS /\ lp = None) ->
  intrinsics_blocks (AddParameterBlock p v size lp).
Proof.
  intros Hp Hv b l. rewrite AddParameterBlock_blocks.
  destruct (HasParameterBlock p v); [apply Hp|].
  rewrite elem_of_app, list_elem_of_singleton.
  intros [Hb| ->]; [apply Hp, Hb|]. cbn. intros ->.
  destruct (Hv l eq_refl) as [-> ->]. reflexivity.
Qed.

Lemma for_loop_preserves {A St : Type} (Q : St -> Prop)
    (body : nat -> A -> St -> St) (v : list A) :
  (forall c a s, Q s -> Q (body c a s)) ->
  forall c s, Q s -> Q (for_loop c v body s).
Proof.
  intros Hbody. induction v as [|a v IH]; intros c s Hs; [exact Hs|].
  cbn [for_loop]. apply IH, Hbody, Hs.
Qed.

Lemma AddResidualBlock_bound (p : Problem (double:=double))
    (cost : CostFunctionAndParams) (lf lc : loc) :
  cost_Params cost = [PoseData lf; T_ckData lc; CameraData lc] ->
  intrinsics_blocks p ->
  let p' := AddResidualBlock p cost (cost_Loss cost) (cost_Params cost) in
  intrinsics_blocks p' /\
  mkParameterBlock (CameraData lc) NUM_PARAMS None ∈ parameter_blocks p'.
Proof.
  intros Hparams Hp. cbn zeta. unfold AddResidualBlock.
  rewrite Hparams. cbn [parameter_block_sizes zip zip_with foldl fst snd
                        parameter_blocks].
  set (p1 := AddParameterBlock p (PoseData lf) 7 None).
  set (p2 := AddParameterBlock p1 (T_ckData lc) 7 None).
  assert (H1 : intrinsics_blocks p1).
  { apply AddParameterBlock_intrinsics; [exact Hp|]. intros l [=]. }
  assert (H2 : intrinsics_blocks p2).
  { apply AddParameterBlock_intrinsics; [exact H1|]. intros l [=]. }
  split.
  - apply AddParameterBlock_intrinsics; [exact H2|]. intros l _. auto.
  - apply AddParameterBlock_has. intros b Hb Hv. apply (H2 b lc Hb Hv).
Qed.

Lemma cost_loop_intrinsics (v : list CostFunctionAndParams) (n : nat)
    (p : Problem (double:=double)) :
  intrinsics_blocks p ->
  Forall (fun c => exists lf lc,
            cost_Params c = [PoseData lf; T_ckData lc; CameraData lc]) v ->
  let p' := for_loop n v
              (fun _ cost problem =>
                 AddResidualBlock problem cost (cost_Loss cost)
                   (cost_Params cost)) p in
  intrinsics_blocks p' /\
  forall c lc, c ∈ v -> CameraData lc ∈ cost_Params c ->
    mkParameterBlock (CameraData lc) NUM_PARAMS None ∈ parameter_blocks p'.
Proof.
  revert n p. induction v as [|cost v IH]; intros n p Hp Hv; cbn zeta.
  - cbn. split; [exact Hp|]. intros c lc Hc. inversion Hc.
  - cbn [for_loop]. apply Forall_cons in Hv as [(lf & lc & Hparams) Hv].
    destruct (AddResidualBlock_bound p cost Hparams Hp) as [Hp1 Hin1].
    cbn zeta in Hp1, Hin1.
    destruct (IH (S n) _ Hp1 Hv) as [Hp' Hin']. cbn zeta in Hp', Hin'.
    split; [exact Hp'|].
    intros c lc' Hc Hq. apply elem_of_cons in Hc as [->|Hc].
    + rewrite Hparams in Hq.
      repeat (apply elem_of_cons in Hq as [[=]|Hq]); [|inversion Hq]. subst.
      destruct (cost_loop v (S n)
                  (AddResidualBlock p cost (cost_Loss cost)
                     (cost_Params cost))) as (HK & _).
      apply HK, Hin1.
    + apply (Hin' c lc' Hc Hq).
Qed.

(** X9. The problem a pass builds holds every observation once, in the
    order of the [AddObservation] calls, as a residual block with no loss
    function and the parameter addresses the observation was given; its
    residual count is twice the number of observations, converted to the
    [int] that [NumResiduals()] returns.  Every parameter
    block of every residual is a block of the problem.  The intrinsics of
    every observed camera, camera 0 included, are a block of [NUM_PARAMS]
    scalars without local parameterization, and free. *)
Theorem problem_registers_observations (w : World) :
  costs_bound w ->
  let p := build_problem (this w) in
  residual_blocks p
  = (fun cost => mkResidualBlock cost None (cost_Params cost))
      <$> m_costs (this w) /\
  NumResiduals p = wrap_int (2 * Z.of_nat (length (m_costs (this w)))) /\
  (forall c q, c ∈ m_costs (this w) -> q ∈ cost_Params c ->
     q ∈ pb_values <$> parameter_blocks p) /\
  (forall c lc, c ∈ m_costs (this w) -> CameraData lc ∈ cost_Params c ->
     mkParameterBlock (CameraData lc) NUM_PARAMS None ∈ parameter_blocks p /\
     CameraData lc ∈ free_blocks p).
Proof.
  intros Hb p. unfold costs_bound in Hb.
  destruct (build_problem_spec (this w)) as (HC & HIc & HIf & HR).
  fold p in HC, HIc, HIf, HR. cbn zeta in HC, HIc, HIf, HR.
  assert (Hintr : forall c lc, c ∈ m_costs (this w) ->
            CameraData lc ∈ cost_Params c ->
            mkParameterBlock (CameraData lc) NUM_PARAMS None
              ∈ parameter_blocks p).
  { subst p. unfold build_problem, fill_problem.
    apply cost_loop_intrinsics.
    - apply (for_loop_preserves
               (fun q : Problem (double:=double) => intrinsics_blocks q)).
      { intros c a s Hs. apply AddParameterBlock_intrinsics; [exact Hs|].
        intros l [=]. }
      apply (for_loop_preserves
               (fun q : Problem (double:=double) => intrinsics_blocks q)).
      { intros c a s Hs.
        assert (H1 : intrinsics_blocks
                       (AddParameterBlock s (T_ckData a) 7
                          (Some m_LocalParamSe3))).
        { apply AddParameterBlock_intrinsics; [exact Hs|]. intros l [=]. }
        destruct (Nat.eqb c 0); [|exact H1].
        intros b l. rewrite SetParameterBlockConstant_blocks. apply H1. }
      intros b l Hin. inversion Hin.
    - eapply Forall_impl; [exact Hb|].
      intros c (lf & lc & Hp & _). eauto. }
  rewrite Forall_forall in Hb.
  split_and!.
  - rewrite HR. apply list_fmap_ext. intros i c Hc.
    destruct (Hb c) as (lf & lc & _ & _ & _ & ->); [|reflexivity].
    apply list_elem_of_lookup. eexists. exact Hc.
  - apply build_problem_NumResiduals.
  - intros c q Hc Hq.
    destruct (Hb c Hc) as (lf & lc & Hp & Hlf & Hlc & _).
    rewrite Hp in Hq. apply list_elem_of_fmap.
    repeat (apply elem_of_cons in Hq as [->|Hq]); [| | |inversion Hq].
    + eexists. split; [|apply HIf, Hlf]. reflexivity.
    + eexists. split; [|apply HIc, Hlc]. reflexivity.
    + eexists. split; [|apply (Hintr c lc Hc)]; [reflexivity|].
      rewrite Hp. right. right. left.
  - intros c lc Hc Hq. split; [apply (Hintr c lc Hc Hq)|].
    apply free_blocks_elem. split.
    + apply list_elem_of_fmap. eexists.
      split; [|apply (Hintr c lc Hc Hq)]. reflexivity.
    + rewrite HC. intros Hin.
      apply list_elem_of_fmap in Hin as (l0 & [=] & _).
Qed.

(** *** Clear *)

Lemma destroy_all_length {A : Type} (ls : list loc) (cells : list (option A)) :
  length (destroy_all ls cells) = length cells.
Proof.
  unfold destroy_all. revert cells.
  induction ls as [|l ls IH]; intros cells; [reflexivity|].
  cbn. rewrite IH. apply length_insert.
Qed.

Lemma destroy_all_other {A : Type} (ls : list loc) (cells : list (option A))
    (l : loc) :
  l ∉ ls -> destroy_all ls cells !! l = cells !! l.
Proof.
  unfold destroy_all. revert cells.
  induction ls as [|l0 ls IH]; intros cells Hl; [reflexivity|].
  apply not_elem_of_cons in Hl as [Hne Hl]. cbn. rewrite IH by exact Hl.
  apply list_lookup_insert_ne. congruence.
Qed.

Lemma destroy_all_owned {A : Type} (ls : list loc) (cells : list (option A))
    (l : loc) :
  l ∈ ls -> (l < length cells)%nat -> destroy_all ls cells !! l = Some None.
Proof.
  unfold destroy_all. revert cells.
  induction ls as [|l0 ls IH]; intros cells Hl Hlt; [inversion Hl|].
  cbn. destruct (decide (l ∈ ls)) as [Hin|Hnin].
  - apply IH; [exact Hin|]. rewrite length_insert. exact Hlt.
  - apply elem_of_cons in Hl as [->|Hl]; [|contradiction].
    change (foldl (fun cells l => <[l:=None]> cells) (<[l0:=None]> cells) ls)
      with (destroy_all ls (<[l0:=None]> cells)).
    rewrite destroy_all_other by exact Hnin.
    apply list_lookup_insert_eq. exact Hlt.
Qed.

(** X10. [Clear] destroys the objects the engine holds and nothing else.
    Afterwards the engine has no frame, no camera and no residual, every
    index is out of range, and a reference [GetFrame] returned before the
    call dangles: reading or writing through it has no defined behaviour.
    Objects the engine does not hold, such as the copies [GetCamera]
    returned, are as they were. *)
Theorem Clear_destroys_held_objects (w : World) (i : nat) (v : SE3d) :
  frame_value w i = Some v ->
  exists l w1,
    GetFrame i w = Ok l w /\
    Clear w = Ok tt w1 /\
    deref_frame l w1 = Undefined /\
    (forall x, assign_frame l x w1 = Undefined) /\
    (forall j, GetFrame j w1 = Undefined /\ GetCamera j w1 = Undefined) /\
    NumFrames w1 = Ok 0%nat w1 /\
    NumCameras w1 = Ok 0%nat w1 /\
    m_costs (this w1) = [] /\
    (forall l', l' ∉ m_T_kw (this w) ->
       frame_cells (mem w1) !! l' = frame_cells (mem w) !! l') /\
    (forall l', l' ∉ m_camera (this w) ->
       camera_cells (mem w1) !! l' = camera_cells (mem w) !! l').
Proof.
  intros Hv. apply frame_value_Some in Hv as (l & Hl & Hcell).
  exists l. eexists. split_and!.
  - unfold GetFrame, get_this, at_index, deref_frame, get_mem,
      mbind, M_bind, mret, M_ret. cbn.
    rewrite Hl. cbn. rewrite Hcell. reflexivity.
  - apply Clear_spec.
  - unfold deref_frame, get_mem, mbind, M_bind. cbn.
    rewrite destroy_all_owned; [reflexivity | |].
    + apply list_elem_of_lookup. eexists. exact Hl.
    + apply lookup_lt_Some in Hcell. exact Hcell.
  - intros x. unfold assign_frame, deref_frame, get_mem, mbind, M_bind. cbn.
    rewrite destroy_all_owned; [reflexivity | |].
    + apply list_elem_of_lookup. eexists. exact Hl.
    + apply lookup_lt_Some in Hcell. exact Hcell.
  - intros j. split; reflexivity.
  - reflexivity.
  - reflexivity.
  - reflexivity.
  - intros l' Hl'. cbn. apply destroy_all_other, Hl'.
  - intros l' Hl'. cbn. apply destroy_all_other, Hl'.
Qed.

(** X11. [Clear] restarts the numbering.  After [Clear], in whatever state
    it was called, a sequence of [AddFrame] and [AddCamera] calls returns
    the ids the same sequence returns on a new engine, and [NumFrames] and
    [NumCameras] count the calls made since. *)
Theorem ids_restart_after_Clear (w : World) (cs : list Add_call)
    (should_run running : bool) :
  exists w1 ids w' w0',
    Clear w = Ok tt w1 /\
    run_adds cs w1 = Ok ids w' /\
    run_adds cs (World_new (double:=double) should_run running) = Ok ids w0' /\
    NumFrames w' = Ok (count_Frames cs) w' /\
    NumCameras w' = Ok (count_Cameras cs) w'.
Proof.
  destruct (run_adds_spec cs (World_new should_run running))
    as (w0' & E0 & _).
  rewrite Clear_spec.
  match goal with |- context [Ok tt ?w1] =>
    destruct (run_adds_spec cs w1) as (w' & E & Hf & Hc) end.
  cbn in E0, E, Hf, Hc.
  eexists. eexists. exists w', w0'.
  split_and!; [reflexivity | exact E | exact E0 | |].
  - unfold NumFrames, get_this, mbind, M_bind, mret, M_ret. rewrite Hf.
    reflexivity.
  - unfold NumCameras, get_this, mbind, M_bind, mret, M_ret. rewrite Hc.
    reflexivity.
Qed.

(** *** Indices out of range *)

(** X12. No index is checked.  [AddObservation] with a frame or camera
    index that is negative or not below the number of frames or cameras,
    and [GetFrame] and [GetCamera] with an index not below it, have no
    defined behaviour. *)
Theorem out_of_range_index_undefined (w : World) :
  (forall frame camera P_c p_c,
     frame < 0 \/ Z.of_nat (length (m_T_kw (this w))) <= frame \/
     camera < 0 \/ Z.of_nat (length (m_camera (this w))) <= camera ->
     AddObservation frame camera P_c p_c w = Undefined) /\
  (forall i, (length (m_T_kw (this w)) <= i)%nat ->
             GetFrame i w = Undefined) /\
  (forall i, (length (m_camera (this w)) <= i)%nat ->
             GetCamera i w = Undefined).
Proof.
  split_and!.
  - intros frame camera P_c p_c Hrange.
    unfold AddObservation, m_camera_at, m_T_kw_at, new_ReprojectionCost,
    m_costs_push_back, lock, unlock, get_this, set_this, emit, at_int,
      at_index, deref_camera, deref_frame, get_mem, undefined,
      mbind, M_bind, mret, M_ret.
    cbn.
    destruct (m_update_mutex (this w)); [reflexivity|]. cbn.
    destruct (0 <=? camera) eqn:Ec; [|reflexivity].
    destruct (m_camera (this w) !! Z.to_nat camera) as [lc|] eqn:Hlc;
      [|reflexivity]. cbn.
    destruct (camera_cells (mem w) !! lc) as [[cp|]|];
      try reflexivity. cbn.
    destruct (0 <=? frame) eqn:Ef; [|reflexivity].
    destruct (m_T_kw (this w) !! Z.to_nat frame) as [lf|] eqn:Hlf;
      [|reflexivity].
    exfalso. apply Z.leb_le in Ec, Ef.
    apply lookup_lt_Some in Hlc, Hlf. lia.
  - intros i Hi. unfold GetFrame, get_this, at_index, mbind, M_bind. cbn.
    rewrite lookup_ge_None_2 by exact Hi. reflexivity.
  - intros i Hi. unfold GetCamera, get_this, at_index, mbind, M_bind. cbn.
    rewrite lookup_ge_None_2 by exact Hi. reflexivity.
Qed.

(** *** Adding and reading back *)

Lemma int_of_size_t_small (n : nat) :
  Z.of_nat n < 2 ^ 31 ->
  int_of_size_t n = Z.of_nat n /\ 0 <= int_of_size_t n /\
  Z.to_nat (int_of_size_t n) = n.
Proof.
  intros Hn. unfold int_of_size_t. rewrite wrap_int_small by lia.
  split_and!; [reflexivity | lia | apply Nat2Z.id].
Qed.

(** X13. A frame can be read back under the id [AddFrame] returned.  In a
    well-formed state with fewer than 2^31 frames, [AddFrame(T_kw)] returns
    the number of frames there were and leaves a well-formed state;
    [GetFrame] of that id then yields an object holding [T_kw]; the frames
    that existed and all cameras are untouched; the mutex is not taken and
    nothing is traced. *)
Theorem AddFrame_GetFrame_round_trip (w : World) (T_kw : SE3d) :
  wf w ->
  Z.of_nat (length (m_T_kw (this w))) < 2 ^ 31 ->
  exists id w1 l,
    AddFrame T_kw w = Ok id w1 /\
    id = Z.of_nat (length (m_T_kw (this w))) /\
    wf w1 /\
    GetFrame (Z.to_nat id) w1 = Ok l w1 /\
    mjoin (frame_cells (mem w1) !! l) = Some T_kw /\
    frame_value w1 (Z.to_nat id) = Some T_kw /\
    (forall j u, frame_value w j = Some u -> frame_value w1 j = Some u) /\
    (forall j, camera_value w1 j = camera_value w j) /\
    trace w1 = trace w.
Proof.
  intros (Hm & Hnf & Hnc & Hlf & Hlc) Hn.
  destruct (int_of_size_t_small _ Hn) as (Eid & _ & Enat).
  rewrite AddFrame_spec.
  eexists. eexists. exists (length (frame_cells (mem w))).
  split; [reflexivity|]. rewrite Enat.
  assert (Hnew : (m_T_kw (this w) ++ [length (frame_cells (mem w))])
                   !! length (m_T_kw (this w))
                 = Some (length (frame_cells (mem w))))
    by apply snoc_lookup.
  split_and!.
  - exact Eid.
  - unfold wf. cbn. split_and!.
    + exact Hm.
    + apply (NoDup_push_fresh (frame_cells (mem w))); assumption.
    + exact Hnc.
    + apply Forall_app. split; [apply Forall_live_snoc, Hlf|].
      apply Forall_singleton. rewrite snoc_lookup. cbn. eauto.
    + exact Hlc.
  - unfold GetFrame, get_this, at_index, deref_frame, get_mem,
      mbind, M_bind, mret, M_ret. cbn.
    rewrite Hnew. cbn. rewrite snoc_lookup. reflexivity.
  - cbn. rewrite snoc_lookup. reflexivity.
  - unfold frame_value. cbn. rewrite Hnew. cbn.
    rewrite snoc_lookup. reflexivity.
  - intros j u Hu. apply frame_value_Some in Hu as (lj & Hj & Hcell).
    apply frame_value_Some. exists lj. cbn. split.
    + rewrite lookup_app_l; [exact Hj|]. apply lookup_lt_Some in Hj. exact Hj.
    + rewrite lookup_app_l; [exact Hcell|].
      apply lookup_lt_Some in Hcell. exact Hcell.
  - intros j. reflexivity.
  - reflexivity.
Qed.

(** X14. A camera can be read back under the id [AddCamera] returned.  In
    a well-formed state with fewer than 2^31 cameras,
    [AddCamera(cam, T_ck)] returns the number of cameras there were and
    leaves a well-formed state; [GetCamera] of that id then returns a copy
    holding [cam] and [T_ck]; the cameras that existed and all frames are
    untouched. *)
Theorem AddCamera_GetCamera_round_trip (w : World) (cam : CameraModel)
    (T_ck : SE3d) :
  wf w ->
  Z.of_nat (length (m_camera (this w))) < 2 ^ 31 ->
  exists id w1 l w2,
    AddCamera cam T_ck w = Ok id w1 /\
    id = Z.of_nat (length (m_camera (this w))) /\
    wf w1 /\
    camera_value w1 (Z.to_nat id) = Some (mkCameraAndPose cam T_ck) /\
    GetCamera (Z.to_nat id) w1 = Ok l w2 /\
    mjoin (camera_cells (mem w2) !! l) = Some (mkCameraAndPose cam T_ck) /\
    (forall j u, camera_value w j = Some u -> camera_value w1 j = Some u) /\
    (forall j, frame_value w1 j = frame_value w j) /\
    trace w1 = trace w.
Proof.
  intros (Hm & Hnf & Hnc & Hlf & Hlc) Hn.
  destruct (int_of_size_t_small _ Hn) as (Eid & _ & Enat).
  rewrite AddCamera_spec.
  eexists. eexists. eexists. eexists.
  split; [reflexivity|]. rewrite Enat.
  assert (Hnew : (m_camera (this w) ++ [length (camera_cells (mem w))])
                   !! length (m_camera (this w))
                 = Some (length (camera_cells (mem w))))
    by apply snoc_lookup.
  split_and!.
  - exact Eid.
  - unfold wf. cbn. split_and!.
    + exact Hm.
    + exact Hnf.
    + apply (NoDup_push_fresh (camera_cells (mem w))); assumption.
    + exact Hlf.
    + apply Forall_app. split; [apply Forall_live_snoc, Hlc|].
      apply Forall_singleton. rewrite snoc_lookup. cbn. eauto.
  - unfold camera_value. cbn. rewrite Hnew. cbn.
    rewrite snoc_lookup. reflexivity.
  - unfold GetCamera, new_camera, get_this, at_index, deref_camera, get_mem,
      set_mem, mbind, M_bind, mret, M_ret. cbn.
    rewrite Hnew. cbn. rewrite snoc_lookup. reflexivity.
  - cbn. rewrite snoc_lookup. reflexivity.
  - intros j u Hu. apply camera_value_Some in Hu as (lj & Hj & Hcell).
    apply camera_value_Some. exists lj. cbn. split.
    + rewrite lookup_app_l; [exact Hj|]. apply lookup_lt_Some in Hj. exact Hj.
    + rewrite lookup_app_l; [exact Hcell|].
      apply lookup_lt_Some in Hcell. exact Hcell.
  - intros j. reflexivity.
  - reflexivity.
Qed.

(** X15. An observation made with the ids [AddCamera] and [AddFrame] have
    just returned is bound to the two new objects.  In a well-formed state
    with fewer than 2^31 cameras and frames, the three calls in a row end
    normally, and the parameter blocks of the residual they leave hold, in
    this order, the new frame's pose, the new camera's extrinsic pose and
    the new camera's intrinsics. *)
Theorem observation_binds_added_objects (w : World) (cam : CameraModel)
    (T_ck T_kw : SE3d) (P_c : Vec3t double) (p_c : Vec2t double) :
  wf w ->
  Z.of_nat (length (m_camera (this w))) < 2 ^ 31 ->
  Z.of_nat (length (m_T_kw (this w))) < 2 ^ 31 ->
  exists w3 c,
    (camera ← AddCamera cam T_ck;
     frame ← AddFrame T_kw;
     AddObservation frame camera P_c p_c) w = Ok tt w3 /\
    m_costs (this w3) = m_costs (this w) ++ [c] /\
    cost_function c = mkReprojectionCost P_c p_c /\
    read_block (mem w3) <$> cost_Params c
    = [Some (value_pose T_kw); Some (value_pose T_ck);
       Some (value_params cam)].
Proof.
  intros (Hm & Hnf & Hnc & Hlf & Hlc) Hnc' Hnf'.
  destruct (int_of_size_t_small _ Hnc') as (_ & Hc0 & Ec).
  destruct (int_of_size_t_small _ Hnf') as (_ & Hf0 & Ef).
  unfold mbind at 1, M_bind at 1. rewrite AddCamera_spec.
  unfold mbind at 1, M_bind at 1. rewrite AddFrame_spec.
  cbn [this mem trace m_T_kw m_camera with_camera with_T_kw].
  erewrite (AddObservation_spec P_c p_c _
              (frame:=int_of_size_t (length (m_T_kw (this w))))
              (camera:=int_of_size_t (length (m_camera (this w))))
              (lf:=length (frame_cells (mem w)))
              (lc:=length (camera_cells (mem w)))).
  - eexists.
    exists (observation_cost (length (frame_cells (mem w)))
              (length (camera_cells (mem w))) P_c p_c).
    split_and!; [reflexivity | reflexivity | reflexivity |].
    cbn. rewrite !snoc_lookup. reflexivity.
  - exact Hm.
  - exact Hf0.
  - cbn. rewrite Ef. apply snoc_lookup.
  - exact Hc0.
  - cbn. rewrite Ec. apply snoc_lookup.
  - cbn. rewrite snoc_lookup. cbn. eauto.
  - cbn. rewrite snoc_lookup. cbn. eauto.
Qed.

(** *** The loop without observations *)

Lemma iterate_idle (n : nat) (w : World) :
  m_update_mutex (this w) = false ->
  m_costs (this w) = [] ->
  iterate n SolveThread_iteration w
  = Ok tt (mkWorld (mem w) (this w)
             (trace w ++ mjoin (replicate n [ev_lock; ev_unlock]))).
Proof.
  revert w. induction n as [|n IH]; intros w Hm Hnil.
  - cbn. rewrite app_nil_r. destruct w; reflexivity.
  - rewrite iterate_S, (SolveThread_iteration_spec ceres_Solve div_count w Hm).
    cbn zeta. rewrite build_problem_NumResiduals, Hnil. cbn [length].
    change (0 <? wrap_int (2 * Z.of_nat 0)) with false. cbn iota.
    rewrite IH by assumption. cbn [mem this trace].
    rewrite <- app_assoc. reflexivity.
Qed.

(** X16. Without observations the loop idles.  With the mutex free and no
    residual, [SolveThread] makes its passes without calling the solver:
    each pass takes and releases the mutex and does nothing else; memory is
    unchanged, and the engine is as before but for [m_running], which is
    false at the end. *)
Theorem SolveThread_idles_without_observations (n : nat) (w : World) :
  m_update_mutex (this w) = false ->
  m_costs (this w) = [] ->
  SolveThread n w
  = Ok tt (mkWorld (mem w) (with_running false (this w))
             (trace w ++ mjoin (replicate n [ev_lock; ev_unlock]))).
Proof.
  intros Hm Hnil. unfold fiducials.SolveThread, get_this, set_this.
  unfold mbind at 1 2, M_bind at 1 2. cbn beta iota.
  unfold mbind at 1, M_bind at 1.
  rewrite iterate_idle by assumption.
  cbn. destruct w as [m c t]; destruct c; reflexivity.
Qed.

End Engine_further_properties.

(** ** The further properties on concrete inputs *)

Lemma Transfer3d_at_infinity_witness :
  ring_theory (R:=Z) s_zero s_one s_add s_mul s_sub Z.opp eq /\
  calibu.Transfer3d (Sophus_Scalar:=Quat_SE3Group) (Derived:=Z_camera_impl)
    Z_half_turn (mkVec3 3 4 2) 0
  = mkVec2 (-6) (-8).
Proof.
  split; [exact InitialRing.Zth|].
  rewrite (@Transfer3d_at_infinity Z Z_ScalarOps Quat_SE3Group Z_camera_impl
             Z.opp InitialRing.Zth Z_half_turn (mkVec3 3 4 2)).
  reflexivity.
Defined.

Lemma Transfer3d_homogeneous_witness :
  ring_theory (R:=Z) s_zero s_one s_add s_mul s_sub Z.opp eq /\
  calibu.Transfer3d (Sophus_Scalar:=Quat_SE3Group) (Derived:=Z_camera_impl)
    Z_half_turn (v3_scale 3 (mkVec3 3 4 1)) (3 * 5)
  = mkVec2 198 (-396).
Proof.
  split; [exact InitialRing.Zth|].
  rewrite (@Transfer3d_homogeneous Z Z_ScalarOps Quat_SE3Group Z_camera_impl
             Z.opp InitialRing.Zth Z_half_turn (mkVec3 3 4 1) 5 3).
  reflexivity.
Defined.

Lemma dTransfer3d_dray_chain_rule_witness :
  ring_theory (R:=Z) s_zero s_one s_add s_mul s_sub Z.opp eq /\
  m24_mul_v4
    (calibu.dTransfer3d_dray (Sophus_Scalar:=Quat_SE3Group)
       (Derived:=Z_camera_impl)
       (mkMat24 (mkVec2 9 9) (mkVec2 9 9) (mkVec2 9 9) (mkVec2 9 9))
       Z_half_turn (mkVec3 3 4 1) 5)
    (mkVec4 1 2 3 4)
  = mkVec2 55 (-66).
Proof.
  split; [exact InitialRing.Zth|].
  rewrite (@dTransfer3d_dray_chain_rule Z Z_ScalarOps Quat_SE3Group
             Z_camera_impl Z.opp InitialRing.Zth
             (mkMat24 (mkVec2 9 9) (mkVec2 9 9) (mkVec2 9 9) (mkVec2 9 9))
             Z_half_turn (mkVec3 3 4 1) (mkVec3 1 2 3) 5 4).
  reflexivity.
Defined.

Lemma Z_later_run :
  final_world (run (ProjModel0:=LinearPinhole) shifting_Solve Z_div_count
                 Z_later Z_world) = Some Z_world_later.
Proof. reflexivity. Qed.

Lemma Z_whole_run :
  final_world (run (ProjModel0:=LinearPinhole) shifting_Solve Z_div_count
                 (Z_scene ++ Z_later) (World_new false false))
  = Some Z_world_later.
Proof. reflexivity. Qed.

Lemma Z_later_no_Clear : step_Clear ∉ Z_later.
Proof.
  intros H. unfold Z_later in H.
  repeat (apply elem_of_cons in H as [H|H]; [discriminate H|]).
  inversion H.
Qed.

Lemma costs_bound_Z_world : costs_bound Z_world.
Proof.
  unfold costs_bound. cbn. repeat constructor.
  - exists 0%nat, 0%nat. cbn. split_and!; try reflexivity; left.
  - exists 1%nat, 1%nat. cbn. split_and!; try reflexivity; right; left.
Qed.

Lemma mutex_discipline_kept_witness :
  (replay false (trace Z_world) = Some false /\
   final_world (run (ProjModel0:=LinearPinhole) shifting_Solve Z_div_count
                  Z_later Z_world) = Some Z_world_later) /\
  replay false (trace Z_world_later) = Some false.
Proof.
  split; [split; [reflexivity | exact Z_later_run]|].
  apply (@mutex_discipline_kept LinearPinhole Z Quat_SE3Group shifting_Solve
           Z_div_count Z_later Z_world Z_world_later eq_refl Z_later_run).
Defined.

Lemma Solve_calls_use_constructor_options_witness :
  final_world (run (ProjModel0:=LinearPinhole) shifting_Solve Z_div_count
                 (Z_scene ++ Z_later) (World_new false false))
  = Some Z_world_later /\
  m_solver_options (this Z_world_later) = mkSolverOptions 4 true 100 /\
  length (Solve_calls (trace Z_world_later)) = 1%nat.
Proof.
  split; [exact Z_whole_run|].
  destruct (@Solve_calls_use_constructor_options LinearPinhole Z
              Quat_SE3Group shifting_Solve Z_div_count (Z_scene ++ Z_later)
              false false Z_world_later Z_whole_run) as (Ho & _ & _).
  split; [exact Ho | reflexivity].
Defined.

Lemma indices_stable_witness :
  (Solve_contract shifting_Solve /\ wf Z_world /\ (step_Clear ∉ Z_later) /\
   final_world (run (ProjModel0:=LinearPinhole) shifting_Solve Z_div_count
                  Z_later Z_world) = Some Z_world_later) /\
  m_T_kw (this Z_world) `prefix_of` m_T_kw (this Z_world_later) /\
  m_camera (this Z_world) `prefix_of` m_camera (this Z_world_later).
Proof.
  split; [split_and!; [exact shifting_Solve_contract | exact wf_Z_world |
                       exact Z_later_no_Clear | exact Z_later_run]|].
  destruct (@indices_stable LinearPinhole Z Quat_SE3Group shifting_Solve
              Z_div_count Z_later Z_world Z_world_later
              shifting_Solve_contract wf_Z_world Z_later_no_Clear
              Z_later_run) as (Hf & Hc & _).
  split; assumption.
Defined.

Lemma cameras_written_only_by_solver_witness :
  let ss := [step_GetCamera_assign 1 (mkCameraAndPose Z_camera quat_identity);
             step_AddCamera Z_camera quat_identity;
             step_GetFrame_assign 0 Z_half_turn] in
  let w' := default Z_world
              (final_world
                 (run (ProjModel0:=LinearPinhole) shifting_Solve Z_div_count
                    ss Z_world)) in
  ((step_Clear ∉ ss) /\ (step_SolveThread_iteration ∉ ss) /\
   camera_value Z_world 1 = Some (mkCameraAndPose Z_camera Z_half_turn) /\
   final_world (run (ProjModel0:=LinearPinhole) shifting_Solve Z_div_count
                  ss Z_world) = Some w') /\
  camera_value w' 1 = Some (mkCameraAndPose Z_camera Z_half_turn).
Proof.
  intros ss w'.
  assert (H1 : step_Clear ∉ ss).
  { intros H. subst ss.
    repeat (apply elem_of_cons in H as [H|H]; [discriminate H|]).
    inversion H. }
  assert (H2 : step_SolveThread_iteration ∉ ss).
  { intros H. subst ss.
    repeat (apply elem_of_cons in H as [H|H]; [discriminate H|]).
    inversion H. }
  assert (H3 : camera_value Z_world 1
               = Some (mkCameraAndPose Z_camera Z_half_turn))
    by reflexivity.
  assert (H4 : final_world
                 (run (ProjModel0:=LinearPinhole) shifting_Solve Z_div_count
                    ss Z_world) = Some w') by reflexivity.
  split; [split_and!; assumption|].
  apply (@cameras_written_only_by_solver LinearPinhole Z Quat_SE3Group
           shifting_Solve Z_div_count ss Z_world w' 1 _ H1 H2 H3 H4).
Defined.

Lemma residuals_stay_bound_witness :
  (Solve_contract shifting_Solve /\ wf Z_world /\ costs_bound Z_world /\
   final_world (run (ProjModel0:=LinearPinhole) shifting_Solve Z_div_count
                  Z_later Z_world) = Some Z_world_later) /\
  costs_bound Z_world_later /\
  length (m_costs (this Z_world_later)) = 3%nat.
Proof.
  split; [split_and!; [exact shifting_Solve_contract | exact wf_Z_world |
                       exact costs_bound_Z_world | exact Z_later_run]|].
  destruct (@residuals_stay_bound LinearPinhole Z Quat_SE3Group
              shifting_Solve Z_div_count Z_later Z_world Z_world_later
              shifting_Solve_contract wf_Z_world costs_bound_Z_world
              Z_later_run) as (Hb & _).
  split; [exact Hb | reflexivity].
Defined.

Lemma problem_registers_observations_witness :
  costs_bound Z_world /\
  CameraData 0%nat
    ∈ free_blocks (build_problem (ProjModel0:=LinearPinhole) (this Z_world)).
Proof.
  split; [exact costs_bound_Z_world|].
  destruct (@problem_registers_observations LinearPinhole Z Quat_SE3Group
              Z_world costs_bound_Z_world) as (_ & _ & _ & Hintr).
  apply (Hintr (observation_cost 0 0 (mkVec3 4 6 2) (mkVec2 6 8)) 0%nat).
  - left.
  - right. right. left.
Defined.

Lemma Clear_destroys_held_objects_witness :
  frame_value Z_world 1 = Some Z_half_turn /\
  exists l w1,
    GetFrame 1 Z_world = Ok l Z_world /\
    Clear Z_world = Ok tt w1 /\
    assign_frame l quat_identity w1 = Undefined.
Proof.
  assert (H : frame_value Z_world 1 = Some Z_half_turn) by reflexivity.
  split; [exact H|].
  destruct (@Clear_destroys_held_objects Z Quat_SE3Group Z_world 1
              Z_half_turn H) as (l & w1 & Hg & Hc & _ & Ha & _).
  exists l, w1. split_and!; [exact Hg | exact Hc | apply Ha].
Defined.

Lemma out_of_range_index_undefined_witness :
  ((-1 < 0 \/ Z.of_nat (length (m_T_kw (this Z_world))) <= -1 \/
    0 < 0 \/ Z.of_nat (length (m_camera (this Z_world))) <= 0) /\
   (length (m_T_kw (this Z_world)) <= 2)%nat /\
   (length (m_camera (this Z_world)) <= 2)%nat) /\
  AddObservation (-1) 0 (mkVec3 1 1 1) (mkVec2 0 0) Z_world = Undefined /\
  GetFrame 2 Z_world = Undefined /\
  GetCamera 2 Z_world = Undefined.
Proof.
  assert (H1 : -1 < 0 \/
               Z.of_nat (length (m_T_kw (this Z_world))) <= -1 \/
               0 < 0 \/
               Z.of_nat (length (m_camera (this Z_world))) <= 0)
    by (left; lia).
  assert (H2 : (length (m_T_kw (this Z_world)) <= 2)%nat) by (cbn; lia).
  assert (H3 : (length (m_camera (this Z_world)) <= 2)%nat) by (cbn; lia).
  split; [split_and!; assumption|].
  destruct (@out_of_range_index_undefined Z Quat_SE3Group
              Z_world) as (Ho & Hf & Hc).
  split_and!; [apply (Ho _ _ _ _ H1) | apply (Hf _ H2) | apply (Hc _ H3)].
Defined.

Lemma AddFrame_GetFrame_round_trip_witness :
  (wf Z_world /\ Z.of_nat (length (m_T_kw (this Z_world))) < 2 ^ 31) /\
  exists id w1 l,
    AddFrame Z_half_turn Z_world = Ok id w1 /\
    id = 2 /\
    GetFrame (Z.to_nat id) w1 = Ok l w1 /\
    mjoin (frame_cells (mem w1) !! l) = Some Z_half_turn.
Proof.
  assert (Hn : Z.of_nat (length (m_T_kw (this Z_world))) < 2 ^ 31)
    by (cbn; lia).
  split; [split; [exact wf_Z_world | exact Hn]|].
  destruct (@AddFrame_GetFrame_round_trip Z Quat_SE3Group Z_world
              Z_half_turn wf_Z_world Hn)
    as (id & w1 & l & Ha & Hid & _ & Hg & Hv & _).
  exists id, w1, l. split_and!; assumption.
Defined.

Lemma AddCamera_GetCamera_round_trip_witness :
  (wf Z_world /\ Z.of_nat (length (m_camera (this Z_world))) < 2 ^ 31) /\
  exists id w1 l w2,
    AddCamera Z_camera Z_half_turn Z_world = Ok id w1 /\
    id = 2 /\
    GetCamera (Z.to_nat id) w1 = Ok l w2 /\
    mjoin (camera_cells (mem w2) !! l)
    = Some (mkCameraAndPose Z_camera Z_half_turn).
Proof.
  assert (Hn : Z.of_nat (length (m_camera (this Z_world))) < 2 ^ 31)
    by (cbn; lia).
  split; [split; [exact wf_Z_world | exact Hn]|].
  destruct (@AddCamera_GetCamera_round_trip Z Quat_SE3Group Z_world
              Z_camera Z_half_turn wf_Z_world Hn)
    as (id & w1 & l & w2 & Ha & Hid & _ & _ & Hg & Hv & _).
  exists id, w1, l, w2. split_and!; assumption.
Defined.

Lemma observation_binds_added_objects_witness :
  (wf Z_world /\
   Z.of_nat (length (m_camera (this Z_world))) < 2 ^ 31 /\
   Z.of_nat (length (m_T_kw (this Z_world))) < 2 ^ 31) /\
  exists w3 c,
    (camera ← AddCamera Z_camera Z_half_turn;
     frame ← AddFrame quat_identity;
     AddObservation frame camera (mkVec3 1 1 1) (mkVec2 2 3)) Z_world
    = Ok tt w3 /\
    m_costs (this w3) = m_costs (this Z_world) ++ [c] /\
    read_block (mem w3) <$> cost_Params c
    = [Some (value_pose quat_identity); Some (value_pose Z_half_turn);
       Some (value_params Z_camera)].
Proof.
  assert (Hc : Z.of_nat (length (m_camera (this Z_world))) < 2 ^ 31)
    by (cbn; lia).
  assert (Hf : Z.of_nat (length (m_T_kw (this Z_world))) < 2 ^ 31)
    by (cbn; lia).
  split; [split_and!; [exact wf_Z_world | exact Hc | exact Hf]|].
  destruct (@observation_binds_added_objects Z Quat_SE3Group Z_world
              Z_camera Z_half_turn quat_identity (mkVec3 1 1 1) (mkVec2 2 3)
              wf_Z_world Hc Hf) as (w3 & c & Hp & Hcosts & _ & Hr).
  exists w3, c. split_and!; assumption.
Defined.

Lemma SolveThread_idles_without_observations_witness :
  (m_update_mutex (this (World_new (Sophus_double:=Quat_SE3Group (T:=Z))
                           true false)) = false /\
   m_costs (this (World_new (Sophus_double:=Quat_SE3Group (T:=Z))
                    true false)) = []) /\
  SolveThread (ProjModel0:=LinearPinhole) shifting_Solve Z_div_count 3
    (World_new true false)
  = Ok tt (mkWorld (mkMemory [] []) (Calibrator_new true false)
             [ev_lock; ev_unlock; ev_lock; ev_unlock; ev_lock; ev_unlock]).
Proof.
  split; [split; reflexivity|].
  rewrite (@SolveThread_idles_without_observations LinearPinhole Z
             Quat_SE3Group shifting_Solve Z_div_count 3
             (World_new true false) eq_refl eq_refl).
  reflexivity.
Defined.
